(** * QAOA optimizer for QUBO problems: a shallow embedding

    Embedding of [simple_qaoa_optimizer.py] (class [SimpleQAOAOptimizer]) and
    of [solve] of [qaoa_portfolio_optimizer.py]
    (class [QAOAPortfolioOptimizer]).

    Conventions.
    - Python floats are idealised as rationals [Q] (0.8 is 8/10, 1e-10 is
      1/10^10); [==] is [Qeq].
    - A numpy matrix is a list of rows.  Every matrix the optimizer builds
      is square ([np.zeros((n, n))]) and every read the code performs on an
      n x n matrix is inside its bounds, where numpy raises nothing; reads
      are written with [nth], and the general theorems about a matrix take
      [square] as a hypothesis.
    - A Python dict is an association list in insertion order with pairwise
      distinct keys; iteration follows that order.
    - An exception is a value of [exn]; fallible code returns [exn + A].
    - The qiskit classes the code calls are not part of the repository.
      Where the code depends on what they do, their behaviour is written
      out next to the definition that uses it: the constructor of
      [SparsePauliOp] refuses an empty list of labels, and the items of
      [hamiltonian.paulis] are [Pauli] objects, which never compare equal to
      a [str].
    - [logger] calls have no influence on any returned value and are left
      out. *)

From Stdlib Require Import Reals Qreals Lra.
From Stdlib Require Import List Bool Arith ZArith QArith Qabs Lia Lqa.
From Stdlib Require Import Ascii String.
Import ListNotations.

Local Open Scope Q_scope.

(** ** Numeric matrices *)

Definition matrix := list (list Q).

(** [qubo_matrix.shape[0]] *)
Definition shape0 (m : matrix) : nat := List.length m.

(** [qubo_matrix[i, j]] *)
Definition mget (m : matrix) (i j : nat) : Q := nth j (nth i m []) 0.

Definition square (n : nat) (m : matrix) : Prop :=
  List.length m = n /\ Forall (fun row => List.length row = n) m.

(** [l[i] = x] on a Python list, for [i] inside the list. *)
Fixpoint set_item {A} (l : list A) (i : nat) (x : A) : list A :=
  match l, i with
  | [], _ => []
  | _ :: t, O => x :: t
  | h :: t, S i' => h :: set_item t i' x
  end.

(** [qubo_matrix[i, j] = c] *)
Definition mset (m : matrix) (i j : nat) (c : Q) : matrix :=
  set_item m i (set_item (nth i m []) j c).

(** [np.zeros((n, n))] *)
Definition zeros (n : nat) : matrix := repeat (repeat 0 n) n.

(** ** Exceptions and fallible code *)

Inductive exn : Type :=
| ValueError (msg : string)
| IndexError (msg : string)
| ZeroDivisionError (msg : string)
| ImportError (msg : string)
| QiskitError (msg : string)
| ExternalError (msg : string).

Definition result (A : Type) : Type := (exn + A)%type.

Definition ret {A} (a : A) : result A := inr a.
Definition raise {A} (e : exn) : result A := inl e.

Definition bind {A B} (r : result A) (k : A -> result B) : result B :=
  match r with
  | inl e => inl e
  | inr a => k a
  end.

Declare Scope result_scope.
Delimit Scope result_scope with result.
Notation "x <- r ;; k" := (bind r (fun x => k))
  (at level 61, r at next level, right associativity) : result_scope.

(** ** Hamiltonians *)

(** A Pauli label as the builder writes it: one character per variable,
    ['I'] or ['Z'], position [i] for variable [i]. *)
Definition pauli_string := list ascii.

(** A [SparsePauliOp] holds the labels and the coefficients it was made
    from; the code reads them back with
    [zip(hamiltonian.paulis, hamiltonian.coeffs)]. *)
Record SparsePauliOp := mkOp {
  paulis : list pauli_string;
  coeffs : list Q
}.

(** The constructor call [SparsePauliOp(pauli_strings, coefficients)]:
    qiskit raises [QiskitError] for an empty list of labels and returns the
    operator of the two lists otherwise. *)
Definition SparsePauliOp_init (data : list pauli_string) (cs : list Q)
  : result SparsePauliOp :=
  match data with
  | [] => raise (QiskitError "Input Pauli list is empty.")
  | _ :: _ => ret (mkOp data cs)
  end.

Definition terms (h : SparsePauliOp) : list (pauli_string * Q) :=
  combine (paulis h) (coeffs h).

(** The threshold [1e-10]. *)
Definition eps : Q := 1 # 10000000000.

(** [abs(coeff) > 1e-10] *)
Definition above_eps (coeff : Q) : bool := negb (Qle_bool (Qabs coeff) eps).

(** [['I'] * n] *)
Definition all_I (n : nat) : pauli_string := repeat "I"%char n.

(** [pauli_str = ['I'] * n; pauli_str[i] = 'Z'] *)
Definition z_at (n i : nat) : pauli_string := set_item (all_I n) i "Z"%char.

(** [pauli_str = ['I'] * n; pauli_str[i] = 'Z'; pauli_str[j] = 'Z'] *)
Definition zz_at (n i j : nat) : pauli_string :=
  set_item (set_item (all_I n) i "Z"%char) j "Z"%char.

(** Tests on the characters of a label. *)
Definition is_Z (c : ascii) : bool := Ascii.eqb c "Z"%char.
Definition is_I (c : ascii) : bool := Ascii.eqb c "I"%char.

(** The three mutable locals of [_qubo_to_hamiltonian]. *)
Record builder := mkBuilder {
  pauli_strings : list pauli_string;
  coefficients : list Q;
  constant : Q
}.

Definition append_term (b : builder) (p : pauli_string) (c : Q) : builder :=
  mkBuilder (pauli_strings b ++ [p]) (coefficients b ++ [c]) (constant b).

Definition add_constant (b : builder) (c : Q) : builder :=
  mkBuilder (pauli_strings b) (coefficients b) (constant b + c).

(** Body of the first loop (diagonal terms). *)
Definition diagonal_step (m : matrix) (n : nat) (b : builder) (i : nat) : builder :=
  let coeff := mget m i i in
  if above_eps coeff
  then add_constant (append_term b (z_at n i) (coeff / 2)) (coeff / 2)
  else b.

(** Body of the inner loop of the second loop nest (off-diagonal terms). *)
Definition pair_step (m : matrix) (n i : nat) (b : builder) (j : nat) : builder :=
  let coeff := mget m i j in
  if above_eps coeff
  then
    let b1 := append_term b (zz_at n i j) (coeff / 4) in
    let b2 := append_term b1 (z_at n i) (coeff / 4) in
    let b3 := append_term b2 (z_at n j) (coeff / 4) in
    add_constant b3 (coeff / 4)
  else b.

(** [range(i+1, n)] *)
Definition range_from (i n : nat) : list nat := seq (S i) (n - S i).

Definition row_step (m : matrix) (n : nat) (b : builder) (i : nat) : builder :=
  fold_left (pair_step m n i) (range_from i n) b.

(** The final [if abs(constant) > 1e-10]. *)
Definition constant_step (n : nat) (b : builder) : builder :=
  if above_eps (constant b) then append_term b (all_I n) (constant b) else b.

(** The locals when the constructor is called: the two loops and the
    constant. *)
Definition hamiltonian_lists (qubo_matrix : matrix) : builder :=
  let n := shape0 qubo_matrix in
  let b0 := mkBuilder [] [] 0 in
  let b1 := fold_left (diagonal_step qubo_matrix n) (seq 0 n) b0 in
  let b2 := fold_left (row_step qubo_matrix n) (seq 0 n) b1 in
  constant_step n b2.

Definition _qubo_to_hamiltonian (qubo_matrix : matrix) : result SparsePauliOp :=
  let b := hamiltonian_lists qubo_matrix in
  SparsePauliOp_init (pauli_strings b) (coefficients b).

(** ** Exact objective and sampled energy *)

(** [_calculate_objective_value]: [solution] is a list of Python ints. *)
Definition objective_linear (solution : list Z) (m : matrix) (acc : Q) : Q :=
  fold_left (fun objective i => objective + mget m i i * inject_Z (nth i solution 0%Z))
            (seq 0 (List.length solution)) acc.

Definition objective_quadratic (solution : list Z) (m : matrix) (acc : Q) : Q :=
  let n := List.length solution in
  fold_left (fun objective i =>
     fold_left (fun objective j =>
        objective + mget m i j * inject_Z (nth i solution 0%Z)
                               * inject_Z (nth j solution 0%Z))
       (range_from i n) objective)
    (seq 0 n) acc.

Definition _calculate_objective_value (solution : list Z) (qubo_matrix : matrix) : Q :=
  objective_quadratic solution qubo_matrix (objective_linear solution qubo_matrix 0).

(** The operator of the two lists: what the constructor returns whenever it
    returns. *)
Definition built_operator (qubo_matrix : matrix) : SparsePauliOp :=
  let b := hamiltonian_lists qubo_matrix in
  mkOp (pauli_strings b) (coefficients b).

(** ** Pauli objects

    The items of [hamiltonian.paulis] are qiskit [Pauli] objects, not the
    strings they were made from.  A Pauli is represented by its label.
    Iterating over a Pauli yields its one-qubit Paulis, qubit 0 first,
    which is the last character of the label; and [Pauli.__eq__] answers
    [False] for every operand that is not a Pauli, so for every [str]. *)
Definition Pauli := pauli_string.

(** [for p in pauli_str] / [enumerate(pauli_str)] *)
Definition Pauli_items (p : Pauli) : list Pauli := map (fun c => [c]) (rev p).

(** [p == 'Z'], [p == 'I']: a Pauli against a [str]. *)
Definition Pauli_eq_str (p : Pauli) (s : string) : bool := false.

(** Inner loop of [cost_function]: [term_contrib] starts at the coefficient
    and is multiplied by [1 - 2 * solution[q]] wherever [p_char == 'Z']
    holds. *)
Fixpoint term_contrib_from (q : nat) (items : list Pauli)
         (solution : list Z) (acc : Q) : Q :=
  match items with
  | [] => acc
  | p_char :: rest =>
      term_contrib_from (S q) rest solution
        (if Pauli_eq_str p_char "Z"
         then acc * inject_Z (1 - 2 * nth q solution 0%Z)
         else acc)
  end.

Definition term_contrib (pauli_str : Pauli) (coeff : Q) (solution : list Z) : Q :=
  term_contrib_from 0 (Pauli_items pauli_str) solution coeff.

(** [bitstring_energy] of [cost_function] for one sampled assignment. *)
Definition bitstring_energy (h : SparsePauliOp) (solution : list Z) : Q :=
  fold_left (fun e t => e + term_contrib (fst t) (snd t) solution) (terms h) 0.

(** [l[p]] on a numpy vector: IndexError outside the vector. *)
Definition py_index {A} (l : list A) (p : nat) : result A :=
  match nth_error l p with
  | Some a => ret a
  | None => raise (IndexError "index out of bounds")
  end.

(** ** Circuits *)

Inductive gate : Type :=
| g_h (q : nat)
| g_rz (theta : Q) (q : nat)
| g_rx (theta : Q) (q : nat)
| g_measure_all.

Record QuantumCircuit := mkCircuit {
  num_qubits : nat;
  gates : list gate
}.

(** [len(hamiltonian.paulis[0]) if hamiltonian.paulis else 0] *)
Definition hamiltonian_num_qubits (h : SparsePauliOp) : nat :=
  match paulis h with
  | [] => O
  | p :: _ => List.length p
  end.

(** [for q in range(num_qubits): qc.h(q)] *)
Definition hadamards (n : nat) : list gate := map g_h (seq 0 n).

(** [for q, p in enumerate(pauli_str): if p == 'Z': qc.rz(theta, q)] *)
Fixpoint z_rotations_from (q : nat) (items : list Pauli) (theta : Q) : list gate :=
  match items with
  | [] => []
  | p :: rest =>
      (if Pauli_eq_str p "Z" then [g_rz theta q] else [])
        ++ z_rotations_from (S q) rest theta
  end.

(** The cost unitary of one layer as [_create_qaoa_circuit] writes it: a
    term is skipped when [all(p == 'I' for p in pauli_str)], and otherwise
    [rz(2 * gamma * coeff)] is applied at every position with [p == 'Z']. *)
Definition cost_term (gamma : Q) (t : Pauli * Q) : list gate :=
  let (pauli_str, coeff) := t in
  if forallb (fun p => Pauli_eq_str p "I") (Pauli_items pauli_str) then []
  else z_rotations_from 0 (Pauli_items pauli_str) (2 * gamma * coeff).

Definition cost_unitary (h : SparsePauliOp) (gamma : Q) : list gate :=
  flat_map (cost_term gamma) (terms h).

(** [for q in range(num_qubits): qc.rx(2 * beta, q)] *)
Definition mixer_unitary (n : nat) (beta : Q) : list gate :=
  map (fun q => g_rx (2 * beta) q) (seq 0 n).

Definition _create_qaoa_circuit (reps : nat) (h : SparsePauliOp) (gamma beta : Q)
  : QuantumCircuit :=
  let n := hamiltonian_num_qubits h in
  let layer := cost_unitary h gamma ++ mixer_unitary n beta in
  mkCircuit n (hadamards n ++ List.concat (repeat layer reps) ++ [g_measure_all]).

(** In [_create_parameterized_circuit] the angle [gammas[p]] is read at each
    rotation and [betas[p]] at each mixer gate, so a vector that is too
    short raises only when such a gate is reached. *)
Fixpoint z_rotations_param (q : nat) (items : list Pauli)
         (gammas : list Q) (p : nat) (coeff : Q) : result (list gate) :=
  match items with
  | [] => ret []
  | p_char :: rest =>
      (g <- (if Pauli_eq_str p_char "Z"
             then (gamma <- py_index gammas p ;; ret [g_rz (2 * gamma * coeff) q])
             else ret []) ;;
       gs <- z_rotations_param (S q) rest gammas p coeff ;;
       ret (g ++ gs))%result
  end.

Fixpoint cost_unitary_param (ts : list (Pauli * Q)) (gammas : list Q) (p : nat)
  : result (list gate) :=
  match ts with
  | [] => ret []
  | (pauli_str, coeff) :: rest =>
      (g <- (if forallb (fun p_char => Pauli_eq_str p_char "I") (Pauli_items pauli_str)
             then ret []
             else z_rotations_param 0 (Pauli_items pauli_str) gammas p coeff) ;;
       gs <- cost_unitary_param rest gammas p ;;
       ret (g ++ gs))%result
  end.

Fixpoint mixer_unitary_param (qs : list nat) (betas : list Q) (p : nat)
  : result (list gate) :=
  match qs with
  | [] => ret []
  | q :: rest =>
      (beta <- py_index betas p ;;
       gs <- mixer_unitary_param rest betas p ;;
       ret (g_rx (2 * beta) q :: gs))%result
  end.

Fixpoint param_layers (h : SparsePauliOp) (n : nat) (gammas betas : list Q)
         (ps : list nat) : result (list gate) :=
  match ps with
  | [] => ret []
  | p :: rest =>
      (c <- cost_unitary_param (terms h) gammas p ;;
       m <- mixer_unitary_param (seq 0 n) betas p ;;
       gs <- param_layers h n gammas betas rest ;;
       ret (c ++ m ++ gs))%result
  end.

(** The circuit before [measure_all], shared with [cost_function]. *)
Definition ansatz (reps : nat) (h : SparsePauliOp) (gammas betas : list Q)
  : result QuantumCircuit :=
  let n := hamiltonian_num_qubits h in
  (ls <- param_layers h n gammas betas (seq 0 reps) ;;
   ret (mkCircuit n (hadamards n ++ ls)))%result.

Definition measure_all (qc : QuantumCircuit) : QuantumCircuit :=
  mkCircuit (num_qubits qc) (gates qc ++ [g_measure_all]).

Definition _create_parameterized_circuit (reps : nat) (h : SparsePauliOp)
           (gammas betas : list Q) : result QuantumCircuit :=
  (qc <- ansatz reps h gammas betas ;; ret (measure_all qc))%result.

(** ** Sample histograms and solution extraction *)

(** [counts]: bitstring to number of observations, in the dict's order. *)
Definition counts := list (string * Z).

(** [counts.get(k)] / [counts[k]] for a key taken from [counts] itself. *)
Definition counts_get (c : counts) (k : string) : Z :=
  match find (fun e => String.eqb (fst e) k) c with
  | Some e => snd e
  | None => 0%Z
  end.

(** [max(counts, key=counts.get)]: the keys are visited in order and a key
    replaces the current best only when its count is strictly larger. *)
Fixpoint max_key_from (c : counts) (best : string) (keys : list string) : string :=
  match keys with
  | [] => best
  | k :: rest =>
      max_key_from c (if (counts_get c best <? counts_get c k)%Z then k else best) rest
  end.

Definition max_by_count (c : counts) : result string :=
  match map fst c with
  | [] => raise (ValueError "max() arg is an empty sequence")
  | k :: rest => ret (max_key_from c k rest)
  end.

(** [int(bit)] for one character. *)
Definition int_of_char (ch : ascii) : result Z :=
  let n := nat_of_ascii ch in
  if (48 <=? n)%nat && (n <=? 57)%nat
  then ret (Z.of_nat (n - 48))
  else raise (ValueError "invalid literal for int() with base 10").

Fixpoint ints_of_chars (l : list ascii) : result (list Z) :=
  match l with
  | [] => ret []
  | ch :: rest =>
      (b <- int_of_char ch ;;
       bs <- ints_of_chars rest ;;
       ret (b :: bs))%result
  end.

(** [[int(bit) for bit in bitstring[::-1]]] *)
Definition solution_of_bitstring (bitstring : string) : result (list Z) :=
  ints_of_chars (rev (list_ascii_of_string bitstring)).

(** [a / b] on Python ints (true division). *)
Definition int_true_div (a b : Z) : result Q :=
  if (b =? 0)%Z then raise (ZeroDivisionError "division by zero")
  else ret (inject_Z a / inject_Z b).

(** The result dictionary of [solve] and [solve_problem]
    (keys ['x']/['solution'], ['fval']/['objective_value'], ['probability'],
    ['counts'], ['success']). *)
Record solve_result := mkResult {
  solution : list Z;
  objective_value : Q;
  probability : Q;
  result_counts : counts;
  success : bool
}.

(** The block "Process results" .. "Create result dictionary". *)
Definition process_results (c : counts) (shots : Z) (qubo_matrix : matrix)
  : result solve_result :=
  (best_bitstring <- max_by_count c ;;
   best_solution <- solution_of_bitstring best_bitstring ;;
   probability <- int_true_div (counts_get c best_bitstring) shots ;;
   let objective_value := _calculate_objective_value best_solution qubo_matrix in
   ret (mkResult best_solution objective_value probability c true))%result.

(** ** Building the QUBO matrix *)

Definition qubo_dict := list ((nat * nat) * Q).

(** The elements added to [all_indices]; only their maximum is used. *)
Definition all_indices (d : qubo_dict) : list nat :=
  flat_map (fun e => [fst (fst e); snd (fst e)]) d.

(** [max(all_indices)] *)
Definition max_index (l : list nat) : result nat :=
  match l with
  | [] => raise (ValueError "max() arg is an empty sequence")
  | _ :: _ => ret (list_max l)
  end.

(** Body of the loop that fills the matrix in [solve_problem]. *)
Definition fill_step (m : matrix) (e : (nat * nat) * Q) : matrix :=
  let '((i, j), coeff) := e in
  let m1 := mset m i j coeff in
  if Nat.eqb i j then m1 else mset m1 j i coeff.

Definition fill (m : matrix) (d : qubo_dict) : matrix := fold_left fill_step d m.

Definition matrix_of_dict (d : qubo_dict) : result matrix :=
  (top <- max_index (all_indices d) ;;
   let n_vars := S top in
   ret (fill (zeros n_vars) d))%result.

(** A [QuadraticProgram] as [solve] reads it: [get_num_vars()],
    [objective.linear.to_dict()], [objective.quadratic.to_dict()]. *)
Record QuadraticProgram := mkProgram {
  get_num_vars : nat;
  linear : list (nat * Q);
  quadratic : qubo_dict
}.

(** An assignment into a numpy matrix raises IndexError outside its shape. *)
Definition mset_checked (n : nat) (m : matrix) (i j : nat) (c : Q) : result matrix :=
  if (i <? n)%nat && (j <? n)%nat then ret (mset m i j c)
  else raise (IndexError "index is out of bounds").

Fixpoint fill_linear (n : nat) (m : matrix) (l : list (nat * Q)) : result matrix :=
  match l with
  | [] => ret m
  | (i, coeff) :: rest =>
      (m1 <- mset_checked n m i i coeff ;; fill_linear n m1 rest)%result
  end.

Fixpoint fill_quadratic (n : nat) (m : matrix) (l : qubo_dict) : result matrix :=
  match l with
  | [] => ret m
  | ((i, j), coeff) :: rest =>
      (m1 <- mset_checked n m i j coeff ;;
       m2 <- mset_checked n m1 j i coeff ;;
       fill_quadratic n m2 rest)%result
  end.

Definition matrix_of_program (p : QuadraticProgram) : result matrix :=
  let n := get_num_vars p in
  (m1 <- fill_linear n (zeros n) (linear p) ;;
   fill_quadratic n m1 (quadratic p))%result.

(** ** The execution environment

    Circuit execution, the classical optimizers and the IBM runtime service
    are libraries outside the repository.  Their behaviour is a parameter of
    the embedding; the state threaded through the code is the list of jobs
    handed to a backend so far, and the answer of a backend or of the
    runtime service may depend on it (the simulator draws fresh randomness
    on every run, the service is reached over the network). *)

Inductive backend_handle : Type :=
| aer_simulator
| ibm_backend (name : string).

Definition job : Type := (backend_handle * QuantumCircuit * Z)%type.

Definition world : Type := list job.

Definition M (A : Type) : Type := world -> result A * world.

Definition retM {A} (a : A) : M A := fun w => (inr a, w).
Definition raiseM {A} (e : exn) : M A := fun w => (inl e, w).
Definition liftM {A} (r : result A) : M A := fun w => (r, w).

Definition bindM {A B} (m : M A) (k : A -> M B) : M B :=
  fun w =>
    match m w with
    | (inl e, w') => (inl e, w')
    | (inr a, w') => k a w'
    end.

(** [try: m  except Exception as e: handler e] *)
Definition try_except {A} (m : M A) (handler : exn -> M A) : M A :=
  fun w =>
    match m w with
    | (inl e, w') => handler e w'
    | (inr a, w') => (inr a, w')
    end.

Declare Scope comp_scope.
Delimit Scope comp_scope with comp.
Notation "x <- m ;; k" := (bindM m (fun x => k))
  (at level 61, m at next level, right associativity) : comp_scope.

Inductive optimizer : Type :=
| COBYLA (maxiter : nat) (tol : Q)
| SPSA (maxiter : nat).

(** [result.x], [result.fun], [result.nfev] of [optimizer.minimize]. *)
Record OptimizerResult := mkOptimizerResult {
  opt_x : list Q;
  opt_fun : Q;
  opt_nfev : Z
}.

Record Env := mkEnv {
  (** [backend.run(circuit, shots=shots).result().get_counts()] *)
  run_job : world -> job -> result counts;
  (** [QiskitRuntimeService().backend(name)], with the import before it: a
      call to a remote service, whose answer may change from one call to
      the next *)
  service_backend : world -> string -> result unit;
  (** [optimizer.minimize(cost_function, x0=initial_point)] *)
  minimize : optimizer -> (list Q -> M Q) -> list Q -> M OptimizerResult;
  (** [QAOAAnsatz(hamiltonian, reps=reps).bind_parameters(params)] followed
      by [measure_all()] *)
  qaoa_ansatz : SparsePauliOp -> nat -> list Q -> result QuantumCircuit;
  (** [MinimumEigenOptimizer(NumPyMinimumEigensolver()).solve(problem)],
      together with the imports that precede it *)
  OptimizationResult : Type;
  classical_solve : QuadraticProgram -> result OptimizationResult
}.

Definition backend_run (E : Env) (b : backend_handle) (qc : QuantumCircuit) (shots : Z)
  : M counts :=
  fun w => (run_job E w (b, qc, shots), w ++ [(b, qc, shots)]).

(** The attributes set by [SimpleQAOAOptimizer.__init__]. *)
Record SimpleQAOAOptimizer := mkSimple {
  reps : nat;
  shots : Z;
  backend : option string
}.

(** ** The cost function of the parameter search *)

(** [params.reshape(2, self.reps)] and the two row slices. *)
Definition reshape2 (reps : nat) (params : list Q) : result (list Q * list Q) :=
  if Nat.eqb (List.length params) (2 * reps)
  then ret (firstn reps params, skipn reps params)
  else raise (ValueError "cannot reshape array").

(** [x / total] with a float numerator and an int denominator. *)
Definition float_div (x : Q) (total : Z) : result Q :=
  if (total =? 0)%Z then raise (ZeroDivisionError "float division by zero")
  else ret (x / inject_Z total).

(** [sum(counts.values())] *)
Definition total_shots (c : counts) : Z :=
  fold_left (fun s e => (s + snd e)%Z) c 0%Z.

Fixpoint sampled_energy (h : SparsePauliOp) (total : Z) (items : counts) (energy : Q)
  : result Q :=
  match items with
  | [] => ret energy
  | (bitstring, count) :: rest =>
      (solution <- solution_of_bitstring bitstring ;;
       contribution <- float_div (bitstring_energy h solution * inject_Z count) total ;;
       sampled_energy h total rest (energy + contribution))%result
  end.

(** The closure returned by [_create_cost_function]; as in the source, the
    argument [reps] is not used (the body reads [self.reps]). *)
Definition _create_cost_function (E : Env) (self : SimpleQAOAOptimizer)
           (h : SparsePauliOp) (_reps : nat) (params : list Q) : M Q :=
  (gb <- liftM (reshape2 (reps self) params) ;;
   qc <- liftM (ansatz (reps self) h (fst gb) (snd gb)) ;;
   c <- backend_run E aer_simulator (measure_all qc) (shots self) ;;
   liftM (sampled_energy h (total_shots c) c 0))%comp.

(** ** Parameter search *)

(** [np.zeros(2 * reps)] with [0.8] and [0.4] written per repetition. *)
Definition initial_point (reps : nat) : list Q :=
  fold_left (fun ip i => set_item (set_item ip i (8 # 10)) (i + reps) (4 # 10))
            (seq 0 reps) (repeat 0 (2 * reps)).

Definition select_optimizer (optimizer_name : string) : result optimizer :=
  if String.eqb optimizer_name "COBYLA" then ret (COBYLA 200 (1 # 10000))
  else if String.eqb optimizer_name "SPSA" then ret (SPSA 100)
  else raise (ValueError ("Unsupported optimizer: " ++ optimizer_name)).

Definition _optimize_parameters (E : Env) (self : SimpleQAOAOptimizer)
           (h : SparsePauliOp) (reps : nat) (optimizer_name : string)
  : M (list Q * list Q * Q) :=
  let cost_function := _create_cost_function E self h reps in
  let x0 := initial_point reps in
  (opt <- liftM (select_optimizer optimizer_name) ;;
   r <- minimize E opt cost_function x0 ;;
   retM (firstn reps (opt_x r), skipn reps (opt_x r), opt_fun r))%comp.

(** ** The solvers *)

(** [gamma = 0.8], [beta = 0.4] of the non-variational branch. *)
Definition fixed_gamma : Q := 8 # 10.
Definition fixed_beta : Q := 4 # 10.

(** The [if use_variational: ... else: ...] block. *)
Definition choose_circuit (E : Env) (self : SimpleQAOAOptimizer) (h : SparsePauliOp)
           (optimizer_name : string) (use_variational : bool) : M QuantumCircuit :=
  if use_variational
  then
    (gbc <- _optimize_parameters E self h (reps self) optimizer_name ;;
     liftM (_create_parameterized_circuit (reps self) h (fst (fst gbc)) (snd (fst gbc))))%comp
  else retM (_create_qaoa_circuit (reps self) h fixed_gamma fixed_beta).

(** Backend selection of [solve_problem]: a non-empty name is looked up at
    the runtime service, and any failure falls back to the simulator. *)
Definition chosen_backend (E : Env) (self : SimpleQAOAOptimizer) (w : world)
  : backend_handle :=
  match backend self with
  | Some name =>
      if String.eqb name EmptyString then aer_simulator
      else match service_backend E w name with
           | inr _ => ibm_backend name
           | inl _ => aer_simulator
           end
  | None => aer_simulator
  end.

Definition select_backend (E : Env) (self : SimpleQAOAOptimizer) : M backend_handle :=
  fun w => (inr (chosen_backend E self w), w).

(** The [try] block of [solve_problem]. *)
Definition solve_problem_body (E : Env) (self : SimpleQAOAOptimizer) (d : qubo_dict)
           (optimizer_name : string) (use_variational : bool) : M solve_result :=
  (qubo_matrix <- liftM (matrix_of_dict d) ;;
   hamiltonian <- liftM (_qubo_to_hamiltonian qubo_matrix) ;;
   b <- select_backend E self ;;
   qaoa_circuit <- choose_circuit E self hamiltonian optimizer_name use_variational ;;
   c <- backend_run E b qaoa_circuit (shots self) ;;
   liftM (process_results c (shots self) qubo_matrix))%comp.

(** [except Exception as e: logger.error(...); raise] *)
Definition solve_problem (E : Env) (self : SimpleQAOAOptimizer) (d : qubo_dict)
           (optimizer_name : string) (use_variational : bool) : M solve_result :=
  try_except (solve_problem_body E self d optimizer_name use_variational)
             (fun e => raiseM e).

(** The [try] block of [SimpleQAOAOptimizer.solve]. *)
Definition solve_body (E : Env) (self : SimpleQAOAOptimizer) (p : QuadraticProgram)
           (optimizer_name : string) (use_variational : bool) : M solve_result :=
  (qubo_matrix <- liftM (matrix_of_program p) ;;
   hamiltonian <- liftM (_qubo_to_hamiltonian qubo_matrix) ;;
   qaoa_circuit <- choose_circuit E self hamiltonian optimizer_name use_variational ;;
   c <- backend_run E aer_simulator qaoa_circuit (shots self) ;;
   liftM (process_results c (shots self) qubo_matrix))%comp.

Definition solve (E : Env) (self : SimpleQAOAOptimizer) (p : QuadraticProgram)
           (optimizer_name : string) (use_variational : bool) : M solve_result :=
  try_except (solve_body E self p optimizer_name use_variational)
             (fun e => raiseM e).

(** ** [QAOAPortfolioOptimizer]

    [_qubo_to_ising] has line for line the body of [_qubo_to_hamiltonian]. *)
Definition _qubo_to_ising (qubo_matrix : matrix) : result SparsePauliOp :=
  _qubo_to_hamiltonian qubo_matrix.

Record QAOAPortfolioOptimizer := mkPortfolio {
  p_reps : nat;
  p_shots : Z
}.

(** [np.pi] is the double nearest to pi. *)
Definition np_pi : Q := 884279719003555 # 281474976710656.

(** [0.0] at even positions and [np.pi/2] at odd ones. *)
Definition initial_params (reps : nat) : list Q :=
  map (fun i => if Nat.even i then 0 else np_pi / 2) (seq 0 (2 * reps)).

(** What [QAOAPortfolioOptimizer.solve] hands back: its own dictionary
    (['x'], ['fval'], ['counts'], ['success']) or, from the except branch,
    the object returned by the classical optimizer. *)
Inductive portfolio_output (E : Env) : Type :=
| portfolio_dict (x : list Z) (fval : Q) (c : counts) (success : bool)
| classical_result (r : OptimizationResult E).

Arguments portfolio_dict {E} x fval c success.
Arguments classical_result {E} r.

(** The [try] block of [QAOAPortfolioOptimizer.solve]. *)
Definition portfolio_solve_body (E : Env) (self : QAOAPortfolioOptimizer)
           (p : QuadraticProgram) : M (portfolio_output E) :=
  (qubo_matrix <- liftM (matrix_of_program p) ;;
   hamiltonian <- liftM (_qubo_to_ising qubo_matrix) ;;
   bound_circuit <- liftM (qaoa_ansatz E hamiltonian (p_reps self)
                                       (initial_params (p_reps self))) ;;
   c <- backend_run E aer_simulator bound_circuit (p_shots self) ;;
   best_bitstring <- liftM (max_by_count c) ;;
   best_solution <- liftM (solution_of_bitstring best_bitstring) ;;
   let objective_value := _calculate_objective_value best_solution qubo_matrix in
   retM (portfolio_dict best_solution objective_value c true))%comp.

(** The except branch: the classical optimizer is tried, its result is
    returned as it is, and its failure is raised again. *)
Definition portfolio_fallback (E : Env) (p : QuadraticProgram) : M (portfolio_output E) :=
  try_except
    (r <- liftM (classical_solve E p) ;; retM (classical_result r))%comp
    (fun fallback_error => raiseM fallback_error).

Definition portfolio_solve (E : Env) (self : QAOAPortfolioOptimizer) (p : QuadraticProgram)
  : M (portfolio_output E) :=
  try_except (portfolio_solve_body E self p) (fun _ => portfolio_fallback E p).

(** ** Action of the cost unitary on amplitudes

    [rz(theta)] is the diagonal gate diag(exp(-i theta/2), exp(+i theta/2)):
    on a basis state it multiplies the amplitude by
    exp(-i (theta/2) z), with z = +1 for bit 0 and z = -1 for bit 1.  A
    sequence of such gates multiplies the amplitude of a basis state by
    exp(-i phi), phi being the sum of the single angles. *)

(** [+1] for bit 0, [-1] for bit 1, at qubit [q] of the assignment. *)
Definition z_eigenvalue (solution : list Z) (q : nat) : Z :=
  (1 - 2 * nth q solution 0)%Z.

(** The angle [phi] of one gate of a cost unitary.  A cost unitary holds
    [rz] gates only; the other gates are not diagonal and get no angle. *)
Definition gate_phase_angle (g : gate) (solution : list Z) : Q :=
  match g with
  | g_rz theta q => theta / 2 * inject_Z (z_eigenvalue solution q)
  | _ => 0
  end.

Definition phase_angle (gs : list gate) (solution : list Z) : Q :=
  fold_left (fun phi g => phi + gate_phase_angle g solution) gs 0.

(** A complex number as real and imaginary part. *)
Definition complex : Type := (R * R)%type.

Definition Cmult (a b : complex) : complex :=
  (fst a * fst b - snd a * snd b, fst a * snd b + snd a * fst b)%R.

(** exp(-i phi) *)
Definition phase_factor (phi : Q) : complex :=
  (cos (Q2R phi), (- sin (Q2R phi))%R).

(** The amplitude of [solution] after the cost step of the code. *)
Definition cost_step (h : SparsePauliOp) (gamma : Q) (solution : list Z)
           (amplitude : complex) : complex :=
  Cmult (phase_factor (phase_angle (cost_unitary h gamma) solution)) amplitude.

(** The value of a term in the words of the specification: the coefficient
    times the product of [1 - 2 * x_q] over the qubits the term touches,
    these being the positions where the label the builder wrote holds
    ['Z']. *)
Fixpoint ising_term_from (q : nat) (label : pauli_string) (x : list Z) (acc : Q) : Q :=
  match label with
  | [] => acc
  | c :: rest =>
      ising_term_from (S q) rest x
        (if is_Z c then acc * inject_Z (1 - 2 * nth q x 0%Z) else acc)
  end.

Definition ising_term (label : pauli_string) (coeff : Q) (x : list Z) : Q :=
  ising_term_from 0 label x coeff.

(** The energy of the Hamiltonian on an assignment in the words of the
    specification: the sum of the values of all terms, the constant
    included. *)
Definition ising_energy (h : SparsePauliOp) (x : list Z) : Q :=
  fold_left (fun e t => e + ising_term (fst t) (snd t) x) (terms h) 0.

(** The cost step in the words of the specification: every non-identity
    term contributes the angle [2 * gamma * coefficient * eigenvalue], the
    eigenvalue being the product of the +1/-1 values of the qubits the term
    touches. *)
Definition term_eigenvalue (pauli_str : pauli_string) (solution : list Z) : Q :=
  ising_term pauli_str 1 solution.

Definition spec_phase_angle (h : SparsePauliOp) (gamma : Q) (solution : list Z) : Q :=
  fold_left (fun phi t =>
               if forallb is_I (fst t) then phi
               else phi + 2 * gamma * snd t * term_eigenvalue (fst t) solution)
            (terms h) 0.

Definition spec_cost_step (h : SparsePauliOp) (gamma : Q) (solution : list Z)
           (amplitude : complex) : complex :=
  Cmult (phase_factor (spec_phase_angle h gamma solution)) amplitude.

(** The number of ['Z'] characters of a label. *)
Definition count_Z (pauli_str : pauli_string) : nat :=
  List.length (filter is_Z pauli_str).

(** ** Closed form of the term list *)

Definition diagonal_entry (m : matrix) (n i : nat) : list (pauli_string * Q) :=
  if above_eps (mget m i i) then [(z_at n i, mget m i i / 2)] else [].

Definition pair_entry (m : matrix) (n i j : nat) : list (pauli_string * Q) :=
  if above_eps (mget m i j)
  then [(zz_at n i j, mget m i j / 4); (z_at n i, mget m i j / 4);
        (z_at n j, mget m i j / 4)]
  else [].

Definition diagonal_terms (m : matrix) (n : nat) : list (pauli_string * Q) :=
  flat_map (diagonal_entry m n) (seq 0 n).

Definition offdiagonal_terms (m : matrix) (n : nat) : list (pauli_string * Q) :=
  flat_map (fun i => flat_map (pair_entry m n i) (range_from i n)) (seq 0 n).

(** The value of [constant] when the two loops are done. *)
Definition accumulated_constant (m : matrix) (n : nat) : Q :=
  fold_left (fun k i => fold_left (fun k j =>
                 if above_eps (mget m i j) then k + mget m i j / 4 else k)
               (range_from i n) k)
    (seq 0 n)
    (fold_left (fun k i => if above_eps (mget m i i) then k + mget m i i / 2 else k)
               (seq 0 n) 0).

Definition constant_term (m : matrix) (n : nat) : list (pauli_string * Q) :=
  if above_eps (accumulated_constant m n)
  then [(all_I n, accumulated_constant m n)]
  else [].

(** ** Concrete problems and environments *)

(** All assignments of [n] bits. *)
Fixpoint all_assignments (n : nat) : list (list Z) :=
  match n with
  | O => [[]]
  | S n' => flat_map (fun x => [0%Z :: x; 1%Z :: x]) (all_assignments n')
  end.

(** linear = {0: -1, 1: -1, 2: -2}, quadratic = {(0,1): 2, (0,2): 1} *)
Definition scenario_program : QuadraticProgram :=
  mkProgram 3 [(0%nat, -1); (1%nat, -1); (2%nat, -2)]
              [((0%nat, 1%nat), 2); ((0%nat, 2%nat), 1)].

Definition scenario_matrix : matrix :=
  [[-1; 2; 1]; [2; -1; 0]; [1; 0; -2]].

(** The same problem as a [qubo_dict]. *)
Definition scenario_dict : qubo_dict :=
  [((0%nat, 0%nat), -1); ((1%nat, 1%nat), -1); ((2%nat, 2%nat), -2);
   ((0%nat, 1%nat), 2); ((0%nat, 2%nat), 1)].

(** A dict with a mirrored pair, and the same dict without the mirror. *)
Definition mirrored_dict : qubo_dict :=
  [((0%nat, 1%nat), 2); ((1%nat, 1%nat), -1); ((1%nat, 0%nat), 2)].

(** [d] without the key [k]. *)
Definition remove_key (k : nat * nat) (d : qubo_dict) : qubo_dict :=
  filter (fun e => negb (Nat.eqb (fst (fst e)) (fst k) && Nat.eqb (snd (fst e)) (snd k))) d.

(** An environment whose backend answers every job with one fixed
    histogram and whose optimizer returns its starting point. *)
Definition fixed_env (c : counts) : Env :=
  mkEnv (fun _ _ => ret c)
        (fun _ _ => raise (ExternalError "no account"))
        (fun _ _ x0 => retM (mkOptimizerResult x0 0 0))
        (fun h n _ => ret (mkCircuit (hamiltonian_num_qubits h) [g_measure_all]))
        unit
        (fun _ => raise (ImportError "No module named qiskit.algorithms")).

(** An environment whose backend fails on every job. *)
Definition failing_env : Env :=
  mkEnv (fun _ _ => raise (ExternalError "simulation failed"))
        (fun _ _ => raise (ExternalError "no account"))
        (fun _ _ x0 => retM (mkOptimizerResult x0 0 0))
        (fun h n _ => ret (mkCircuit (hamiltonian_num_qubits h) [g_measure_all]))
        unit
        (fun _ => raise (ImportError "No module named qiskit.algorithms")).

(** An environment whose backend draws afresh on every run: the histogram
    it answers depends on how many jobs were executed before. *)
Definition alternating_env : Env :=
  mkEnv (fun w j => ret [(if Nat.even (List.length w) then "0"%string else "1"%string,
                          snd j)])
        (fun _ _ => raise (ExternalError "no account"))
        (fun _ _ x0 => retM (mkOptimizerResult x0 0 0))
        (fun h n _ => ret (mkCircuit (hamiltonian_num_qubits h) [g_measure_all]))
        unit
        (fun _ => raise (ImportError "No module named qiskit.algorithms")).

Definition default_optimizer : SimpleQAOAOptimizer := mkSimple 1 1024 None.

(** The circuit without a cost step: a Hadamard on each of [n] qubits,
    per repetition [rx(2 * beta)] on each qubit, and the measurement. *)
Definition mixer_only_circuit (n reps : nat) (beta : Q) : QuantumCircuit :=
  mkCircuit n (hadamards n ++ List.concat (repeat (mixer_unitary n beta) reps)
                           ++ [g_measure_all]).

(** The job [solve_problem] hands to the backend when the parameters are
    the fixed ones: the backend it selected, the circuit for [gamma = 0.8],
    [beta = 0.4], and the shot count. *)
Definition fixed_job (E : Env) (self : SimpleQAOAOptimizer) (m : matrix) (w : world) : job :=
  (chosen_backend E self w,
   mixer_only_circuit (shape0 m) (reps self) fixed_beta,
   shots self).

(** A bitstring is made of the characters ['0'] and ['1']. *)
Definition is_bit_char (ch : ascii) : bool :=
  Ascii.eqb ch "0"%char || Ascii.eqb ch "1"%char.

Definition is_bitstring (s : string) : bool :=
  forallb is_bit_char (list_ascii_of_string s).

(** ** Writes into the matrix *)

(** The keys whose assignment writes position [(r, s)]. *)
Definition touches (r s : nat) (e : (nat * nat) * Q) : bool :=
  Nat.eqb (fst (fst e)) r && Nat.eqb (snd (fst e)) s
  || Nat.eqb (fst (fst e)) s && Nat.eqb (snd (fst e)) r.

Definition in_range (n : nat) (d : qubo_dict) : Prop :=
  Forall (fun e => (fst (fst e) < n)%nat /\ (snd (fst e) < n)%nat) d.

(** The coefficient of the last entry of the dict that writes [(r, s)]. *)
Definition last_write (r s : nat) (d : qubo_dict) : option Q :=
  option_map snd (find (touches r s) (rev d)).

(** Unfolding of the solvers down to the state-passing functions. *)
Ltac unfold_pipeline :=
  unfold solve, solve_problem, solve_body, solve_problem_body, portfolio_solve,
    portfolio_fallback, select_backend, try_except, bindM, liftM, retM, raiseM in *.

(** ** Reference notions for the further properties *)

(** A character of a label is ['I'] or ['Z']. *)
Definition is_pauli_char (c : ascii) : bool := is_I c || is_Z c.

(** The entries on and above the diagonal, the only ones the builder and
    the objective read. *)
Definition upper_agree (n : nat) (m1 m2 : matrix) : Prop :=
  forall i j, (i <= j)%nat -> (j < n)%nat -> mget m1 i j = mget m2 i j.

(** No entry on or above the diagonal exceeds the threshold. *)
Definition below_threshold (n : nat) (m : matrix) : Prop :=
  forall i j, (i <= j)%nat -> (j < n)%nat -> above_eps (mget m i j) = false.

(** The qubit a gate acts on lies below [n]. *)
Definition gate_in_range (n : nat) (g : gate) : bool :=
  match g with
  | g_h q => (q <? n)%nat
  | g_rz _ q => (q <? n)%nat
  | g_rx _ q => (q <? n)%nat
  | g_measure_all => true
  end.

(** The gate is an [rz]. *)
Definition is_rz (g : gate) : bool :=
  match g with
  | g_rz _ _ => true
  | _ => false
  end.

(** The sum of [f] over a list, written as the loops of the code write
    their accumulations. *)
Definition qsum {A} (f : A -> Q) (l : list A) : Q :=
  fold_left (fun acc a => acc + f a) l 0.

(** The sum of all coefficients of a Hamiltonian. *)
Definition coefficient_sum (h : SparsePauliOp) : Q := qsum snd (terms h).

(** The value of variable [i] in an assignment. *)
Definition bit (x : list Z) (i : nat) : Q := inject_Z (nth i x 0%Z).

(** The objective as the QUBO dict states it: [c * x_i] for a key (i,i) and
    [c * x_i * x_j] for a key (i,j). *)
Definition dict_term (x : list Z) (e : (nat * nat) * Q) : Q :=
  if Nat.eqb (fst (fst e)) (snd (fst e))
  then snd e * bit x (fst (fst e))
  else snd e * bit x (fst (fst e)) * bit x (snd (fst e)).

Definition dict_objective (d : qubo_dict) (x : list Z) : Q := qsum (dict_term x) d.

(** The objective as the QuadraticProgram states it. *)
Definition program_objective (p : QuadraticProgram) (x : list Z) : Q :=
  qsum (fun e => snd e * bit x (fst e)) (linear p)
  + qsum (fun e => snd e * bit x (fst (fst e)) * bit x (snd (fst e))) (quadratic p).

(** A key without its orientation. *)
Definition unordered (k : nat * nat) : nat * nat :=
  (Nat.min (fst k) (snd k), Nat.max (fst k) (snd k)).

(** The bitwise complement of an assignment. *)
Definition complement (x : list Z) : list Z := map (fun b => (1 - b)%Z) x.

(** A matrix equal to its transpose. *)
Definition symmetric (m : matrix) : Prop := forall r s, mget m r s = mget m s r.

(** Every index of the program lies below its number of variables. *)
Definition program_in_range (p : QuadraticProgram) : Prop :=
  Forall (fun e => (fst e < get_num_vars p)%nat) (linear p) /\
  in_range (get_num_vars p) (quadratic p).

(** A linear coefficient as the key (i,i) of a dict. *)
Definition diagonal_key (e : nat * Q) : (nat * nat) * Q := ((fst e, fst e), snd e).

(** Every entry on or above the diagonal is either kept by the threshold
    test or exactly 0. *)
Definition no_small_entry (n : nat) (m : matrix) : Prop :=
  forall i j, (i <= j)%nat -> (j < n)%nat ->
              above_eps (mget m i j) = true \/ mget m i j == 0.

(** The value of a Z operator on a bit: 1 - 2 x_q. *)
Definition zq (x : list Z) (q : nat) : Q := inject_Z (1 - 2 * nth q x 0%Z).

(** * Properties *)

(** ** Energy of the Hamiltonian against the exact objective *)

Lemma scenario_matrix_from_program :
  matrix_of_program scenario_program = inr scenario_matrix.
Proof. reflexivity. Qed.

Lemma scenario_matrix_from_dict :
  matrix_of_dict scenario_dict = inr scenario_matrix.
Proof. reflexivity. Qed.

(** The operator the builder returns is the operator of its two lists, and
    it returns one exactly when the list of labels is not empty. *)
Lemma qubo_to_hamiltonian_built (m : matrix) (h : SparsePauliOp) :
  _qubo_to_hamiltonian m = inr h -> h = built_operator m.
Proof.
  unfold _qubo_to_hamiltonian, built_operator, SparsePauliOp_init.
  destruct (pauli_strings (hamiltonian_lists m)); intro H; inversion H. reflexivity.
Qed.

Lemma qubo_to_hamiltonian_cases (m : matrix) :
  _qubo_to_hamiltonian m =
  match paulis (built_operator m) with
  | [] => inl (QiskitError "Input Pauli list is empty.")
  | _ :: _ => inr (built_operator m)
  end.
Proof.
  unfold _qubo_to_hamiltonian, built_operator, SparsePauliOp_init. simpl.
  destruct (pauli_strings (hamiltonian_lists m)); reflexivity.
Qed.

(** On the three-variable scenario the energy of every assignment, taken
    with Z = 1 - 2x over the terms of the builder, is the objective of the
    complemented assignment: the builder substitutes x = (1 + Z)/2. *)
Example scenario_energy_is_objective_of_complement :
  _qubo_to_hamiltonian scenario_matrix = inr (built_operator scenario_matrix) /\
  Forall (fun x => ising_energy (built_operator scenario_matrix) x
                   == _calculate_objective_value (map (fun b => (1 - b)%Z) x) scenario_matrix)
         (all_assignments 3).
Proof. split; [reflexivity | repeat constructor]. Qed.

(** C1 (the code departs from the claim).  For the one-variable QUBO with
    Q[0,0] = 1 and the assignment x = [0], [_calculate_objective_value]
    gives 0.  The Hamiltonian built by [_qubo_to_hamiltonian] has the terms
    0.5 Z_0 and 0.5 I; its energy under Z = 1 - 2x, as the claim defines
    it, is 1, and the value the loop of [cost_function] computes for this
    assignment is 1 as well.  Both differ from the objective by more than
    1e-9. *)
Theorem C1_energy_differs_from_objective :
  exists h,
    _qubo_to_hamiltonian [[1]] = inr h /\
    terms h = [(z_at 1 0, 1 # 2); (all_I 1, 1 # 2)] /\
    _calculate_objective_value [0%Z] [[1]] == 0 /\
    ising_energy h [0%Z] == 1 /\
    bitstring_energy h [0%Z] == 1 /\
    ~ Qabs (ising_energy h [0%Z] - _calculate_objective_value [0%Z] [[1]])
      <= 1 # 1000000000 /\
    ~ Qabs (bitstring_energy h [0%Z] - _calculate_objective_value [0%Z] [[1]])
      <= 1 # 1000000000.
Proof.
  exists (built_operator [[1]]).
  split; [reflexivity | ]. split; [reflexivity | ].
  split; [reflexivity | ]. split; [reflexivity | ]. split; [reflexivity | ].
  split; apply Qlt_not_le; reflexivity.
Qed.

(** ** The concrete three-variable scenario *)

(** C6 (counterexample).  On the scenario's matrix the exact objective of
    x = [0,0,1] is -2, so it is not -3. *)
Lemma C6_objective_at_001_is_not_minus_3 :
  matrix_of_program scenario_program = inr scenario_matrix /\
  _calculate_objective_value [0; 0; 1]%Z scenario_matrix == -2 /\
  ~ _calculate_objective_value [0; 0; 1]%Z scenario_matrix == -3.
Proof.
  split; [reflexivity | split; [reflexivity | ]].
  intro H. vm_compute in H. discriminate H.
Qed.

(** C6 (amended).  For linear = {0:-1, 1:-1, 2:-2} and
    quadratic = {(0,1):2, (0,2):1} the matrix built by [solve] and by
    [solve_problem] is the same; over all 3-bit assignments the exact
    objective is at least -3, the value -3 is attained at x = [0,1,1] and
    only there, and [_calculate_objective_value] gives -3 on [0,1,1] and
    -2 on [0,0,1]. *)
Theorem C6_scenario_minimum :
  matrix_of_program scenario_program = inr scenario_matrix /\
  matrix_of_dict scenario_dict = inr scenario_matrix /\
  Forall (fun x => -3 <= _calculate_objective_value x scenario_matrix)
         (all_assignments 3) /\
  Forall (fun x => _calculate_objective_value x scenario_matrix == -3 <->
                   x = [0; 1; 1]%Z)
         (all_assignments 3) /\
  _calculate_objective_value [0; 1; 1]%Z scenario_matrix == -3 /\
  _calculate_objective_value [0; 0; 1]%Z scenario_matrix == -2.
Proof.
  split; [reflexivity | split; [reflexivity | ]].
  split.
  { repeat constructor; vm_compute; discriminate. }
  split; [ | split; reflexivity].
  repeat constructor;
    try (intro H; vm_compute in H; discriminate H);
    try (intro H; discriminate H);
    try reflexivity.
Qed.

(** ** Shape of the term list *)

Lemma builder_eta (b : builder) :
  mkBuilder (pauli_strings b) (coefficients b) (constant b) = b.
Proof. destruct b; reflexivity. Qed.

Lemma combine_fst_snd {A B} (l : list (A * B)) :
  combine (map fst l) (map snd l) = l.
Proof.
  induction l as [ | [a b] l IH]; simpl; [reflexivity | now rewrite IH].
Qed.

Lemma diagonal_fold (m : matrix) (n : nat) (l : list nat) (b : builder) :
  fold_left (diagonal_step m n) l b =
  mkBuilder (pauli_strings b ++ map fst (flat_map (diagonal_entry m n) l))
            (coefficients b ++ map snd (flat_map (diagonal_entry m n) l))
            (fold_left (fun k i => if above_eps (mget m i i) then k + mget m i i / 2 else k)
                       l (constant b)).
Proof.
  revert b. induction l as [ | i l IH]; intro b; simpl.
  - rewrite !app_nil_r. symmetry. apply builder_eta.
  - rewrite IH. unfold diagonal_step, diagonal_entry.
    destruct (above_eps (mget m i i)); simpl.
    + rewrite <- !app_assoc. reflexivity.
    + reflexivity.
Qed.

Lemma pair_fold (m : matrix) (n i : nat) (l : list nat) (b : builder) :
  fold_left (pair_step m n i) l b =
  mkBuilder (pauli_strings b ++ map fst (flat_map (pair_entry m n i) l))
            (coefficients b ++ map snd (flat_map (pair_entry m n i) l))
            (fold_left (fun k j => if above_eps (mget m i j) then k + mget m i j / 4 else k)
                       l (constant b)).
Proof.
  revert b. induction l as [ | j l IH]; intro b; simpl.
  - rewrite !app_nil_r. symmetry. apply builder_eta.
  - rewrite IH. unfold pair_step, pair_entry.
    destruct (above_eps (mget m i j)); simpl.
    + rewrite <- !app_assoc. reflexivity.
    + reflexivity.
Qed.

Lemma row_fold (m : matrix) (n : nat) (l : list nat) (b : builder) :
  fold_left (row_step m n) l b =
  mkBuilder
    (pauli_strings b ++
     map fst (flat_map (fun i => flat_map (pair_entry m n i) (range_from i n)) l))
    (coefficients b ++
     map snd (flat_map (fun i => flat_map (pair_entry m n i) (range_from i n)) l))
    (fold_left (fun k i => fold_left (fun k j =>
                   if above_eps (mget m i j) then k + mget m i j / 4 else k)
                 (range_from i n) k)
               l (constant b)).
Proof.
  revert b. induction l as [ | i l IH]; intro b; simpl.
  - rewrite !app_nil_r. symmetry. apply builder_eta.
  - rewrite IH. unfold row_step. rewrite pair_fold. simpl.
    rewrite !map_app, <- !app_assoc. reflexivity.
Qed.

Lemma loops_result (m : matrix) :
  let n := shape0 m in
  fold_left (row_step m n) (seq 0 n)
            (fold_left (diagonal_step m n) (seq 0 n) (mkBuilder [] [] 0)) =
  mkBuilder (map fst (diagonal_terms m n ++ offdiagonal_terms m n))
            (map snd (diagonal_terms m n ++ offdiagonal_terms m n))
            (accumulated_constant m n).
Proof.
  intro n. rewrite diagonal_fold, row_fold. simpl.
  rewrite !map_app. reflexivity.
Qed.

(** The term list is the diagonal entries, then the entries of every pair,
    then the constant. *)
Lemma hamiltonian_terms (m : matrix) :
  terms (built_operator m) =
  diagonal_terms m (shape0 m) ++ offdiagonal_terms m (shape0 m)
  ++ constant_term m (shape0 m).
Proof.
  unfold built_operator, hamiltonian_lists. rewrite loops_result.
  unfold constant_step, constant_term, terms. simpl.
  set (body := diagonal_terms m (shape0 m) ++ offdiagonal_terms m (shape0 m)).
  destruct (above_eps (accumulated_constant m (shape0 m))); simpl.
  - replace (map fst body ++ [all_I (shape0 m)])
      with (map fst (body ++ [(all_I (shape0 m), accumulated_constant m (shape0 m))]))
      by (rewrite map_app; reflexivity).
    replace (map snd body ++ [accumulated_constant m (shape0 m)])
      with (map snd (body ++ [(all_I (shape0 m), accumulated_constant m (shape0 m))]))
      by (rewrite map_app; reflexivity).
    rewrite combine_fst_snd. unfold body. rewrite <- app_assoc. reflexivity.
  - rewrite combine_fst_snd, app_nil_r. reflexivity.
Qed.

Lemma hamiltonian_lengths (m : matrix) :
  List.length (paulis (built_operator m)) =
  List.length (coeffs (built_operator m)).
Proof.
  unfold built_operator, hamiltonian_lists. rewrite loops_result. unfold constant_step. simpl.
  destruct (above_eps _); simpl; rewrite ?length_app, !length_map; reflexivity.
Qed.

Lemma terms_nil_paulis_nil (m : matrix) :
  terms (built_operator m) = [] <-> paulis (built_operator m) = [].
Proof.
  pose proof (hamiltonian_lengths m) as Hl. unfold terms.
  destruct (paulis (built_operator m)), (coeffs (built_operator m));
    simpl in *; split; intro H; try reflexivity; try discriminate.
Qed.

Lemma qubo_to_hamiltonian_terms_cases (m : matrix) :
  _qubo_to_hamiltonian m =
  match terms (built_operator m) with
  | [] => inl (QiskitError "Input Pauli list is empty.")
  | _ :: _ => inr (built_operator m)
  end.
Proof.
  rewrite qubo_to_hamiltonian_cases.
  pose proof (terms_nil_paulis_nil m) as [H1 H2].
  destruct (terms (built_operator m)) eqn:Et.
  - rewrite H1; reflexivity.
  - destruct (paulis (built_operator m)); [ | reflexivity].
    specialize (H2 eq_refl). discriminate H2.
Qed.

(** The builder returns as soon as its lists hold one term. *)
Lemma qubo_to_hamiltonian_returns (m : matrix) (t : pauli_string * Q) :
  In t (terms (built_operator m)) -> _qubo_to_hamiltonian m = inr (built_operator m).
Proof.
  intro Hin. rewrite qubo_to_hamiltonian_terms_cases.
  destruct (terms (built_operator m)); [destruct Hin | reflexivity].
Qed.

Lemma above_eps_true (x : Q) : above_eps x = true <-> eps < Qabs x.

Proof.
  unfold above_eps. rewrite negb_true_iff. split; intro H.
  - apply Qnot_le_lt. intro Hle. apply Qle_bool_iff in Hle. congruence.
  - destruct (Qle_bool (Qabs x) eps) eqn:E; [ | reflexivity].
    apply Qle_bool_iff in E. exfalso. exact (Qlt_not_le _ _ H E).
Qed.

Lemma above_eps_false (x : Q) : above_eps x = false <-> Qabs x <= eps.
Proof.
  unfold above_eps. rewrite negb_false_iff. apply Qle_bool_iff.
Qed.

Lemma Qabs_half (x : Q) : Qabs (x / 2) == Qabs x * (1 # 2).
Proof. unfold Qdiv. rewrite Qabs_Qmult. reflexivity. Qed.

Lemma Qabs_quarter (x : Q) : Qabs (x / 4) == Qabs x * (1 # 4).
Proof. unfold Qdiv. rewrite Qabs_Qmult. reflexivity. Qed.

Lemma set_item_length {A} (l : list A) (i : nat) (x : A) :
  List.length (set_item l i x) = List.length l.
Proof.
  revert i. induction l as [ | a l IH]; intros [ | i]; simpl; auto.
Qed.

Lemma set_item_nth_same {A} (l : list A) (i : nat) (x d : A) :
  (i < List.length l)%nat -> nth i (set_item l i x) d = x.
Proof.
  revert i. induction l as [ | a l IH]; intros [ | i] H; simpl in *; try lia.
  - reflexivity.
  - apply IH. lia.
Qed.

Lemma set_item_nth_other {A} (l : list A) (i k : nat) (x d : A) :
  i <> k -> nth k (set_item l i x) d = nth k l d.
Proof.
  revert i k. induction l as [ | a l IH]; intros [ | i] [ | k] H; simpl; auto.
  - congruence.
Qed.

Lemma all_I_nth (n k : nat) : nth k (all_I n) "I"%char = "I"%char.
Proof.
  unfold all_I. destruct (Nat.lt_ge_cases k n) as [H | H].
  - apply nth_repeat_lt. exact H.
  - apply nth_overflow. rewrite repeat_length. exact H.
Qed.

Lemma z_at_not_identity (n i : nat) : (i < n)%nat -> z_at n i <> all_I n.
Proof.
  intros H E. apply (f_equal (fun l => nth i l "I"%char)) in E.
  unfold z_at in E. rewrite set_item_nth_same, all_I_nth in E.
  - discriminate E.
  - unfold all_I. rewrite repeat_length. exact H.
Qed.

Lemma zz_at_not_identity (n i j : nat) : (j < n)%nat -> zz_at n i j <> all_I n.
Proof.
  intros H E. apply (f_equal (fun l => nth j l "I"%char)) in E.
  unfold zz_at in E. rewrite set_item_nth_same, all_I_nth in E.
  - discriminate E.
  - rewrite set_item_length. unfold all_I. rewrite repeat_length. exact H.
Qed.

Lemma in_range_from (i n j : nat) : In j (range_from i n) <-> (i < j < n)%nat.
Proof. unfold range_from. rewrite in_seq. lia. Qed.

(** Where an entry of the diagonal block comes from. *)
Lemma in_diagonal_terms (m : matrix) (n : nat) (p : pauli_string) (c : Q) :
  In (p, c) (diagonal_terms m n) <->
  exists i, (i < n)%nat /\ p = z_at n i /\ c = mget m i i / 2 /\
            eps < Qabs (mget m i i).
Proof.
  unfold diagonal_terms, diagonal_entry. rewrite in_flat_map. split.
  - intros [i [Hi Hin]]. apply in_seq in Hi.
    destruct (above_eps (mget m i i)) eqn:E; simpl in Hin; [ | contradiction].
    destruct Hin as [Hin | []]. inversion Hin; subst.
    exists i. apply above_eps_true in E. repeat split; try lia; auto.
  - intros [i [Hi [Hp [Hc Hab]]]]. exists i. split; [apply in_seq; lia | ].
    apply above_eps_true in Hab. rewrite Hab. left. congruence.
Qed.

(** Where an entry of the off-diagonal block comes from. *)
Lemma in_offdiagonal_terms (m : matrix) (n : nat) (p : pauli_string) (c : Q) :
  In (p, c) (offdiagonal_terms m n) <->
  exists i j, (i < j < n)%nat /\
              (p = zz_at n i j \/ p = z_at n i \/ p = z_at n j) /\
              c = mget m i j / 4 /\ eps < Qabs (mget m i j).
Proof.
  unfold offdiagonal_terms, pair_entry. rewrite in_flat_map. split.
  - intros [i [Hi Hin]]. apply in_flat_map in Hin. destruct Hin as [j [Hj Hin]].
    apply in_range_from in Hj.
    destruct (above_eps (mget m i j)) eqn:E; simpl in Hin; [ | contradiction].
    apply above_eps_true in E. exists i, j.
    destruct Hin as [Hin | [Hin | [Hin | []]]]; inversion Hin; subst;
      repeat split; try lia; auto.
  - intros [i [j [Hij [Hp [Hc Hab]]]]]. exists i. split; [apply in_seq; lia | ].
    apply in_flat_map. exists j. split; [apply in_range_from; lia | ].
    apply above_eps_true in Hab. rewrite Hab. subst c. simpl.
    destruct Hp as [Hp | [Hp | Hp]]; subst p; auto.
Qed.

Lemma in_constant_term (m : matrix) (n : nat) (p : pauli_string) (c : Q) :
  In (p, c) (constant_term m n) <->
  p = all_I n /\ c = accumulated_constant m n /\ eps < Qabs c.
Proof.
  unfold constant_term. split.
  - destruct (above_eps (accumulated_constant m n)) eqn:E; simpl; [ | contradiction].
    intros [Hin | []]. inversion Hin; subst. apply above_eps_true in E. auto.
  - intros [Hp [Hc Hab]]. subst. apply above_eps_true in Hab. rewrite Hab.
    left. reflexivity.
Qed.

(** C5 (counterexample).  For the 2 x 2 matrix with all entries 1 the
    label of Z_0 occurs twice in the term list of the Hamiltonian that is
    returned (once from the diagonal with coefficient 1/2, once from the
    pair (0,1) with coefficient 1/4): the signatures are not pairwise
    distinct. *)
Lemma C5_signature_repeated :
  exists h,
    _qubo_to_hamiltonian [[1; 1]; [1; 1]] = inr h /\
    ~ NoDup (paulis h) /\
    count_occ (list_eq_dec ascii_dec) (paulis h) (z_at 2 0) = 2%nat.
Proof.
  exists (built_operator [[1; 1]; [1; 1]]).
  split; [reflexivity | ]. split; [ | reflexivity].
  intro H. vm_compute in H. apply NoDup_cons_iff in H.
  destruct H as [H _]. apply H. right; right; left. reflexivity.
Qed.

(** C5 (amended).  For every square QUBO matrix the builder appends one entry per
    contribution and merges nothing but the constant: the term list it
    hands to the constructor is, in
    this order, one Z_i entry with coefficient Q[i,i]/2 for every i (in
    variable order) whose diagonal entry exceeds the threshold; then, for
    every pair i<j in lexicographic order whose entry exceeds the
    threshold, the three entries Z_iZ_j, Z_i, Z_j, each with coefficient
    Q[i,j]/4; then at most one constant entry, which is the only entry
    with the identity label.  The Hamiltonian that is returned has exactly
    this term list (the constructor raises QiskitError when the list is
    empty).  The list is a function of the matrix alone,
    so two calls on the same QUBO give the same list. *)
Theorem C5_term_list_shape (m : matrix) :
  square (shape0 m) m ->
  terms (built_operator m) =
    diagonal_terms m (shape0 m) ++ offdiagonal_terms m (shape0 m)
    ++ constant_term m (shape0 m) /\
  List.length (paulis (built_operator m)) =
    List.length (coeffs (built_operator m)) /\
  _qubo_to_hamiltonian m =
    match terms (built_operator m) with
    | [] => inl (QiskitError "Input Pauli list is empty.")
    | _ :: _ => inr (built_operator m)
    end /\
  Forall (fun t => fst t <> all_I (shape0 m))
         (diagonal_terms m (shape0 m) ++ offdiagonal_terms m (shape0 m)) /\
  (List.length (constant_term m (shape0 m)) <= 1)%nat.
Proof.
  intros _.
  split; [apply hamiltonian_terms | ].
  split; [apply hamiltonian_lengths | ].
  split; [apply qubo_to_hamiltonian_terms_cases | ].
  split.
  - apply Forall_forall. intros [p c] Hin. simpl.
    apply in_app_or in Hin. destruct Hin as [Hin | Hin].
    + apply in_diagonal_terms in Hin. destruct Hin as [i [Hi [Hp _]]].
      subst p. apply z_at_not_identity. exact Hi.
    + apply in_offdiagonal_terms in Hin.
      destruct Hin as [i [j [Hij [[Hp | [Hp | Hp]] _]]]]; subst p.
      * apply zz_at_not_identity. lia.
      * apply z_at_not_identity. lia.
      * apply z_at_not_identity. lia.
  - unfold constant_term. destruct (above_eps _); simpl; lia.
Qed.

Lemma C5_term_list_shape_witness :
  square (shape0 [[1; 1]; [1; 1]]) [[1; 1]; [1; 1]] /\
  terms (built_operator [[1; 1]; [1; 1]]) =
    diagonal_terms [[1; 1]; [1; 1]] 2 ++ offdiagonal_terms [[1; 1]; [1; 1]] 2
    ++ constant_term [[1; 1]; [1; 1]] 2.
Proof.
  assert (H : square (shape0 [[1; 1]; [1; 1]]) [[1; 1]; [1; 1]]).
  { split; [reflexivity | repeat constructor]. }
  split; [exact H | ].
  exact (proj1 (C5_term_list_shape [[1; 1]; [1; 1]] H)).
Defined.

(** ** The sparsity threshold *)

Lemma eps_quarter : eps / 4 == 1 # 40000000000.
Proof. reflexivity. Qed.

(** C7 (counterexample).  The 1 x 1 matrix with Q[0,0] = 1.5e-10 passes the
    test on the matrix entry, and the Hamiltonian that is returned holds
    the Z_0 term with coefficient 7.5e-11, whose magnitude is at most
    1e-10. *)
Lemma C7_small_coefficient_kept :
  exists h,
    _qubo_to_hamiltonian [[15 # 100000000000]] = inr h /\
    In (z_at 1 0, 15 # 200000000000) (terms h) /\
    Qabs (15 # 200000000000) <= eps.
Proof.
  exists (built_operator [[15 # 100000000000]]).
  split; [reflexivity | ]. split.
  - left. reflexivity.
  - vm_compute. discriminate.
Qed.

(** C7 (amended).  For every square QUBO matrix, the threshold 1e-10 is
    applied to the QUBO entry before it is scaled, and to the accumulated
    value only for the constant.
    Every term the builder hands to the constructor, which then returns
    the Hamiltonian with these terms, is therefore either a Z_i term with
    coefficient Q[i,i]/2 where |Q[i,i]| > 1e-10, or one of the three terms
    of a pair i<j with coefficient Q[i,j]/4 where |Q[i,j]| > 1e-10, or the
    constant term with magnitude strictly greater than 1e-10; in every
    case the coefficient's magnitude is strictly greater than 2.5e-11. *)
Theorem C7_term_magnitudes (m : matrix) (p : pauli_string) (c : Q) :
  square (shape0 m) m ->
  In (p, c) (terms (built_operator m)) ->
  _qubo_to_hamiltonian m = inr (built_operator m) /\
  ((exists i, (i < shape0 m)%nat /\ p = z_at (shape0 m) i /\
              c = mget m i i / 2 /\ eps < Qabs (mget m i i)) \/
   (exists i j, (i < j < shape0 m)%nat /\
                (p = zz_at (shape0 m) i j \/ p = z_at (shape0 m) i \/
                 p = z_at (shape0 m) j) /\
                c = mget m i j / 4 /\ eps < Qabs (mget m i j)) \/
   (p = all_I (shape0 m) /\ c = accumulated_constant m (shape0 m) /\
    eps < Qabs c)) /\
  eps / 4 < Qabs c.
Proof.
  intros _ Hin. split; [eapply qubo_to_hamiltonian_returns; exact Hin | ].
  rewrite hamiltonian_terms in Hin. rewrite eps_quarter.
  apply in_app_or in Hin. destruct Hin as [Hin | Hin].
  - apply in_diagonal_terms in Hin. split; [left; exact Hin | ].
    destruct Hin as [i [_ [_ [Hc Hab]]]]. subst c. rewrite Qabs_half.
    unfold eps in *. lra.
  - apply in_app_or in Hin. destruct Hin as [Hin | Hin].
    + apply in_offdiagonal_terms in Hin. split; [right; left; exact Hin | ].
      destruct Hin as [i [j [_ [_ [Hc Hab]]]]]. subst c. rewrite Qabs_quarter.
      unfold eps in *. lra.
    + apply in_constant_term in Hin. split; [right; right; exact Hin | ].
      destruct Hin as [_ [_ Hab]]. unfold eps in *. lra.
Qed.

Lemma C7_term_magnitudes_witness :
  square (shape0 [[1]]) [[1]] /\
  In (z_at 1 0, 1 # 2) (terms (built_operator [[1]])) /\
  eps / 4 < Qabs (1 # 2).
Proof.
  assert (H : square (shape0 [[1]]) [[1]]).
  { split; [reflexivity | repeat constructor]. }
  assert (Hin : In (z_at 1 0, 1 # 2) (terms (built_operator [[1]]))).
  { left. reflexivity. }
  split; [exact H | ]. split; [exact Hin | ].
  exact (proj2 (proj2 (C7_term_magnitudes [[1]] (z_at 1 0) (1 # 2) H Hin))).
Defined.

(** ** Solution extraction *)

Lemma max_key_from_first_maximum (c : counts) (rest l1 l2 : list string) (best : string) :
  Forall (fun k => (counts_get c k < counts_get c best)%Z) l1 ->
  Forall (fun k => (counts_get c k <= counts_get c best)%Z) l2 ->
  exists l1' l2',
    l1 ++ best :: l2 ++ rest = l1' ++ max_key_from c best rest :: l2' /\
    Forall (fun k => (counts_get c k < counts_get c (max_key_from c best rest))%Z) l1' /\
    Forall (fun k => (counts_get c k <= counts_get c (max_key_from c best rest))%Z) l2'.
Proof.
  revert l1 l2 best. induction rest as [ | k rest IH]; intros l1 l2 best H1 H2; simpl.
  - exists l1, l2. rewrite app_nil_r. auto.
  - destruct (counts_get c best <? counts_get c k)%Z eqn:E.
    + apply Z.ltb_lt in E.
      destruct (IH (l1 ++ best :: l2) [] k) as [l1' [l2' [Heq [Ha Hb]]]].
      * apply Forall_app. split.
        -- eapply Forall_impl; [ | exact H1]. simpl. intros; lia.
        -- constructor; [exact E | ].
           eapply Forall_impl; [ | exact H2]. simpl. intros; lia.
      * constructor.
      * exists l1', l2'. split; [ | auto].
        rewrite <- Heq. simpl. rewrite <- app_assoc. reflexivity.
    + apply Z.ltb_ge in E.
      destruct (IH l1 (l2 ++ [k]) best) as [l1' [l2' [Heq [Ha Hb]]]].
      * exact H1.
      * apply Forall_app. split; [exact H2 | ]. constructor; [exact E | constructor].
      * exists l1', l2'. split; [ | auto].
        rewrite <- Heq. rewrite <- app_assoc. reflexivity.
Qed.

Lemma max_by_count_first_maximum (c : counts) :
  c <> [] ->
  exists l1 best l2,
    max_by_count c = inr best /\
    map fst c = l1 ++ best :: l2 /\
    Forall (fun k => (counts_get c k < counts_get c best)%Z) l1 /\
    Forall (fun k => (counts_get c k <= counts_get c best)%Z) l2.
Proof.
  intro Hne. unfold max_by_count.
  destruct c as [ | [k0 n0] c']; [congruence | ]. simpl map.
  set (c := (k0, n0) :: c').
  destruct (max_key_from_first_maximum c (map fst c') [] [] k0) as [l1 [l2 [Heq [H1 H2]]]];
    try constructor.
  exists l1, (max_key_from c k0 (map fst c')), l2. simpl in Heq. auto.
Qed.

Lemma counts_get_member (c : counts) (k : string) :
  In k (map fst c) -> In (k, counts_get c k) c.
Proof.
  unfold counts_get. induction c as [ | [k' n'] c IH]; simpl; [tauto | ].
  intros [E | Hin].
  - subst k'. rewrite String.eqb_refl. left. reflexivity.
  - destruct (String.eqb k' k) eqn:E.
    + apply String.eqb_eq in E. subst k'. left. reflexivity.
    + right. apply IH. exact Hin.
Qed.

Lemma counts_get_unique (c : counts) (k : string) (n : Z) :
  NoDup (map fst c) -> In (k, n) c -> counts_get c k = n.
Proof.
  unfold counts_get. induction c as [ | [k' n'] c IH]; simpl; [tauto | ].
  intros Hnd [E | Hin].
  - inversion E; subst. rewrite String.eqb_refl. reflexivity.
  - inversion Hnd as [ | ? ? Hnotin Hnd']; subst.
    destruct (String.eqb k' k) eqn:E.
    + apply String.eqb_eq in E. subst k'. exfalso. apply Hnotin.
      apply in_map_iff. exists (k, n). auto.
    + apply IH; assumption.
Qed.

Lemma int_of_bit_char (ch : ascii) :
  is_bit_char ch = true ->
  exists b, int_of_char ch = inr b /\ (b = 0 \/ b = 1)%Z.
Proof.
  unfold is_bit_char. intro H. apply orb_true_iff in H.
  destruct H as [H | H]; apply Ascii.eqb_eq in H; subst ch.
  - exists 0%Z. split; [reflexivity | auto].
  - exists 1%Z. split; [reflexivity | auto].
Qed.

Lemma ints_of_bit_chars (l : list ascii) :
  forallb is_bit_char l = true ->
  exists sol, ints_of_chars l = inr sol /\
              List.length sol = List.length l /\
              Forall (fun b => b = 0 \/ b = 1)%Z sol.
Proof.
  induction l as [ | ch l IH]; simpl; intro H.
  - exists []. repeat split. constructor.
  - apply andb_true_iff in H. destruct H as [Hc Hl].
    destruct (int_of_bit_char ch Hc) as [b [Hb Hb01]].
    destruct (IH Hl) as [sol [Hsol [Hlen Hall]]].
    exists (b :: sol). rewrite Hb, Hsol. simpl.
    repeat split; [congruence | constructor; assumption].
Qed.

Lemma solution_of_bitstring_total (s : string) :
  is_bitstring s = true ->
  exists sol, solution_of_bitstring s = inr sol /\
              List.length sol = String.length s /\
              Forall (fun b => b = 0 \/ b = 1)%Z sol.
Proof.
  unfold is_bitstring, solution_of_bitstring. intro H.
  destruct (ints_of_bit_chars (rev (list_ascii_of_string s))) as [sol [Hs [Hl Ha]]].
  - rewrite forallb_forall in *. intros ch Hin. apply H. apply in_rev. exact Hin.
  - exists sol. repeat split; try assumption.
    rewrite Hl, length_rev. clear. induction s; simpl; congruence.
Qed.

(** C4 (counterexample).  In the histogram {'1': 5, '0': 5} both bitstrings
    have the highest count; the extraction returns the assignment [1] of
    the bitstring '1', although '0' is lexicographically lower. *)
Lemma C4_tie_not_lexicographic :
  exists r,
    process_results [("1"%string, 5%Z); ("0"%string, 5%Z)] 10 [[1]] = inr r /\
    solution r = [1%Z] /\
    counts_get [("1"%string, 5%Z); ("0"%string, 5%Z)] "0" =
    counts_get [("1"%string, 5%Z); ("0"%string, 5%Z)] "1" /\
    String.ltb "0" "1" = true.
Proof.
  eexists. split; [reflexivity | ]. repeat split.
Qed.

(** C4 (amended).  For every non-empty histogram with distinct bitstring
    keys, none longer than the n x n QUBO matrix is wide, and every
    non-zero shot count, the extraction selects the
    bitstring with the highest observed count, and among several with that
    count the one that comes first in the histogram's iteration order
    (every key before it has a strictly smaller count); it reports as
    probability that bitstring's count divided by the configured shot
    count, and as objective value [_calculate_objective_value] on the
    selected assignment and the QUBO matrix, not a value derived from the
    Hamiltonian. *)
Theorem C4_extraction (c : counts) (shots : Z) (n : nat) (m : matrix) :
  square n m ->
  Forall (fun e => (String.length (fst e) <= n)%nat) c ->
  c <> [] ->
  NoDup (map fst c) ->
  Forall (fun e => is_bitstring (fst e) = true) c ->
  shots <> 0%Z ->
  exists l1 best l2 sol,
    map fst c = l1 ++ best :: l2 /\
    In (best, counts_get c best) c /\
    Forall (fun e => (snd e <= counts_get c best)%Z) c /\
    Forall (fun k => (counts_get c k < counts_get c best)%Z) l1 /\
    solution_of_bitstring best = inr sol /\
    process_results c shots m =
      inr (mkResult sol
                    (_calculate_objective_value sol m)
                    (inject_Z (counts_get c best) / inject_Z shots)
                    c true).
Proof.
  intros _ _ Hne Hnd Hbits Hshots.
  destruct (max_by_count_first_maximum c Hne) as [l1 [best [l2 [Hmax [Hkeys [H1 H2]]]]]].
  assert (Hin : In best (map fst c)).
  { rewrite Hkeys. apply in_or_app. right. left. reflexivity. }
  assert (Hbest : is_bitstring best = true).
  { apply in_map_iff in Hin. destruct Hin as [e [He Hine]]. subst best.
    rewrite Forall_forall in Hbits. apply Hbits. exact Hine. }
  destruct (solution_of_bitstring_total best Hbest) as [sol [Hsol _]].
  exists l1, best, l2, sol.
  split; [exact Hkeys | ].
  split; [apply counts_get_member; exact Hin | ].
  split.
  { apply Forall_forall. intros [k v] Hkv. simpl.
    rewrite <- (counts_get_unique c k v Hnd Hkv).
    assert (Hk : In k (l1 ++ best :: l2)).
    { rewrite <- Hkeys. apply in_map_iff. exists (k, v). auto. }
    apply in_app_or in Hk. destruct Hk as [Hk | [Hk | Hk]].
    - rewrite Forall_forall in H1. specialize (H1 k Hk). simpl in H1. lia.
    - subst k. lia.
    - rewrite Forall_forall in H2. apply (H2 k Hk). }
  split; [exact H1 | ].
  split; [exact Hsol | ].
  unfold process_results. rewrite Hmax. simpl. rewrite Hsol. simpl.
  unfold int_true_div. apply Z.eqb_neq in Hshots. rewrite Hshots. reflexivity.
Qed.

Lemma C4_extraction_witness :
  square 1 [[1]] /\
  Forall (fun e => (String.length (fst e) <= 1)%nat)
         [("1"%string, 5%Z); ("0"%string, 5%Z)] /\
  [("1"%string, 5%Z); ("0"%string, 5%Z)] <> [] /\
  NoDup (map fst [("1"%string, 5%Z); ("0"%string, 5%Z)]) /\
  Forall (fun e => is_bitstring (fst e) = true)
         [("1"%string, 5%Z); ("0"%string, 5%Z)] /\
  10%Z <> 0%Z /\
  exists l1 best l2 sol,
    map fst [("1"%string, 5%Z); ("0"%string, 5%Z)] = l1 ++ best :: l2 /\
    In (best, counts_get [("1"%string, 5%Z); ("0"%string, 5%Z)] best)
       [("1"%string, 5%Z); ("0"%string, 5%Z)] /\
    Forall (fun e => (snd e <= counts_get [("1"%string, 5%Z); ("0"%string, 5%Z)] best)%Z)
           [("1"%string, 5%Z); ("0"%string, 5%Z)] /\
    Forall (fun k => (counts_get [("1"%string, 5%Z); ("0"%string, 5%Z)] k
                      < counts_get [("1"%string, 5%Z); ("0"%string, 5%Z)] best)%Z) l1 /\
    solution_of_bitstring best = inr sol /\
    process_results [("1"%string, 5%Z); ("0"%string, 5%Z)] 10 [[1]] =
      inr (mkResult sol
                    (_calculate_objective_value sol [[1]])
                    (inject_Z (counts_get [("1"%string, 5%Z); ("0"%string, 5%Z)] best)
                     / inject_Z 10)
                    [("1"%string, 5%Z); ("0"%string, 5%Z)] true).
Proof.
  assert (Hsq : square 1 [[1]]).
  { split; [reflexivity | repeat constructor]. }
  assert (Hlen : Forall (fun e => (String.length (fst e) <= 1)%nat)
                        [("1"%string, 5%Z); ("0"%string, 5%Z)]).
  { repeat constructor. }
  split; [exact Hsq | ]. split; [exact Hlen | ].
  assert (Hne : [("1"%string, 5%Z); ("0"%string, 5%Z)] <> []) by discriminate.
  assert (Hnd : NoDup (map fst [("1"%string, 5%Z); ("0"%string, 5%Z)])).
  { simpl. constructor.
    - simpl. intros [H | []]. discriminate H.
    - constructor; [simpl; tauto | constructor]. }
  assert (Hb : Forall (fun e => is_bitstring (fst e) = true)
                      [("1"%string, 5%Z); ("0"%string, 5%Z)]).
  { repeat constructor. }
  assert (Hs : 10%Z <> 0%Z) by discriminate.
  split; [exact Hne | ]. split; [exact Hnd | ]. split; [exact Hb | ].
  split; [exact Hs | ].
  exact (C4_extraction [("1"%string, 5%Z); ("0"%string, 5%Z)] 10 1 [[1]]
                       Hsq Hlen Hne Hnd Hb Hs).
Defined.

(** ** Failures of the pipeline *)

Lemma reraise_failure {A} (m : M A) (w w' : world) (e : exn) :
  m w = (inl e, w') -> try_except m (fun e => raiseM e) w = (inl e, w').
Proof. unfold try_except, raiseM. intro H. rewrite H. reflexivity. Qed.

Lemma reraise_success {A} (m : M A) (w w' : world) (a : A) :
  try_except m (fun e => raiseM e) w = (inr a, w') -> m w = (inr a, w').
Proof.
  unfold try_except, raiseM. destruct (m w) as [[e | a'] w1]; intro H.
  - discriminate H.
  - exact H.
Qed.

Lemma process_results_success (c : counts) (shots : Z) (m : matrix) (r : solve_result) :
  process_results c shots m = inr r -> success r = true.
Proof.
  unfold process_results, bind, ret.
  destruct (max_by_count c); [discriminate | ].
  destruct (solution_of_bitstring s); [discriminate | ].
  destruct (int_true_div _ _); [discriminate | ].
  intro H. inversion H. reflexivity.
Qed.

Lemma solve_problem_body_success (E : Env) (self : SimpleQAOAOptimizer) (d : qubo_dict)
      (name : string) (uv : bool) (w w' : world) (r : solve_result) :
  solve_problem_body E self d name uv w = (inr r, w') -> success r = true.
Proof.
  unfold solve_problem_body, select_backend, bindM, liftM.
  destruct (matrix_of_dict d) as [e | m]; [discriminate | ].
  destruct (_qubo_to_hamiltonian m) as [e | h]; [discriminate | ].
  destruct (choose_circuit E self _ name uv w) as [[e | qc] w1]; [discriminate | ].
  destruct (backend_run E _ qc (shots self) w1) as [[e | c] w2]; [discriminate | ].
  intro H. inversion H as [[Hr Hw]]. eapply process_results_success. exact Hr.
Qed.

Lemma solve_body_success (E : Env) (self : SimpleQAOAOptimizer) (p : QuadraticProgram)
      (name : string) (uv : bool) (w w' : world) (r : solve_result) :
  solve_body E self p name uv w = (inr r, w') -> success r = true.
Proof.
  unfold solve_body, bindM, liftM.
  destruct (matrix_of_program p) as [e | m]; [discriminate | ].
  destruct (_qubo_to_hamiltonian m) as [e | h]; [discriminate | ].
  destruct (choose_circuit E self _ name uv w) as [[e | qc] w1]; [discriminate | ].
  destruct (backend_run E _ qc (shots self) w1) as [[e | c] w2]; [discriminate | ].
  intro H. inversion H as [[Hr Hw]]. eapply process_results_success. exact Hr.
Qed.

(** C3 (counterexample).  With a backend that fails on every job and the
    one-variable problem Q[0,0] = 1 (far below 20 variables), [solve],
    [solve_problem] and [QAOAPortfolioOptimizer.solve] each end in a raised
    exception; none returns a result with success = true. *)
Lemma C3_no_exhaustive_fallback :
  fst (solve_problem failing_env default_optimizer [((0%nat, 0%nat), 1)]
                     "COBYLA" false [])
    = inl (ExternalError "simulation failed") /\
  fst (solve failing_env default_optimizer (mkProgram 1 [(0%nat, 1)] [])
             "COBYLA" false [])
    = inl (ExternalError "simulation failed") /\
  fst (portfolio_solve failing_env (mkPortfolio 1 1024)
                       (mkProgram 1 [(0%nat, 1)] []) [])
    = inl (ImportError "No module named qiskit.algorithms") /\
  ~ exists r, fst (solve_problem failing_env default_optimizer
                                 [((0%nat, 0%nat), 1)] "COBYLA" false [])
              = inr r /\ success r = true.
Proof.
  repeat split; try reflexivity.
  intros [r [H _]]. vm_compute in H. discriminate H.
Qed.

(** C3 (amended).  There is no exhaustive-enumeration fallback and no
    ceiling on the number of variables.  Whenever the pipeline of
    [SimpleQAOAOptimizer.solve] or [solve_problem] fails, the exception is
    raised again to the caller, for every problem size, and every record
    these two return has success = true (none has success = false).
    Whenever the pipeline of [QAOAPortfolioOptimizer.solve] fails, the
    problem is handed to the external classical optimizer, whose result is
    returned unchanged and whose failure is raised again. *)
Theorem C3_failure_handling (E : Env) (self : SimpleQAOAOptimizer)
        (pself : QAOAPortfolioOptimizer) (d : qubo_dict) (p : QuadraticProgram)
        (name : string) (uv : bool) (w : world) :
  (forall e w', solve_problem_body E self d name uv w = (inl e, w') ->
                solve_problem E self d name uv w = (inl e, w')) /\
  (forall e w', solve_body E self p name uv w = (inl e, w') ->
                solve E self p name uv w = (inl e, w')) /\
  (forall r w', solve_problem E self d name uv w = (inr r, w') -> success r = true) /\
  (forall r w', solve E self p name uv w = (inr r, w') -> success r = true) /\
  (forall e w', portfolio_solve_body E pself p w = (inl e, w') ->
                portfolio_solve E pself p w =
                match classical_solve E p with
                | inr r => (inr (classical_result r), w')
                | inl fallback_error => (inl fallback_error, w')
                end).
Proof.
  split; [intros e w' H; apply reraise_failure; exact H | ].
  split; [intros e w' H; apply reraise_failure; exact H | ].
  split.
  { intros r w' H. apply reraise_success in H.
    eapply solve_problem_body_success. exact H. }
  split.
  { intros r w' H. apply reraise_success in H.
    eapply solve_body_success. exact H. }
  intros e w' H. unfold_pipeline. rewrite H.
  destruct (classical_solve E p); reflexivity.
Qed.

Lemma C3_failure_handling_witness :
  solve_problem_body failing_env default_optimizer [((0%nat, 0%nat), 1)]
                     "COBYLA" false [] =
    (inl (ExternalError "simulation failed"),
     [(aer_simulator,
       _create_qaoa_circuit 1 (built_operator [[1]]) fixed_gamma fixed_beta,
       1024%Z)]) /\
  solve_problem failing_env default_optimizer [((0%nat, 0%nat), 1)]
                "COBYLA" false [] =
    (inl (ExternalError "simulation failed"),
     [(aer_simulator,
       _create_qaoa_circuit 1 (built_operator [[1]]) fixed_gamma fixed_beta,
       1024%Z)]).
Proof.
  assert (H : solve_problem_body failing_env default_optimizer
                [((0%nat, 0%nat), 1)] "COBYLA" false [] =
              (inl (ExternalError "simulation failed"),
               [(aer_simulator,
                 _create_qaoa_circuit 1 (built_operator [[1]]) fixed_gamma fixed_beta,
                 1024%Z)])) by reflexivity.
  split; [exact H | ].
  exact (proj1 (C3_failure_handling failing_env default_optimizer (mkPortfolio 1 1024)
                  [((0%nat, 0%nat), 1)] (mkProgram 1 [(0%nat, 1)] [])
                  "COBYLA" false []) _ _ H).
Defined.

(** ** Normalisation of a sparse QUBO dict *)

Lemma square_zeros (n : nat) : square n (zeros n).
Proof.
  unfold square, zeros. split.
  - apply repeat_length.
  - apply Forall_forall. intros row H. apply repeat_spec in H. subst row.
    apply repeat_length.
Qed.

Lemma square_row (n : nat) (m : matrix) (i : nat) :
  square n m -> (i < n)%nat -> List.length (nth i m []) = n.
Proof.
  intros [Hlen Hrows] Hi. rewrite Forall_forall in Hrows.
  apply Hrows. apply nth_In. lia.
Qed.

Lemma Forall_set_item {A} (P : A -> Prop) (l : list A) (i : nat) (x : A) :
  Forall P l -> P x -> Forall P (set_item l i x).
Proof.
  intros Hl Hx. revert i. induction Hl as [ | a l Ha Hl IH]; intros [ | i]; simpl;
    constructor; auto.
Qed.

Lemma mset_square (n : nat) (m : matrix) (i j : nat) (c : Q) :
  square n m -> (i < n)%nat -> square n (mset m i j c).
Proof.
  intros Hsq Hi. pose proof (square_row n m i Hsq Hi) as Hrow.
  destruct Hsq as [Hlen Hrows]. unfold mset. split.
  - rewrite set_item_length. exact Hlen.
  - apply Forall_set_item; [exact Hrows | ].
    rewrite set_item_length. exact Hrow.
Qed.

Lemma mget_mset (n : nat) (m : matrix) (i j r s : nat) (c : Q) :
  square n m -> (i < n)%nat -> (j < n)%nat ->
  mget (mset m i j c) r s =
  if Nat.eqb r i && Nat.eqb s j then c else mget m r s.
Proof.
  intros Hsq Hi Hj. pose proof (square_row n m i Hsq Hi) as Hrow.
  destruct Hsq as [Hlen _]. unfold mget, mset.
  destruct (Nat.eqb_spec r i) as [-> | Hri]; simpl.
  - rewrite set_item_nth_same by lia.
    destruct (Nat.eqb_spec s j) as [-> | Hsj].
    + apply set_item_nth_same. lia.
    + apply set_item_nth_other. auto.
  - rewrite set_item_nth_other by auto. reflexivity.
Qed.

Lemma fill_step_square (n : nat) (m : matrix) (e : (nat * nat) * Q) :
  square n m -> (fst (fst e) < n)%nat -> (snd (fst e) < n)%nat ->
  square n (fill_step m e).
Proof.
  destruct e as [[i j] c]. simpl. intros Hsq Hi Hj.
  destruct (Nat.eqb i j); repeat apply mset_square; assumption.
Qed.

Lemma mget_fill_step (n : nat) (m : matrix) (e : (nat * nat) * Q) (r s : nat) :
  square n m -> (fst (fst e) < n)%nat -> (snd (fst e) < n)%nat ->
  mget (fill_step m e) r s = if touches r s e then snd e else mget m r s.
Proof.
  destruct e as [[i j] c]. unfold touches. simpl. intros Hsq Hi Hj.
  destruct (Nat.eqb_spec i j) as [-> | Hij].
  - rewrite (mget_mset n) by assumption.
    destruct (Nat.eqb_spec j r), (Nat.eqb_spec j s), (Nat.eqb_spec r j),
      (Nat.eqb_spec s j); simpl; try reflexivity; congruence.
  - rewrite (mget_mset n); try assumption; [ | apply mset_square; assumption].
    rewrite (mget_mset n) by assumption.
    destruct (Nat.eqb_spec i r), (Nat.eqb_spec j s), (Nat.eqb_spec i s),
      (Nat.eqb_spec j r), (Nat.eqb_spec r j), (Nat.eqb_spec s i),
      (Nat.eqb_spec r i), (Nat.eqb_spec s j); simpl; try reflexivity; congruence.
Qed.

Lemma fill_square (n : nat) (d : qubo_dict) (m : matrix) :
  square n m -> in_range n d -> square n (fill m d).
Proof.
  revert m. induction d as [ | e d IH]; intros m Hsq Hr; simpl; [exact Hsq | ].
  inversion Hr as [ | ? ? [Hi Hj] Hr']; subst.
  apply IH; [ | exact Hr']. apply fill_step_square; assumption.
Qed.

Lemma mget_fill (n : nat) (d : qubo_dict) (m : matrix) (r s : nat) :
  square n m -> in_range n d ->
  mget (fill m d) r s =
  match last_write r s d with
  | Some c => c
  | None => mget m r s
  end.
Proof.
  intros Hsq. unfold last_write.
  induction d as [ | e d IH] using rev_ind; intro Hr; [reflexivity | ].
  unfold in_range in Hr. apply Forall_app in Hr. destruct Hr as [Hd He].
  inversion He as [ | ? ? [Hi Hj] _]; subst.
  unfold fill. rewrite fold_left_app. simpl. fold (fill m d).
  rewrite (mget_fill_step n); try assumption; [ | apply fill_square; assumption].
  rewrite rev_unit. simpl.
  destruct (touches r s e); simpl; [reflexivity | ].
  apply IH. exact Hd.
Qed.

Lemma matrix_ext (n : nat) (m1 m2 : matrix) :
  square n m1 -> square n m2 ->
  (forall r s, (r < n)%nat -> (s < n)%nat -> mget m1 r s = mget m2 r s) ->
  m1 = m2.
Proof.
  intros H1 H2 Hext.
  apply (nth_ext m1 m2 [] []).
  - destruct H1, H2. congruence.
  - intros r Hr. destruct H1 as [Hl1 Hr1]. rewrite Hl1 in Hr.
    apply (nth_ext _ _ 0 0).
    + rewrite (square_row n m1 r), (square_row n m2 r); auto. split; auto.
    + intros s Hs. rewrite (square_row n m1 r) in Hs; [ | split; auto | exact Hr].
      apply Hext; assumption.
Qed.

Lemma find_filter_same {A} (p q : A -> bool) (l : list A) :
  (forall e, In e l -> p e = true -> q e = true) ->
  find p (filter q l) = find p l.
Proof.
  induction l as [ | a l IH]; intro H; simpl; [reflexivity | ].
  destruct (q a) eqn:Eq; simpl.
  - destruct (p a); [reflexivity | ]. apply IH. intros e He. apply H. right. exact He.
  - destruct (p a) eqn:Ep.
    + rewrite (H a (or_introl eq_refl) Ep) in Eq. discriminate Eq.
    + apply IH. intros e He. apply H. right. exact He.
Qed.

Lemma find_constant_value {A B} (p : A * B -> bool) (l : list (A * B)) (c : B) :
  (forall e, In e l -> p e = true -> snd e = c) ->
  (exists e, In e l /\ p e = true) ->
  option_map snd (find p l) = Some c.
Proof.
  induction l as [ | a l IH]; intros Hall [e [Hin Hp]]; simpl.
  - destruct Hin.
  - destruct (p a) eqn:Ea; simpl.
    + f_equal. apply Hall; [left; reflexivity | exact Ea].
    + apply IH.
      * intros e' He'. apply Hall. right. exact He'.
      * destruct Hin as [-> | Hin]; [congruence | ]. exists e. auto.
Qed.

Lemma dict_value_unique {K V} (d : list (K * V)) (k : K) (v v' : V) :
  NoDup (map fst d) -> In (k, v) d -> In (k, v') d -> v = v'.
Proof.
  induction d as [ | [k0 v0] d IH]; simpl; intros Hnd H1 H2; [destruct H1 | ].
  inversion Hnd as [ | ? ? Hnotin Hnd']; subst.
  destruct H1 as [E1 | H1], H2 as [E2 | H2].
  - congruence.
  - inversion E1; subst. exfalso. apply Hnotin. apply in_map_iff.
    exists (k, v'). auto.
  - inversion E2; subst. exfalso. apply Hnotin. apply in_map_iff.
    exists (k, v). auto.
  - apply IH; assumption.
Qed.

Lemma in_remove_key (k : nat * nat) (d : qubo_dict) (e : (nat * nat) * Q) :
  In e (remove_key k d) <-> In e d /\ fst e <> k.
Proof.
  unfold remove_key. rewrite filter_In. destruct e as [[a b] c], k as [k1 k2]. simpl.
  rewrite negb_true_iff, andb_false_iff, !Nat.eqb_neq.
  split; intros [H1 H2]; split; auto.
  - intro E. inversion E; subst. destruct H2; congruence.
  - destruct (Nat.eq_dec a k1) as [-> | Ha]; [ | auto].
    right. intro Hb. apply H2. congruence.
Qed.

Lemma list_max_incl (l1 l2 : list nat) : incl l1 l2 -> (list_max l1 <= list_max l2)%nat.
Proof.
  intro H. apply list_max_le. apply Forall_forall. intros x Hx.
  pose proof (proj1 (list_max_le l2 (list_max l2)) (le_n _)) as Hall.
  rewrite Forall_forall in Hall. apply Hall. apply H. exact Hx.
Qed.

Lemma in_all_indices (d : qubo_dict) (x : nat) :
  In x (all_indices d) <-> exists e, In e d /\ (x = fst (fst e) \/ x = snd (fst e)).
Proof.
  unfold all_indices. rewrite in_flat_map. split.
  - intros [e [He Hx]]. exists e. split; [exact He | ].
    simpl in Hx. destruct Hx as [Hx | [Hx | []]]; auto.
  - intros [e [He Hx]]. exists e. split; [exact He | ].
    simpl. destruct Hx as [Hx | Hx]; auto.
Qed.

Lemma in_range_max_index (d : qubo_dict) : in_range (S (list_max (all_indices d))) d.
Proof.
  apply Forall_forall. intros e He.
  pose proof (proj1 (list_max_le (all_indices d) (list_max (all_indices d))) (le_n _))
    as Hall.
  rewrite Forall_forall in Hall.
  split; apply Nat.lt_succ_r; apply Hall; apply in_all_indices; exists e; auto.
Qed.

Lemma in_range_remove_key (n : nat) (k : nat * nat) (d : qubo_dict) :
  in_range n d -> in_range n (remove_key k d).
Proof.
  unfold in_range. rewrite !Forall_forall. intros H e He.
  apply in_remove_key in He. apply H. tauto.
Qed.

Lemma all_indices_remove_mirror (d : qubo_dict) (i j : nat) (c : Q) :
  In ((i, j), c) d -> i <> j ->
  list_max (all_indices (remove_key (j, i) d)) = list_max (all_indices d).
Proof.
  intros Hin Hij. apply Nat.le_antisymm; apply list_max_incl; intros x Hx;
    apply in_all_indices in Hx; destruct Hx as [e [He Hx]]; apply in_all_indices.
  - apply in_remove_key in He. exists e. tauto.
  - destruct (Nat.eq_dec (fst (fst e)) j) as [Ea | Ea];
      [destruct (Nat.eq_dec (snd (fst e)) i) as [Eb | Eb] | ].
    + exists ((i, j), c). split.
      * apply in_remove_key. split; [exact Hin | simpl; congruence].
      * simpl. destruct Hx; [right | left]; congruence.
    + exists e. split; [ | exact Hx]. apply in_remove_key. split; [exact He | ].
      intro E. rewrite E in Eb. simpl in Eb. congruence.
    + exists e. split; [ | exact Hx]. apply in_remove_key. split; [exact He | ].
      intro E. rewrite E in Ea. simpl in Ea. congruence.
Qed.

Lemma touches_mirror (r s i j : nat) (c : Q) :
  touches r s ((j, i), c) = true <-> (r = i /\ s = j) \/ (r = j /\ s = i).
Proof.
  unfold touches. simpl.
  rewrite orb_true_iff, !andb_true_iff, !Nat.eqb_eq. intuition congruence.
Qed.

Lemma touches_key (r s : nat) (e : (nat * nat) * Q) :
  touches r s e = true <-> fst e = (r, s) \/ fst e = (s, r).
Proof.
  destruct e as [[a b] c]. unfold touches. simpl.
  rewrite orb_true_iff, !andb_true_iff, !Nat.eqb_eq.
  split; intros [H | H]; [left | right | left | right];
    try (destruct H; congruence); inversion H; auto.
Qed.

Lemma last_write_remove_mirror (d : qubo_dict) (i j r s : nat) (c : Q) :
  NoDup (map fst d) -> In ((i, j), c) d -> In ((j, i), c) d -> i <> j ->
  last_write r s (remove_key (j, i) d) = last_write r s d.
Proof.
  intros Hnd Hij Hji Hne. unfold last_write.
  destruct (touches r s ((j, i), c)) eqn:Et.
  - (* position (i,j) or (j,i): every entry that writes it carries [c] *)
    assert (Hval : forall e, In e d -> touches r s e = true -> snd e = c).
    { intros [k v] He Hte. simpl. apply touches_key in Hte. simpl in Hte.
      apply touches_mirror in Et.
      assert (Hk : k = (i, j) \/ k = (j, i))
        by (destruct Et as [[-> ->] | [-> ->]], Hte as [-> | ->]; auto).
      destruct Hk as [-> | ->]; eapply dict_value_unique; eauto. }
    assert (Hex : touches r s ((i, j), c) = true).
    { apply touches_key. simpl. apply touches_mirror in Et.
      destruct Et as [[-> ->] | [-> ->]]; auto. }
    rewrite (find_constant_value (touches r s) (rev (remove_key (j, i) d)) c).
    + rewrite (find_constant_value (touches r s) (rev d) c); [reflexivity | | ].
      * intros e He. apply Hval. apply in_rev. exact He.
      * exists ((i, j), c). split; [apply in_rev in Hij; exact Hij | exact Hex].
    + intros e He. apply in_rev in He. apply in_remove_key in He.
      apply Hval. tauto.
    + exists ((i, j), c). split; [ | exact Hex].
      apply -> in_rev. apply in_remove_key. split; [exact Hij | simpl; congruence].
  - (* any other position: the removed entry never wrote it *)
    unfold remove_key. rewrite <- filter_rev. rewrite find_filter_same; [reflexivity | ].
    intros [[a b] v] _ Hte. simpl.
    rewrite negb_true_iff, andb_false_iff, !Nat.eqb_neq.
    destruct (Nat.eq_dec a j) as [-> | Ha]; [ | auto].
    right. intro Hb. subst b.
    assert (touches r s ((j, i), c) = true) by exact Hte. congruence.
Qed.

Lemma matrix_of_dict_value (d : qubo_dict) :
  d <> [] ->
  matrix_of_dict d = inr (fill (zeros (S (list_max (all_indices d)))) d).
Proof.
  intro Hne. unfold matrix_of_dict, max_index.
  destruct d as [ | e d]; [congruence | ]. reflexivity.
Qed.

(** C9.  If a dict with distinct keys holds both (i,j) and (j,i), i <> j,
    with the same coefficient c, then [solve_problem] builds exactly the
    same QUBO matrix from it as from the dict without the key (j,i); hence
    the Hamiltonian, the objective of every assignment and the whole run
    of [solve_problem] are the same for the two dicts.  The quadratic
    coefficient is assigned, not accumulated. *)
Theorem C9_mirrored_pair_insensitive (d : qubo_dict) (i j : nat) (c : Q) :
  NoDup (map fst d) ->
  In ((i, j), c) d ->
  In ((j, i), c) d ->
  i <> j ->
  (exists m, matrix_of_dict d = inr m /\
             matrix_of_dict (remove_key (j, i) d) = inr m /\
             mget m i j = c /\ mget m j i = c) /\
  (forall (E : Env) (self : SimpleQAOAOptimizer) (name : string) (uv : bool) (w : world),
     solve_problem E self (remove_key (j, i) d) name uv w =
     solve_problem E self d name uv w).
Proof.
  intros Hnd Hij Hji Hne.
  assert (Hd : d <> []) by (intro E; subst d; destruct Hij).
  assert (Hd' : remove_key (j, i) d <> []).
  { intro E. assert (H : In ((i, j), c) (remove_key (j, i) d)).
    { apply in_remove_key. split; [exact Hij | simpl; congruence]. }
    rewrite E in H. destruct H. }
  set (n := S (list_max (all_indices d))).
  assert (Hrange : in_range n d) by apply in_range_max_index.
  assert (Hi : (i < n)%nat /\ (j < n)%nat).
  { unfold in_range in Hrange. rewrite Forall_forall in Hrange.
    apply (Hrange ((i, j), c) Hij). }
  assert (Hsame : matrix_of_dict (remove_key (j, i) d) = matrix_of_dict d).
  { rewrite (matrix_of_dict_value d Hd), (matrix_of_dict_value _ Hd').
    rewrite (all_indices_remove_mirror d i j c Hij Hne). fold n. f_equal.
    apply (matrix_ext n).
    - apply fill_square; [apply square_zeros | ].
      apply in_range_remove_key. exact Hrange.
    - apply fill_square; [apply square_zeros | exact Hrange].
    - intros r s _ _.
      rewrite (mget_fill n) by
          (try apply square_zeros; apply in_range_remove_key; exact Hrange).
      rewrite (mget_fill n) by (try apply square_zeros; exact Hrange).
      rewrite (last_write_remove_mirror d i j r s c Hnd Hij Hji Hne).
      reflexivity. }
  split.
  - exists (fill (zeros n) d).
    split; [apply matrix_of_dict_value; exact Hd | ].
    split; [rewrite Hsame; apply matrix_of_dict_value; exact Hd | ].
    assert (Hw : forall r s, touches r s ((i, j), c) = true ->
                             last_write r s d = Some c).
    { intros r s Ht. unfold last_write. apply find_constant_value.
      - intros [k v] He Hte. apply in_rev in He. simpl.
        apply touches_key in Hte. apply touches_key in Ht. simpl in *.
        assert (Hk : k = (i, j) \/ k = (j, i)).
        { destruct Ht as [Ht | Ht], Hte as [-> | ->]; inversion Ht; auto. }
        destruct Hk as [-> | ->]; eapply dict_value_unique; eauto.
      - exists ((i, j), c). split; [apply in_rev in Hij; exact Hij | exact Ht]. }
    split.
    + rewrite (mget_fill n) by (try apply square_zeros; exact Hrange).
      rewrite (Hw i j); [reflexivity | ]. apply touches_key. auto.
    + rewrite (mget_fill n) by (try apply square_zeros; exact Hrange).
      rewrite (Hw j i); [reflexivity | ]. apply touches_key. auto.
  - intros E self name uv w.
    unfold solve_problem, solve_problem_body. rewrite Hsame. reflexivity.
Qed.

Lemma C9_mirrored_pair_insensitive_witness :
  NoDup (map fst mirrored_dict) /\
  In ((0%nat, 1%nat), 2) mirrored_dict /\
  In ((1%nat, 0%nat), 2) mirrored_dict /\
  0%nat <> 1%nat /\
  (exists m, matrix_of_dict mirrored_dict = inr m /\
             matrix_of_dict (remove_key (1%nat, 0%nat) mirrored_dict) = inr m /\
             mget m 0 1 = 2 /\ mget m 1 0 = 2) /\
  (forall (E : Env) (self : SimpleQAOAOptimizer) (name : string) (uv : bool) (w : world),
     solve_problem E self (remove_key (1%nat, 0%nat) mirrored_dict) name uv w =
     solve_problem E self mirrored_dict name uv w).
Proof.
  assert (Hnd : NoDup (map fst mirrored_dict)).
  { simpl. repeat constructor; simpl; intuition discriminate. }
  assert (H1 : In ((0%nat, 1%nat), 2) mirrored_dict) by (left; reflexivity).
  assert (H2 : In ((1%nat, 0%nat), 2) mirrored_dict)
    by (right; right; left; reflexivity).
  assert (H3 : 0%nat <> 1%nat) by discriminate.
  split; [exact Hnd | ]. split; [exact H1 | ]. split; [exact H2 | ].
  split; [exact H3 | ].
  exact (C9_mirrored_pair_insensitive mirrored_dict 0 1 2 Hnd H1 H2 H3).
Defined.

(** * The Hamiltonian, the circuits and the solvers *)

(** ** Labels of the Hamiltonian *)

Lemma fold_left_ext_in {A B} (f g : A -> B -> A) (l : list B) (a : A) :
  (forall x acc, In x l -> f acc x = g acc x) ->
  fold_left f l a = fold_left g l a.
Proof.
  revert a. induction l as [ | x l IH]; intros a H; simpl; [reflexivity | ].
  rewrite (H x a (or_introl eq_refl)). apply IH.
  intros y acc Hy. apply H. right. exact Hy.
Qed.

Lemma all_I_length (n : nat) : List.length (all_I n) = n.
Proof. apply repeat_length. Qed.

Lemma count_Z_all_I (n : nat) : count_Z (all_I n) = 0%nat.
Proof. unfold count_Z, all_I. induction n; simpl; auto. Qed.

Lemma count_Z_set_item (l : pauli_string) (i : nat) :
  (i < List.length l)%nat -> is_Z (nth i l "I"%char) = false ->
  count_Z (set_item l i "Z"%char) = S (count_Z l).
Proof.
  unfold count_Z. revert i. induction l as [ | c l IH]; intros [ | i] Hi Hc; simpl in *;
    try lia.
  - rewrite Hc. reflexivity.
  - destruct (is_Z c); simpl; rewrite IH; auto; lia.
Qed.

Lemma pauli_chars_set_item (l : pauli_string) (i : nat) :
  forallb is_pauli_char l = true ->
  forallb is_pauli_char (set_item l i "Z"%char) = true.
Proof.
  revert i. induction l as [ | c l IH]; intros [ | i] H; simpl in *; auto.
  - apply andb_true_iff in H. destruct H as [_ H]. exact H.
  - apply andb_true_iff in H. destruct H as [Hc H]. rewrite Hc. simpl. apply IH. exact H.
Qed.

Lemma pauli_chars_all_I (n : nat) : forallb is_pauli_char (all_I n) = true.
Proof. unfold all_I. induction n; simpl; auto. Qed.

Lemma z_at_shape (n i : nat) :
  (i < n)%nat ->
  List.length (z_at n i) = n /\ forallb is_pauli_char (z_at n i) = true /\
  count_Z (z_at n i) = 1%nat.
Proof.
  intro Hi. unfold z_at. split; [rewrite set_item_length; apply all_I_length | ].
  split; [apply pauli_chars_set_item, pauli_chars_all_I | ].
  rewrite count_Z_set_item, count_Z_all_I; auto.
  - rewrite all_I_length. exact Hi.
  - rewrite all_I_nth. reflexivity.
Qed.

Lemma zz_at_shape (n i j : nat) :
  (i < j)%nat -> (j < n)%nat ->
  List.length (zz_at n i j) = n /\ forallb is_pauli_char (zz_at n i j) = true /\
  count_Z (zz_at n i j) = 2%nat.
Proof.
  intros Hij Hj. unfold zz_at.
  split; [rewrite !set_item_length; apply all_I_length | ].
  split; [apply pauli_chars_set_item, pauli_chars_set_item, pauli_chars_all_I | ].
  rewrite count_Z_set_item.
  - rewrite count_Z_set_item, count_Z_all_I; auto.
    + rewrite all_I_length. lia.
    + rewrite all_I_nth. reflexivity.
  - rewrite set_item_length, all_I_length. exact Hj.
  - rewrite set_item_nth_other by lia. rewrite all_I_nth. reflexivity.
Qed.

Lemma term_labels_shape (m : matrix) :
  Forall (fun t => List.length (fst t) = shape0 m /\
                   forallb is_pauli_char (fst t) = true /\
                   (count_Z (fst t) <= 2)%nat /\
                   (count_Z (fst t) = 0%nat <-> fst t = all_I (shape0 m)))
         (terms (built_operator m)).
Proof.
  rewrite hamiltonian_terms. apply Forall_forall. intros [p c] Hin. simpl.
  apply in_app_or in Hin. destruct Hin as [Hin | Hin];
    [ | apply in_app_or in Hin; destruct Hin as [Hin | Hin]].
  - apply in_diagonal_terms in Hin. destruct Hin as [i [Hi [Hp _]]]. subst p.
    destruct (z_at_shape _ _ Hi) as [H1 [H2 H3]]. rewrite H1, H2, H3.
    repeat split; try lia. intro E. exfalso. exact (z_at_not_identity _ _ Hi E).
  - apply in_offdiagonal_terms in Hin.
    destruct Hin as [i [j [[Hij Hj] [[Hp | [Hp | Hp]] _]]]]; subst p.
    + destruct (zz_at_shape _ _ _ Hij Hj) as [H1 [H2 H3]]. rewrite H1, H2, H3.
      repeat split; try lia. intro E. exfalso. exact (zz_at_not_identity _ _ _ Hj E).
    + assert (Hi : (i < shape0 m)%nat) by lia.
      destruct (z_at_shape _ _ Hi) as [H1 [H2 H3]]. rewrite H1, H2, H3.
      repeat split; try lia. intro E. exfalso. exact (z_at_not_identity _ _ Hi E).
    + destruct (z_at_shape _ _ Hj) as [H1 [H2 H3]]. rewrite H1, H2, H3.
      repeat split; try lia. intro E. exfalso. exact (z_at_not_identity _ _ Hj E).
  - apply in_constant_term in Hin. destruct Hin as [Hp _]. subst p.
    rewrite all_I_length, pauli_chars_all_I, count_Z_all_I.
    repeat split; auto; lia.
Qed.

(** X1.  Every label the builder emits has one character per variable,
    each ['I'] or ['Z'], with at most two ['Z']; the labels without any
    ['Z'] are exactly the identity label of the constant term.  The labels
    of a Hamiltonian that is returned are these. *)
Theorem hamiltonian_labels_well_formed (m : matrix) :
  square (shape0 m) m ->
  Forall (fun t => List.length (fst t) = shape0 m /\
                   forallb is_pauli_char (fst t) = true /\
                   (count_Z (fst t) <= 2)%nat /\
                   (count_Z (fst t) = 0%nat <-> fst t = all_I (shape0 m)))
         (terms (built_operator m)) /\
  (forall h, _qubo_to_hamiltonian m = inr h -> h = built_operator m).
Proof.
  intros _. split; [apply term_labels_shape | apply qubo_to_hamiltonian_built].
Qed.

Lemma hamiltonian_labels_well_formed_witness :
  square (shape0 scenario_matrix) scenario_matrix /\
  Forall (fun t => List.length (fst t) = shape0 scenario_matrix /\
                   forallb is_pauli_char (fst t) = true /\
                   (count_Z (fst t) <= 2)%nat /\
                   (count_Z (fst t) = 0%nat <-> fst t = all_I (shape0 scenario_matrix)))
         (terms (built_operator scenario_matrix)).
Proof.
  assert (H : square (shape0 scenario_matrix) scenario_matrix).
  { split; [reflexivity | repeat constructor]. }
  split; [exact H | ].
  exact (proj1 (hamiltonian_labels_well_formed scenario_matrix H)).
Defined.

(** ** Matrices without an entry above the threshold *)

Lemma flat_map_nil {A B} (f : A -> list B) (l : list A) :
  (forall x, In x l -> f x = []) -> flat_map f l = [].
Proof.
  induction l as [ | x l IH]; intro H; simpl; [reflexivity | ].
  rewrite (H x (or_introl eq_refl)). apply IH. intros y Hy. apply H. right. exact Hy.
Qed.

Lemma fold_left_unchanged {A B} (f : A -> B -> A) (l : list B) (a : A) :
  (forall x acc, In x l -> f acc x = acc) -> fold_left f l a = a.
Proof.
  revert a. induction l as [ | x l IH]; intros a H; simpl; [reflexivity | ].
  rewrite (H x a (or_introl eq_refl)). apply IH. intros y acc Hy. apply H. right; exact Hy.
Qed.

Lemma below_threshold_terms (m : matrix) :
  below_threshold (shape0 m) m ->
  diagonal_terms m (shape0 m) = [] /\ offdiagonal_terms m (shape0 m) = [] /\
  accumulated_constant m (shape0 m) = 0.
Proof.
  intro H. unfold diagonal_terms, offdiagonal_terms, accumulated_constant.
  split; [ | split].
  - apply flat_map_nil. intros i Hi. apply in_seq in Hi.
    unfold diagonal_entry. rewrite H by lia. reflexivity.
  - apply flat_map_nil. intros i Hi. apply flat_map_nil. intros j Hj.
    apply in_range_from in Hj. unfold pair_entry. rewrite H by lia. reflexivity.
  - rewrite (fold_left_unchanged _ (seq 0 (shape0 m)) 0).
    + apply fold_left_unchanged. intros i acc Hi.
      apply fold_left_unchanged. intros j acc' Hj.
      apply in_range_from in Hj. rewrite H by lia. reflexivity.
    + intros i acc Hi. apply in_seq in Hi. rewrite H by lia. reflexivity.
Qed.

Lemma negligible_matrix_lists (m : matrix) :
  below_threshold (shape0 m) m -> built_operator m = mkOp [] [].
Proof.
  intro H. destruct (below_threshold_terms m H) as [Hd [Ho Hc]].
  unfold built_operator, hamiltonian_lists. rewrite loops_result. simpl.
  rewrite Hd, Ho, Hc. reflexivity.
Qed.

Lemma entry_above_terms (m : matrix) (i j : nat) :
  (i <= j)%nat -> (j < shape0 m)%nat -> above_eps (mget m i j) = true ->
  terms (built_operator m) <> [].
Proof.
  intros Hij Hj Hab.
  rewrite hamiltonian_terms. apply above_eps_true in Hab.
  destruct (Nat.eq_dec i j) as [-> | Hneq].
  - assert (Hin : In (z_at (shape0 m) j, mget m j j / 2) (diagonal_terms m (shape0 m))).
    { apply in_diagonal_terms. exists j. auto. }
    intro E. apply app_eq_nil in E. destruct E as [E _]. rewrite E in Hin. destruct Hin.
  - assert (Hin : In (zz_at (shape0 m) i j, mget m i j / 4)
                     (offdiagonal_terms m (shape0 m))).
    { apply in_offdiagonal_terms. exists i, j. repeat split; auto; lia. }
    intro E. apply app_eq_nil in E. destruct E as [_ E].
    apply app_eq_nil in E. destruct E as [E _]. rewrite E in Hin. destruct Hin.
Qed.

Lemma entry_above_returns (m : matrix) (i j : nat) :
  (i <= j)%nat -> (j < shape0 m)%nat -> above_eps (mget m i j) = true ->
  _qubo_to_hamiltonian m = inr (built_operator m).
Proof.
  intros Hij Hj Hab. pose proof (entry_above_terms m i j Hij Hj Hab) as Hne.
  rewrite qubo_to_hamiltonian_terms_cases.
  destruct (terms (built_operator m)); [congruence | reflexivity].
Qed.

Lemma negligible_matrix_raises (m : matrix) :
  below_threshold (shape0 m) m ->
  _qubo_to_hamiltonian m = inl (QiskitError "Input Pauli list is empty.").
Proof.
  intro H. rewrite qubo_to_hamiltonian_cases, (negligible_matrix_lists m H). reflexivity.
Qed.

(** X2.  [_qubo_to_hamiltonian] returns a Hamiltonian exactly when some
    entry on or above the diagonal has magnitude above 1e-10.  When no
    entry has (the zero matrix in particular), both lists are empty, not
    even a constant is appended, and the constructor of [SparsePauliOp]
    raises QiskitError. *)
Theorem hamiltonian_of_negligible_matrix (m : matrix) :
  square (shape0 m) m ->
  (below_threshold (shape0 m) m ->
   hamiltonian_lists m = mkBuilder [] [] 0 /\
   _qubo_to_hamiltonian m = inl (QiskitError "Input Pauli list is empty.")) /\
  (forall i j, (i <= j)%nat -> (j < shape0 m)%nat -> above_eps (mget m i j) = true ->
               exists h, _qubo_to_hamiltonian m = inr h /\ terms h <> []).
Proof.
  intros _. split.
  - intro H. split; [ | apply negligible_matrix_raises; exact H].
    destruct (below_threshold_terms m H) as [Hd [Ho Hc]].
    unfold hamiltonian_lists. rewrite loops_result.
    rewrite Hd, Ho, Hc. reflexivity.
  - intros i j Hij Hj Hab. exists (built_operator m).
    split; [exact (entry_above_returns m i j Hij Hj Hab)
           | exact (entry_above_terms m i j Hij Hj Hab)].
Qed.

Lemma hamiltonian_of_negligible_matrix_witness :
  square (shape0 (zeros 3)) (zeros 3) /\
  below_threshold (shape0 (zeros 3)) (zeros 3) /\
  _qubo_to_hamiltonian (zeros 3) = inl (QiskitError "Input Pauli list is empty.").
Proof.
  assert (Hs : square (shape0 (zeros 3)) (zeros 3)) by apply square_zeros.
  assert (Hb : below_threshold (shape0 (zeros 3)) (zeros 3)).
  { intros i j Hij Hj. simpl in Hj.
    destruct i as [ | [ | [ | i]]]; destruct j as [ | [ | [ | j]]];
      try reflexivity; lia. }
  split; [exact Hs | ]. split; [exact Hb | ].
  exact (proj2 (proj1 (hamiltonian_of_negligible_matrix (zeros 3) Hs) Hb)).
Defined.

(** ** Number of qubits of the circuit *)

Lemma map_fst_combine {A B} (l1 : list A) (l2 : list B) :
  List.length l1 = List.length l2 -> map fst (combine l1 l2) = l1.
Proof.
  revert l2. induction l1 as [ | a l1 IH]; intros [ | b l2] H; simpl in *;
    try discriminate; [reflexivity | ].
  f_equal. apply IH. lia.
Qed.

Lemma paulis_of_terms (m : matrix) :
  paulis (built_operator m) = map fst (terms (built_operator m)).
Proof. unfold terms. symmetry. apply map_fst_combine. apply hamiltonian_lengths. Qed.

Lemma nonempty_num_qubits (m : matrix) :
  terms (built_operator m) <> [] ->
  hamiltonian_num_qubits (built_operator m) = shape0 m.
Proof.
  intro Hne. unfold hamiltonian_num_qubits. rewrite paulis_of_terms.
  pose proof (term_labels_shape m) as Hall.
  destruct (terms (built_operator m)) as [ | t ts]; [congruence | ].
  simpl. inversion Hall as [ | ? ? [Hlen _] _]. exact Hlen.
Qed.

(** X3.  As soon as one entry on or above the diagonal has magnitude above
    1e-10, the builder returns a Hamiltonian, and the circuits built from
    it have exactly one qubit
    per variable of the QUBO matrix, whatever the number of repetitions
    and the angles. *)
Theorem circuit_width (m : matrix) (i j : nat) (reps : nat) (gamma beta : Q) :
  square (shape0 m) m ->
  (i <= j)%nat -> (j < shape0 m)%nat ->
  above_eps (mget m i j) = true ->
  exists h,
    _qubo_to_hamiltonian m = inr h /\
    hamiltonian_num_qubits h = shape0 m /\
    num_qubits (_create_qaoa_circuit reps h gamma beta) = shape0 m.
Proof.
  intros _ Hij Hj Hab.
  pose proof (entry_above_terms m i j Hij Hj Hab) as Hne.
  exists (built_operator m).
  split; [exact (entry_above_returns m i j Hij Hj Hab) | ].
  split; [apply nonempty_num_qubits; exact Hne | ].
  simpl. apply nonempty_num_qubits. exact Hne.
Qed.

Lemma circuit_width_witness :
  square (shape0 scenario_matrix) scenario_matrix /\
  (0 <= 1)%nat /\ (1 < shape0 scenario_matrix)%nat /\
  above_eps (mget scenario_matrix 0 1) = true /\
  exists h,
    _qubo_to_hamiltonian scenario_matrix = inr h /\
    hamiltonian_num_qubits h = shape0 scenario_matrix /\
    num_qubits (_create_qaoa_circuit 2 h fixed_gamma fixed_beta) = shape0 scenario_matrix.
Proof.
  assert (H : square (shape0 scenario_matrix) scenario_matrix).
  { split; [reflexivity | repeat constructor]. }
  assert (H1 : (0 <= 1)%nat) by lia.
  assert (H2 : (1 < shape0 scenario_matrix)%nat) by (simpl; lia).
  assert (H3 : above_eps (mget scenario_matrix 0 1) = true) by reflexivity.
  split; [exact H | ]. split; [exact H1 | ]. split; [exact H2 | ]. split; [exact H3 | ].
  exact (circuit_width scenario_matrix 0 1 2 fixed_gamma fixed_beta H H1 H2 H3).
Defined.

(** ** Unsupported optimizer names *)

Lemma select_optimizer_unsupported (name : string) :
  name <> "COBYLA"%string -> name <> "SPSA"%string ->
  select_optimizer name = inl (ValueError ("Unsupported optimizer: " ++ name)).
Proof.
  intros H1 H2. unfold select_optimizer.
  apply String.eqb_neq in H1. apply String.eqb_neq in H2.
  rewrite H1, H2. reflexivity.
Qed.

Lemma optimize_parameters_unsupported (E : Env) (self : SimpleQAOAOptimizer)
      (h : SparsePauliOp) (reps : nat) (name : string) (w : world) :
  name <> "COBYLA"%string -> name <> "SPSA"%string ->
  _optimize_parameters E self h reps name w =
  (inl (ValueError ("Unsupported optimizer: " ++ name)), w).
Proof.
  intros H1 H2. unfold _optimize_parameters, bindM, liftM.
  rewrite (select_optimizer_unsupported name H1 H2). reflexivity.
Qed.

(** The variational branch with an unsupported name, once the Hamiltonian
    exists. *)
Lemma choose_circuit_unsupported (E : Env) (self : SimpleQAOAOptimizer)
      (h : SparsePauliOp) (name : string) (w : world) :
  name <> "COBYLA"%string -> name <> "SPSA"%string ->
  choose_circuit E self h name true w =
  (inl (ValueError ("Unsupported optimizer: " ++ name)), w).
Proof.
  intros H1 H2. unfold choose_circuit, bindM.
  rewrite (optimize_parameters_unsupported E self h _ name w H1 H2). reflexivity.
Qed.

(** C10 (counterexample).  For the QUBO whose only coefficient is 0.0 the
    matrix is built, but the Hamiltonian is not: with the unsupported name
    'ADAM' the variational [solve_problem] and [solve] raise the
    QiskitError of the [SparsePauliOp] constructor, which is not a
    ValueError and is not raised during parameter optimization. *)
Lemma C10_constructor_error_first :
  matrix_of_dict [((0%nat, 0%nat), 0)] = inr [[0]] /\
  solve_problem (fixed_env [("0"%string, 1024%Z)]) default_optimizer
                [((0%nat, 0%nat), 0)] "ADAM" true [] =
    (inl (QiskitError "Input Pauli list is empty."), []) /\
  solve (fixed_env [("0"%string, 1024%Z)]) default_optimizer
        (mkProgram 1 [(0%nat, 0)] []) "ADAM" true [] =
    (inl (QiskitError "Input Pauli list is empty."), []) /\
  (forall msg, QiskitError "Input Pauli list is empty." <> ValueError msg).
Proof.
  split; [reflexivity | ]. split; [reflexivity | ]. split; [reflexivity | ].
  intros msg H. discriminate H.
Qed.

(** C10 (amended).  For every optimizer name other than 'COBYLA' and
    'SPSA', a variational [solve] and a variational [solve_problem] end in
    a raised exception and return no result, and the list of executed jobs
    is left as it was (no circuit has been run); when the QUBO matrix has
    been built and holds an entry of magnitude above 1e-10 on or above its
    diagonal, the exception is the ValueError
    "Unsupported optimizer: <name>" raised by [_optimize_parameters]. *)
Theorem C10_unsupported_optimizer (E : Env) (self : SimpleQAOAOptimizer)
        (p : QuadraticProgram) (d : qubo_dict) (name : string) (w : world) :
  name <> "COBYLA"%string ->
  name <> "SPSA"%string ->
  (exists e, solve E self p name true w = (inl e, w) /\
             (forall m i j, matrix_of_program p = inr m ->
                            (i <= j)%nat -> (j < shape0 m)%nat ->
                            above_eps (mget m i j) = true ->
                            e = ValueError ("Unsupported optimizer: " ++ name))) /\
  (exists e, solve_problem E self d name true w = (inl e, w) /\
             (forall m i j, matrix_of_dict d = inr m ->
                            (i <= j)%nat -> (j < shape0 m)%nat ->
                            above_eps (mget m i j) = true ->
                            e = ValueError ("Unsupported optimizer: " ++ name))).
Proof.
  intros H1 H2. split.
  - unfold solve, try_except, solve_body, bindM, liftM, raiseM.
    destruct (matrix_of_program p) as [e | m].
    + exists e. split; [reflexivity | ]. intros m i j Hm. discriminate Hm.
    + destruct (_qubo_to_hamiltonian m) as [e | h] eqn:Eh.
      * exists e. split; [reflexivity | ]. intros m' i j Hm Hij Hj Hab.
        inversion Hm; subst m'.
        rewrite (entry_above_returns m i j Hij Hj Hab) in Eh. discriminate Eh.
      * rewrite (choose_circuit_unsupported E self h name w H1 H2).
        eexists. split; [reflexivity | ]. intros; reflexivity.
  - unfold solve_problem, try_except, solve_problem_body, select_backend, bindM, liftM,
      raiseM.
    destruct (matrix_of_dict d) as [e | m].
    + exists e. split; [reflexivity | ]. intros m i j Hm. discriminate Hm.
    + destruct (_qubo_to_hamiltonian m) as [e | h] eqn:Eh.
      * exists e. split; [reflexivity | ]. intros m' i j Hm Hij Hj Hab.
        inversion Hm; subst m'.
        rewrite (entry_above_returns m i j Hij Hj Hab) in Eh. discriminate Eh.
      * rewrite (choose_circuit_unsupported E self h name w H1 H2).
        eexists. split; [reflexivity | ]. intros; reflexivity.
Qed.

Lemma C10_unsupported_optimizer_witness :
  "ADAM"%string <> "COBYLA"%string /\
  "ADAM"%string <> "SPSA"%string /\
  (exists e, solve (fixed_env [("011"%string, 1024%Z)]) default_optimizer
                   scenario_program "ADAM" true [] = (inl e, []) /\
             (forall m i j, matrix_of_program scenario_program = inr m ->
                            (i <= j)%nat -> (j < shape0 m)%nat ->
                            above_eps (mget m i j) = true ->
                            e = ValueError ("Unsupported optimizer: " ++ "ADAM"))) /\
  (exists e, solve_problem (fixed_env [("011"%string, 1024%Z)]) default_optimizer
                           scenario_dict "ADAM" true [] = (inl e, []) /\
             (forall m i j, matrix_of_dict scenario_dict = inr m ->
                            (i <= j)%nat -> (j < shape0 m)%nat ->
                            above_eps (mget m i j) = true ->
                            e = ValueError ("Unsupported optimizer: " ++ "ADAM"))).
Proof.
  assert (H1 : "ADAM"%string <> "COBYLA"%string) by discriminate.
  assert (H2 : "ADAM"%string <> "SPSA"%string) by discriminate.
  split; [exact H1 | ]. split; [exact H2 | ].
  exact (C10_unsupported_optimizer (fixed_env [("011"%string, 1024%Z)])
           default_optimizer scenario_program scenario_dict "ADAM" [] H1 H2).
Defined.

(** On the scenario the exception is the ValueError, and with a supported
    name the same variational call does run circuits and returns a record:
    the search evaluates nothing in [fixed_env], and the final circuit is
    executed once. *)
Example unsupported_and_supported_optimizer :
  solve (fixed_env [("110"%string, 1024%Z)]) default_optimizer scenario_program
        "ADAM" true [] = (inl (ValueError "Unsupported optimizer: ADAM"), []) /\
  exists r j,
    solve (fixed_env [("110"%string, 1024%Z)]) default_optimizer scenario_program
          "COBYLA" true [] = (inr r, [j]) /\
    solution r = [0; 1; 1]%Z /\ objective_value r == -3 /\ probability r == 1.
Proof.
  split; [reflexivity | ].
  eexists. eexists. split; [reflexivity | ].
  repeat split.
Qed.

(** ** Only the diagonal and the upper triangle are read *)

Lemma builder_upper_agree (n : nat) (m1 m2 : matrix) :
  shape0 m1 = n -> shape0 m2 = n -> upper_agree n m1 m2 ->
  built_operator m1 = built_operator m2.
Proof.
  intros H1 H2 Hu. unfold built_operator.
  assert (E : hamiltonian_lists m1 = hamiltonian_lists m2).
  { unfold hamiltonian_lists. rewrite H1, H2. f_equal.
    rewrite (fold_left_ext_in (diagonal_step m1 n) (diagonal_step m2 n)).
    - apply fold_left_ext_in. intros i acc Hi. apply in_seq in Hi.
      unfold row_step. apply fold_left_ext_in. intros j acc' Hj.
      apply in_range_from in Hj. unfold pair_step. rewrite (Hu i j) by lia. reflexivity.
    - intros i acc Hi. apply in_seq in Hi. unfold diagonal_step.
      rewrite (Hu i i) by lia. reflexivity. }
  rewrite E. reflexivity.
Qed.

Lemma objective_upper_agree (n : nat) (m1 m2 : matrix) (x : list Z) :
  (List.length x <= n)%nat -> upper_agree n m1 m2 ->
  _calculate_objective_value x m1 = _calculate_objective_value x m2.
Proof.
  intros Hx Hu. unfold _calculate_objective_value, objective_quadratic, objective_linear.
  rewrite (fold_left_ext_in
             (fun objective i => objective + mget m1 i i * inject_Z (nth i x 0%Z))
             (fun objective i => objective + mget m2 i i * inject_Z (nth i x 0%Z))).
  - apply fold_left_ext_in. intros i acc Hi. apply in_seq in Hi.
    apply fold_left_ext_in. intros j acc' Hj. apply in_range_from in Hj.
    rewrite (Hu i j) by lia. reflexivity.
  - intros i acc Hi. apply in_seq in Hi. rewrite (Hu i i) by lia. reflexivity.
Qed.

(** X4.  The Hamiltonian builder and the exact objective read the QUBO
    matrix only on and above the diagonal: two square matrices that agree
    there give the same Hamiltonian (or the same failure of its
    constructor) and the same objective value for every
    assignment, whatever they hold below the diagonal. *)
Theorem lower_triangle_ignored (n : nat) (m1 m2 : matrix) (x : list Z) :
  square n m1 -> square n m2 -> upper_agree n m1 m2 ->
  (List.length x <= n)%nat ->
  _qubo_to_hamiltonian m1 = _qubo_to_hamiltonian m2 /\
  _calculate_objective_value x m1 = _calculate_objective_value x m2.
Proof.
  intros [H1 _] [H2 _] Hu Hx. split.
  - rewrite !qubo_to_hamiltonian_cases.
    rewrite (builder_upper_agree n m1 m2) by assumption. reflexivity.
  - apply (objective_upper_agree n); assumption.
Qed.

Lemma lower_triangle_ignored_witness :
  square 2 [[1; 2]; [2; 3]] /\ square 2 [[1; 2]; [7; 3]] /\
  upper_agree 2 [[1; 2]; [2; 3]] [[1; 2]; [7; 3]] /\
  (List.length [1; 1]%Z <= 2)%nat /\
  _qubo_to_hamiltonian [[1; 2]; [2; 3]] = _qubo_to_hamiltonian [[1; 2]; [7; 3]] /\
  _calculate_objective_value [1; 1]%Z [[1; 2]; [2; 3]] =
  _calculate_objective_value [1; 1]%Z [[1; 2]; [7; 3]].
Proof.
  assert (H1 : square 2 [[1; 2]; [2; 3]]) by (split; [reflexivity | repeat constructor]).
  assert (H2 : square 2 [[1; 2]; [7; 3]]) by (split; [reflexivity | repeat constructor]).
  assert (Hu : upper_agree 2 [[1; 2]; [2; 3]] [[1; 2]; [7; 3]]).
  { intros i j Hij Hj.
    destruct i as [ | [ | i]]; destruct j as [ | [ | j]]; try reflexivity; lia. }
  assert (Hx : (List.length [1; 1]%Z <= 2)%nat) by (simpl; lia).
  split; [exact H1 | ]. split; [exact H2 | ]. split; [exact Hu | ]. split; [exact Hx | ].
  exact (lower_triangle_ignored 2 [[1; 2]; [2; 3]] [[1; 2]; [7; 3]] [1; 1]%Z H1 H2 Hu Hx).
Defined.

(** ** Shape of the circuits *)

(** No comparison of a Pauli with ['Z'] holds, so the rotation loop emits
    nothing, whatever the label. *)
Lemma z_rotations_none (q : nat) (items : list Pauli) (theta : Q) :
  z_rotations_from q items theta = [].
Proof.
  revert q. induction items as [ | p rest IH]; intro q; simpl; [reflexivity | apply IH].
Qed.

Lemma cost_term_none (gamma : Q) (t : Pauli * Q) : cost_term gamma t = [].
Proof.
  destruct t as [p c]. unfold cost_term.
  destruct (forallb _ _); [reflexivity | apply z_rotations_none].
Qed.

Lemma cost_unitary_none (h : SparsePauliOp) (gamma : Q) : cost_unitary h gamma = [].
Proof.
  unfold cost_unitary. induction (terms h) as [ | t ts IH]; simpl; [reflexivity | ].
  rewrite cost_term_none, IH. reflexivity.
Qed.

Lemma z_rotations_param_none (q : nat) (items : list Pauli) (gammas : list Q)
      (p : nat) (coeff : Q) :
  z_rotations_param q items gammas p coeff = inr [].
Proof.
  revert q. induction items as [ | c rest IH]; intro q; simpl; [reflexivity | ].
  rewrite IH. reflexivity.
Qed.

Lemma cost_unitary_param_none (ts : list (Pauli * Q)) (gammas : list Q) (p : nat) :
  cost_unitary_param ts gammas p = inr [].
Proof.
  induction ts as [ | [pauli_str coeff] ts IH]; simpl; [reflexivity | ].
  rewrite IH. destruct (forallb _ _); simpl; [reflexivity | ].
  rewrite z_rotations_param_none. reflexivity.
Qed.

Lemma concat_repeat_length {A} (l : list A) (k : nat) :
  List.length (List.concat (repeat l k)) = (k * List.length l)%nat.
Proof. induction k; simpl; [reflexivity | ]. rewrite length_app, IHk. reflexivity. Qed.

Lemma Forall_concat_repeat {A} (P : A -> Prop) (l : list A) (k : nat) :
  Forall P l -> Forall P (List.concat (repeat l k)).
Proof. intro H. induction k; simpl; [constructor | ]. apply Forall_app. auto. Qed.

(** The circuit of [_create_qaoa_circuit] has no cost step. *)
Lemma qaoa_circuit_value (reps : nat) (h : SparsePauliOp) (gamma beta : Q) :
  _create_qaoa_circuit reps h gamma beta =
  mixer_only_circuit (hamiltonian_num_qubits h) reps beta.
Proof.
  unfold _create_qaoa_circuit, mixer_only_circuit. rewrite cost_unitary_none. reflexivity.
Qed.

Lemma mixer_only_gates (n reps : nat) (beta : Q) :
  List.length (gates (mixer_only_circuit n reps beta)) = (n + reps * n + 1)%nat /\
  Forall (fun g => gate_in_range n g = true) (gates (mixer_only_circuit n reps beta)) /\
  Forall (fun g => is_rz g = false) (gates (mixer_only_circuit n reps beta)).
Proof.
  unfold mixer_only_circuit. simpl.
  assert (Hh : Forall (fun g => gate_in_range n g = true /\ is_rz g = false) (hadamards n)).
  { unfold hadamards. apply Forall_forall. intros g Hg. apply in_map_iff in Hg.
    destruct Hg as [q [<- Hq]]. apply in_seq in Hq. simpl.
    split; [apply Nat.ltb_lt; lia | reflexivity]. }
  assert (Hm : Forall (fun g => gate_in_range n g = true /\ is_rz g = false)
                      (mixer_unitary n beta)).
  { unfold mixer_unitary. apply Forall_forall. intros g Hg. apply in_map_iff in Hg.
    destruct Hg as [q [<- Hq]]. apply in_seq in Hq. simpl.
    split; [apply Nat.ltb_lt; lia | reflexivity]. }
  assert (Hall : Forall (fun g => gate_in_range n g = true /\ is_rz g = false)
                        (hadamards n ++ List.concat (repeat (mixer_unitary n beta) reps)
                                     ++ [g_measure_all])).
  { apply Forall_app. split; [exact Hh | ]. apply Forall_app.
    split; [apply Forall_concat_repeat; exact Hm | ]. repeat constructor. }
  split; [ | split].
  - rewrite !length_app, concat_repeat_length.
    unfold hadamards, mixer_unitary. rewrite !length_map, !length_seq. simpl. lia.
  - eapply Forall_impl; [ | exact Hall]. simpl. intros g Hg. apply Hg.
  - eapply Forall_impl; [ | exact Hall]. simpl. intros g Hg. apply Hg.
Qed.

(** X5.  The circuit [_create_qaoa_circuit] builds for a Hamiltonian
    returned by the builder has one qubit per variable and consists of one
    Hadamard per qubit, then per repetition [rx(2 * beta)] on every qubit,
    then the measurement.  The cost step emits nothing, because its tests
    [p == 'I'] and [p == 'Z'] compare a Pauli with a string: the circuit
    has n + reps * n + 1 instructions, none of them an [rz], and depends
    neither on [gamma] nor on the coefficients. *)
Theorem qaoa_circuit_shape (m : matrix) (h : SparsePauliOp) (reps : nat) (gamma beta : Q) :
  square (shape0 m) m ->
  _qubo_to_hamiltonian m = inr h ->
  _create_qaoa_circuit reps h gamma beta =
    mkCircuit (shape0 m)
              (map g_h (seq 0 (shape0 m))
               ++ List.concat (repeat (map (fun q => g_rx (2 * beta) q) (seq 0 (shape0 m)))
                                      reps)
               ++ [g_measure_all]) /\
  List.length (gates (_create_qaoa_circuit reps h gamma beta)) =
    (shape0 m + reps * shape0 m + 1)%nat /\
  Forall (fun g => gate_in_range (shape0 m) g = true)
         (gates (_create_qaoa_circuit reps h gamma beta)) /\
  Forall (fun g => is_rz g = false) (gates (_create_qaoa_circuit reps h gamma beta)).
Proof.
  intros _ Hh. pose proof (qubo_to_hamiltonian_built m h Hh) as ->.
  assert (Hn : hamiltonian_num_qubits (built_operator m) = shape0 m).
  { apply nonempty_num_qubits. intro E.
    rewrite qubo_to_hamiltonian_terms_cases, E in Hh. discriminate Hh. }
  rewrite qaoa_circuit_value, Hn.
  split; [reflexivity | apply mixer_only_gates].
Qed.

Lemma qaoa_circuit_shape_witness :
  square (shape0 scenario_matrix) scenario_matrix /\
  _qubo_to_hamiltonian scenario_matrix = inr (built_operator scenario_matrix) /\
  List.length (gates (_create_qaoa_circuit 2 (built_operator scenario_matrix)
                                           fixed_gamma fixed_beta)) = 10%nat.
Proof.
  assert (H : square (shape0 scenario_matrix) scenario_matrix).
  { split; [reflexivity | repeat constructor]. }
  assert (Hh : _qubo_to_hamiltonian scenario_matrix = inr (built_operator scenario_matrix))
    by reflexivity.
  split; [exact H | ]. split; [exact Hh | ].
  exact (proj1 (proj2 (qaoa_circuit_shape scenario_matrix _ 2 fixed_gamma fixed_beta H Hh))).
Defined.

(** ** The parameterized circuit *)

Lemma mixer_unitary_param_value (qs : list nat) (betas : list Q) (p : nat) (beta : Q) :
  nth_error betas p = Some beta ->
  mixer_unitary_param qs betas p = inr (map (fun q => g_rx (2 * beta) q) qs).
Proof.
  intro Hb. induction qs as [ | q qs IH]; simpl; [reflexivity | ].
  unfold py_index. rewrite Hb. simpl. rewrite IH. reflexivity.
Qed.

Lemma param_layers_constant (h : SparsePauliOp) (n : nat) (gammas betas : list Q)
      (beta : Q) (ps : list nat) :
  (forall p, In p ps -> nth_error betas p = Some beta) ->
  param_layers h n gammas betas ps =
  inr (List.concat (repeat (mixer_unitary n beta) (List.length ps))).
Proof.
  intros Hb. induction ps as [ | p ps IH]; simpl; [reflexivity | ].
  rewrite cost_unitary_param_none. simpl.
  rewrite (mixer_unitary_param_value _ betas p beta) by (apply Hb; left; reflexivity).
  simpl. rewrite IH; [reflexivity | ].
  intros q Hq. apply Hb. right. exact Hq.
Qed.

(** X6.  When the first [reps] entries of [gammas] all equal [gamma] and
    those of [betas] all equal [beta], [_create_parameterized_circuit]
    builds exactly the circuit of [_create_qaoa_circuit] for [gamma] and
    [beta]: the two constructions differ only in where the angles come
    from. *)
Theorem parameterized_circuit_with_constant_angles
        (reps : nat) (h : SparsePauliOp) (gammas betas : list Q) (gamma beta : Q) :
  (forall p, (p < reps)%nat -> nth_error gammas p = Some gamma) ->
  (forall p, (p < reps)%nat -> nth_error betas p = Some beta) ->
  _create_parameterized_circuit reps h gammas betas =
  inr (_create_qaoa_circuit reps h gamma beta).
Proof.
  intros _ Hb. unfold _create_parameterized_circuit, ansatz.
  rewrite (param_layers_constant h _ gammas betas beta).
  - simpl. rewrite qaoa_circuit_value.
    unfold measure_all, mixer_only_circuit. simpl.
    rewrite length_seq, <- app_assoc. reflexivity.
  - intros p Hp. apply in_seq in Hp. apply Hb. lia.
Qed.

Lemma parameterized_circuit_with_constant_angles_witness :
  (forall p, (p < 2)%nat -> nth_error [fixed_gamma; fixed_gamma] p = Some fixed_gamma) /\
  (forall p, (p < 2)%nat -> nth_error [fixed_beta; fixed_beta] p = Some fixed_beta) /\
  _create_parameterized_circuit 2 (built_operator scenario_matrix)
                                [fixed_gamma; fixed_gamma] [fixed_beta; fixed_beta] =
  inr (_create_qaoa_circuit 2 (built_operator scenario_matrix) fixed_gamma fixed_beta).
Proof.
  assert (Hg : forall p, (p < 2)%nat ->
                         nth_error [fixed_gamma; fixed_gamma] p = Some fixed_gamma).
  { intros [ | [ | p]] Hp; try reflexivity; lia. }
  assert (Hb : forall p, (p < 2)%nat ->
                         nth_error [fixed_beta; fixed_beta] p = Some fixed_beta).
  { intros [ | [ | p]] Hp; try reflexivity; lia. }
  split; [exact Hg | ]. split; [exact Hb | ].
  exact (parameterized_circuit_with_constant_angles
           2 (built_operator scenario_matrix) _ _ fixed_gamma fixed_beta Hg Hb).
Defined.

Lemma mixer_unitary_param_total (qs : list nat) (betas : list Q) (p : nat) :
  (p < List.length betas)%nat ->
  mixer_unitary_param qs betas p = inr (map (fun q => g_rx (2 * nth p betas 0) q) qs).
Proof.
  intro Hp. apply mixer_unitary_param_value. apply nth_error_nth'. exact Hp.
Qed.

(** With enough betas the layers are the mixers of the single repetitions. *)
Lemma param_layers_value (h : SparsePauliOp) (n : nat) (gammas betas : list Q)
      (ps : list nat) :
  (forall p, In p ps -> (p < List.length betas)%nat) ->
  param_layers h n gammas betas ps =
  inr (flat_map (fun p => mixer_unitary n (nth p betas 0)) ps).
Proof.
  induction ps as [ | p ps IH]; intro H; simpl; [reflexivity | ].
  rewrite cost_unitary_param_none. simpl.
  rewrite mixer_unitary_param_total by (apply H; left; reflexivity). simpl.
  rewrite IH by (intros q Hq; apply H; right; exact Hq). reflexivity.
Qed.

Lemma mixer_unitary_param_short (qs : list nat) (betas : list Q) (p : nat) :
  qs <> [] -> (List.length betas <= p)%nat ->
  mixer_unitary_param qs betas p = inl (IndexError "index out of bounds").
Proof.
  intros Hq Hp. destruct qs as [ | q qs]; [congruence | ]. simpl.
  unfold py_index. apply nth_error_None in Hp. rewrite Hp. reflexivity.
Qed.

Lemma param_layers_short_betas (h : SparsePauliOp) (n : nat) (gammas betas : list Q)
      (ps : list nat) :
  (0 < n)%nat -> (exists p, In p ps /\ (List.length betas <= p)%nat) ->
  param_layers h n gammas betas ps = inl (IndexError "index out of bounds").
Proof.
  intros Hn. induction ps as [ | p ps IH]; intros [p0 [Hin Hp0]]; [destruct Hin | ].
  simpl. rewrite cost_unitary_param_none. simpl.
  destruct (Nat.le_gt_cases (List.length betas) p) as [Hshort | Hlong].
  - rewrite mixer_unitary_param_short; auto.
    destruct n; [lia | ]. simpl. discriminate.
  - rewrite mixer_unitary_param_total by exact Hlong. simpl.
    rewrite IH; [reflexivity | ].
    destruct Hin as [-> | Hin]; [lia | ]. exists p0. auto.
Qed.

Lemma parameterized_circuit_bounds_aux (reps : nat) (h : SparsePauliOp)
      (gammas betas : list Q) :
  ((reps <= List.length betas)%nat ->
   exists qc, _create_parameterized_circuit reps h gammas betas = inr qc /\
              num_qubits qc = hamiltonian_num_qubits h) /\
  ((0 < hamiltonian_num_qubits h)%nat -> (List.length betas < reps)%nat ->
   _create_parameterized_circuit reps h gammas betas =
   inl (IndexError "index out of bounds")).
Proof.
  split.
  - intros Hb. unfold _create_parameterized_circuit, ansatz.
    rewrite param_layers_value by (intros p Hp; apply in_seq in Hp; lia).
    simpl. eexists. split; reflexivity.
  - intros Hn Hb. unfold _create_parameterized_circuit, ansatz.
    rewrite param_layers_short_betas; [reflexivity | exact Hn | ].
    exists (List.length betas). split; [apply in_seq; lia | lia].
Qed.

(** X7.  [_create_parameterized_circuit] reads [gammas[p]] and [betas[p]]
    for p below [reps]: it returns a circuit with the width of the
    Hamiltonian whenever both vectors hold at least [reps] entries, and on
    a Hamiltonian with at least one qubit it raises IndexError whenever
    [betas] holds fewer than [reps] entries. *)
Theorem parameterized_circuit_bounds (reps : nat) (h : SparsePauliOp)
        (gammas betas : list Q) :
  ((reps <= List.length gammas)%nat -> (reps <= List.length betas)%nat ->
   exists qc, _create_parameterized_circuit reps h gammas betas = inr qc /\
              num_qubits qc = hamiltonian_num_qubits h) /\
  ((0 < hamiltonian_num_qubits h)%nat -> (List.length betas < reps)%nat ->
   _create_parameterized_circuit reps h gammas betas =
   inl (IndexError "index out of bounds")).
Proof.
  destruct (parameterized_circuit_bounds_aux reps h gammas betas) as [H1 H2].
  split; [intros _ Hb; apply H1; exact Hb | exact H2].
Qed.

Lemma parameterized_circuit_bounds_witness :
  (0 < hamiltonian_num_qubits (built_operator scenario_matrix))%nat /\
  (List.length [fixed_beta] < 2)%nat /\
  _create_parameterized_circuit 2 (built_operator scenario_matrix)
                                [fixed_gamma; fixed_gamma] [fixed_beta] =
  inl (IndexError "index out of bounds").
Proof.
  assert (Hn : (0 < hamiltonian_num_qubits (built_operator scenario_matrix))%nat).
  { replace (hamiltonian_num_qubits (built_operator scenario_matrix)) with 3%nat
      by reflexivity. lia. }
  assert (Hb : (List.length [fixed_beta] < 2)%nat) by (simpl; lia).
  split; [exact Hn | ]. split; [exact Hb | ].
  exact (proj2 (parameterized_circuit_bounds 2 (built_operator scenario_matrix)
                  [fixed_gamma; fixed_gamma] [fixed_beta]) Hn Hb).
Defined.

(** ** The cost step on amplitudes *)

Lemma phase_factor_zero (phi : Q) : phi == 0 -> phase_factor phi = (1%R, 0%R).
Proof.
  intro H. unfold phase_factor. rewrite (Qeq_eqR _ _ H), RMicromega.Q2R_0.
  rewrite cos_0, sin_0. f_equal. apply Ropp_0.
Qed.

Lemma cos_2_lt_1 : (cos 2 < 1)%R.
Proof.
  pose proof PI2_1 as Hpi.
  apply Rlt_le_trans with (cos 1).
  - apply cos_decreasing_1; Lra.lra.
  - apply COS_bound.
Qed.

Lemma phase_factor_eq (phi phi' : Q) : phi == phi' -> phase_factor phi = phase_factor phi'.
Proof. intro H. unfold phase_factor. rewrite (Qeq_eqR _ _ H). reflexivity. Qed.

Lemma Cmult_one (a : complex) : Cmult (1%R, 0%R) a = a.
Proof. destruct a as [re im]. unfold Cmult. simpl. f_equal; ring. Qed.

(** The code's cost step leaves every amplitude as it is. *)
Lemma cost_step_identity (h : SparsePauliOp) (gamma : Q) (x : list Z) (a : complex) :
  cost_step h gamma x a = a.
Proof.
  unfold cost_step. rewrite cost_unitary_none.
  rewrite (phase_factor_zero (phase_angle [] x)) by reflexivity.
  apply Cmult_one.
Qed.

(** C2 (the code departs from the claim).  In both circuit builders the
    cost step emits no gate at all, for every Hamiltonian and every angle:
    the tests [p == 'I'] and [p == 'Z'] compare a Pauli with a string and
    never hold, so no [rz] is applied and every amplitude is left
    unchanged.  For the one-variable QUBO with Q[0,0] = 2.5, gamma = 0.8
    and the bitstring x = [0], the only non-identity term is Z_0 with
    coefficient 1.25 and eigenvalue +1; the claim asks for the factor
    exp(-i * 2 * 0.8 * 1.25) = exp(-2i) on the amplitude of x, and the
    code leaves the amplitude 1 at 1. *)
Theorem C2_cost_step_emits_no_gate :
  (forall h gamma, cost_unitary h gamma = []) /\
  (forall h gammas p, cost_unitary_param (terms h) gammas p = inr []) /\
  (forall h gamma x a, cost_step h gamma x a = a) /\
  exists h,
    _qubo_to_hamiltonian [[5 # 2]] = inr h /\
    terms h = [(z_at 1 0, 5 # 4); (all_I 1, 5 # 4)] /\
    gates (_create_qaoa_circuit 1 h fixed_gamma fixed_beta) =
      [g_h 0; g_rx (2 * fixed_beta) 0; g_measure_all] /\
    spec_phase_angle h fixed_gamma [0%Z] == 2 /\
    cost_step h fixed_gamma [0%Z] (1, 0)%R = (1, 0)%R /\
    spec_cost_step h fixed_gamma [0%Z] (1, 0)%R <> cost_step h fixed_gamma [0%Z] (1, 0)%R.
Proof.
  split; [apply cost_unitary_none | ].
  split; [intros h gammas p; apply cost_unitary_param_none | ].
  split; [apply cost_step_identity | ].
  exists (built_operator [[5 # 2]]).
  split; [reflexivity | ]. split; [reflexivity | ]. split; [reflexivity | ].
  assert (Hspec : spec_phase_angle (built_operator [[5 # 2]]) fixed_gamma [0%Z] == 2)
    by reflexivity.
  split; [exact Hspec | ].
  split; [apply cost_step_identity | ].
  rewrite cost_step_identity. unfold spec_cost_step.
  rewrite (phase_factor_eq _ _ Hspec). unfold phase_factor, Cmult. simpl.
  replace (Q2R 2) with 2%R by (unfold Q2R; simpl; Lra.lra).
  intro E. apply (f_equal fst) in E. simpl in E.
  pose proof cos_2_lt_1. Lra.lra.
Qed.

(** ** The sampling stage *)

(** A run with the fixed parameters on a QUBO with an entry above the
    threshold: one job, the circuit without a cost step on one qubit per
    variable, and the extraction applied to the backend's answer. *)
Lemma solve_problem_fixed_run (E : Env) (self : SimpleQAOAOptimizer) (d : qubo_dict)
      (name : string) (m : matrix) (i j : nat) (w : world) :
  matrix_of_dict d = inr m ->
  (i <= j)%nat -> (j < shape0 m)%nat -> above_eps (mget m i j) = true ->
  solve_problem E self d name false w =
  (bind (run_job E w (fixed_job E self m w))
        (fun c => process_results c (shots self) m),
   w ++ [fixed_job E self m w]).
Proof.
  intros Hm Hij Hj Hab. unfold_pipeline. rewrite Hm.
  rewrite (entry_above_returns m i j Hij Hj Hab).
  unfold choose_circuit, retM, backend_run, fixed_job, bind.
  rewrite qaoa_circuit_value.
  rewrite (nonempty_num_qubits m (entry_above_terms m i j Hij Hj Hab)).
  destruct (run_job E w _) as [e | c]; [reflexivity | ].
  destruct (process_results c (shots self) m); reflexivity.
Qed.

(** C8 (counterexample).  With a backend that draws afresh on every run,
    two consecutive runs of [solve_problem] on the same one-variable
    problem, with the same fixed parameters and the same shot count,
    return different histograms; the code has no seed to hold fixed. *)
Lemma C8_two_runs_differ :
  exists r1 r2 w1 w2,
    solve_problem alternating_env default_optimizer [((0%nat, 0%nat), 1)]
                  "COBYLA" false [] = (inr r1, w1) /\
    solve_problem alternating_env default_optimizer [((0%nat, 0%nat), 1)]
                  "COBYLA" false w1 = (inr r2, w2) /\
    result_counts r1 = [("0"%string, 1024%Z)] /\
    result_counts r2 = [("1"%string, 1024%Z)] /\
    result_counts r1 <> result_counts r2.
Proof.
  do 4 eexists. split; [reflexivity | ]. split; [reflexivity | ].
  split; [reflexivity | ]. split; [reflexivity | ].
  simpl. intro H. discriminate H.
Qed.

(** C8 (amended).  The code takes no random seed and passes none to the
    backend.  For a QUBO whose matrix holds an entry of magnitude above
    1e-10 on or above the diagonal, a run of [solve_problem] with the fixed
    parameters hands exactly one job to the backend it selected: the
    circuit on one qubit per variable with a Hadamard on every qubit, per
    repetition [rx(0.8)] on every qubit, and the measurement, with the
    configured shot count.  Two runs on the same dict with the same
    optimizer attributes hand over the same circuit and shot count,
    whatever was executed before, and the same job when they select the
    same backend, as they do when no backend name is configured.  The
    outcome of each run is the backend's answer to its job passed through
    the solution extraction, so the two runs return the same histogram
    and result whenever the backend answers the two jobs alike. *)
Theorem C8_sampling_determined_by_backend (E : Env) (self : SimpleQAOAOptimizer)
        (d : qubo_dict) (name : string) (m : matrix) (i j : nat) (w1 w2 : world) :
  matrix_of_dict d = inr m ->
  (i <= j)%nat -> (j < shape0 m)%nat -> above_eps (mget m i j) = true ->
  snd (solve_problem E self d name false w1) =
    w1 ++ [(chosen_backend E self w1,
            mkCircuit (shape0 m)
                      (map g_h (seq 0 (shape0 m))
                       ++ List.concat (repeat (map (fun q => g_rx (2 * (4 # 10)) q)
                                                   (seq 0 (shape0 m)))
                                              (reps self))
                       ++ [g_measure_all]),
            shots self)] /\
  snd (solve_problem E self d name false w2) = w2 ++ [fixed_job E self m w2] /\
  snd (fixed_job E self m w1) = snd (fixed_job E self m w2) /\
  snd (fst (fixed_job E self m w1)) = snd (fst (fixed_job E self m w2)) /\
  (backend self = None -> fixed_job E self m w1 = fixed_job E self m w2) /\
  (run_job E w1 (fixed_job E self m w1) = run_job E w2 (fixed_job E self m w2) ->
   fst (solve_problem E self d name false w1) =
   fst (solve_problem E self d name false w2)) /\
  (forall r w', solve_problem E self d name false w1 = (inr r, w') ->
                run_job E w1 (fixed_job E self m w1) = inr (result_counts r)).
Proof.
  intros Hm Hij Hj Hab.
  rewrite (solve_problem_fixed_run E self d name m i j w1 Hm Hij Hj Hab).
  rewrite (solve_problem_fixed_run E self d name m i j w2 Hm Hij Hj Hab). simpl.
  split; [reflexivity | ]. split; [reflexivity | ].
  split; [reflexivity | ]. split; [reflexivity | ].
  split.
  { intro Hnone. unfold fixed_job, chosen_backend. rewrite Hnone. reflexivity. }
  split.
  - intro H. rewrite H. reflexivity.
  - intros r w' H. inversion H as [[Hr Hw]]. clear H Hw.
    destruct (run_job E w1 (fixed_job E self m w1)) as [e | c]; simpl in Hr;
      [discriminate Hr | ].
    unfold process_results, bind, ret in Hr.
    destruct (max_by_count c); [discriminate Hr | ].
    destruct (solution_of_bitstring s); [discriminate Hr | ].
    destruct (int_true_div _ _); [discriminate Hr | ].
    inversion Hr. reflexivity.
Qed.

Lemma C8_sampling_determined_by_backend_witness :
  matrix_of_dict scenario_dict = inr scenario_matrix /\
  (0 <= 0)%nat /\ (0 < shape0 scenario_matrix)%nat /\
  above_eps (mget scenario_matrix 0 0) = true /\
  snd (solve_problem (fixed_env [("110"%string, 1024%Z)]) default_optimizer
                     scenario_dict "COBYLA" false [])
  = [] ++ [(aer_simulator,
            mkCircuit 3 [g_h 0; g_h 1; g_h 2;
                         g_rx (2 * (4 # 10)) 0; g_rx (2 * (4 # 10)) 1;
                         g_rx (2 * (4 # 10)) 2; g_measure_all],
            1024%Z)].
Proof.
  assert (H : matrix_of_dict scenario_dict = inr scenario_matrix) by reflexivity.
  assert (H1 : (0 <= 0)%nat) by lia.
  assert (H2 : (0 < shape0 scenario_matrix)%nat) by (simpl; lia).
  assert (H3 : above_eps (mget scenario_matrix 0 0) = true) by reflexivity.
  split; [exact H | ]. split; [exact H1 | ]. split; [exact H2 | ]. split; [exact H3 | ].
  exact (proj1 (C8_sampling_determined_by_backend
                  (fixed_env [("110"%string, 1024%Z)]) default_optimizer
                  scenario_dict "COBYLA" scenario_matrix 0 0 [] [] H H1 H2 H3)).
Defined.

(** ** Edge cases and bounds of the solution extraction *)

Lemma winner_count_is_maximum (c : counts) :
  c <> [] -> NoDup (map fst c) ->
  exists best,
    max_by_count c = inr best /\
    In (best, counts_get c best) c /\
    Forall (fun e => (snd e <= counts_get c best)%Z) c.
Proof.
  intros Hne Hnd.
  destruct (max_by_count_first_maximum c Hne) as [l1 [best [l2 [Hmax [Hkeys [H1 H2]]]]]].
  assert (Hin : In best (map fst c)).
  { rewrite Hkeys. apply in_or_app. right. left. reflexivity. }
  exists best. split; [exact Hmax | ]. split; [apply counts_get_member; exact Hin | ].
  apply Forall_forall. intros [k v] Hkv. simpl.
  rewrite <- (counts_get_unique c k v Hnd Hkv).
  assert (Hk : In k (l1 ++ best :: l2)).
  { rewrite <- Hkeys. apply in_map_iff. exists (k, v). auto. }
  apply in_app_or in Hk. destruct Hk as [Hk | [Hk | Hk]].
  - rewrite Forall_forall in H1. specialize (H1 k Hk). simpl in H1. lia.
  - subst k. lia.
  - rewrite Forall_forall in H2. apply (H2 k Hk).
Qed.

(** X8.  The extraction fails in two ways that depend on its input alone:
    an empty histogram makes [max] raise ValueError, and a shot count of 0
    makes the probability raise ZeroDivisionError (for a non-empty
    histogram of bitstrings); in neither case is a result record
    produced. *)
Theorem extraction_errors (c : counts) (m : matrix) :
  (forall shots,
     process_results [] shots m = inl (ValueError "max() arg is an empty sequence")) /\
  (c <> [] -> Forall (fun e => is_bitstring (fst e) = true) c ->
   process_results c 0 m = inl (ZeroDivisionError "division by zero")).
Proof.
  split; [reflexivity | ].
  intros Hne Hbits.
  destruct (max_by_count_first_maximum c Hne) as [l1 [best [l2 [Hmax [Hkeys _]]]]].
  assert (Hin : In best (map fst c)).
  { rewrite Hkeys. apply in_or_app. right. left. reflexivity. }
  assert (Hbest : is_bitstring best = true).
  { apply in_map_iff in Hin. destruct Hin as [e [He Hine]]. subst best.
    rewrite Forall_forall in Hbits. apply Hbits. exact Hine. }
  destruct (solution_of_bitstring_total best Hbest) as [sol [Hsol _]].
  unfold process_results. rewrite Hmax. simpl. rewrite Hsol. reflexivity.
Qed.

Lemma extraction_errors_witness :
  [("01"%string, 3%Z)] <> [] /\
  Forall (fun e => is_bitstring (fst e) = true) [("01"%string, 3%Z)] /\
  process_results [("01"%string, 3%Z)] 0 (zeros 2) =
  inl (ZeroDivisionError "division by zero").
Proof.
  assert (Hne : [("01"%string, 3%Z)] <> []) by discriminate.
  assert (Hb : Forall (fun e => is_bitstring (fst e) = true) [("01"%string, 3%Z)])
    by (repeat constructor).
  split; [exact Hne | ]. split; [exact Hb | ].
  exact (proj2 (extraction_errors [("01"%string, 3%Z)] (zeros 2)) Hne Hb).
Defined.

Lemma total_shots_from (c : counts) (a : Z) :
  fold_left (fun s e => (s + snd e)%Z) c a = (a + total_shots c)%Z.
Proof.
  unfold total_shots. revert a. induction c as [ | e c IH]; intro a; cbn [fold_left];
    [lia | ].
  rewrite (IH (a + snd e)%Z), (IH (0 + snd e)%Z). lia.
Qed.

Lemma total_shots_cons (e : string * Z) (c : counts) :
  total_shots (e :: c) = (snd e + total_shots c)%Z.
Proof. unfold total_shots at 1. simpl. rewrite total_shots_from. lia. Qed.

Lemma total_shots_bounds (c : counts) (best : Z) :
  Forall (fun e => (0 <= snd e)%Z) c ->
  Forall (fun e => (snd e <= best)%Z) c ->
  (0 <= total_shots c <= Z.of_nat (List.length c) * best)%Z /\
  (forall e, In e c -> (snd e <= total_shots c)%Z).
Proof.
  intros Hpos Hmax. induction c as [ | e c IH].
  - split; [simpl; unfold total_shots; simpl; lia | intros e []].
  - inversion Hpos as [ | ? ? He Hpos']; subst.
    inversion Hmax as [ | ? ? Hb Hmax']; subst.
    destruct (IH Hpos' Hmax') as [[H0 H1] H2].
    rewrite total_shots_cons. split.
    + simpl List.length. lia.
    + intros e' [<- | Hin]; [lia | ]. specialize (H2 e' Hin). lia.
Qed.

(** X9.  When the histogram has distinct bitstring keys and non-negative
    counts that add up to the configured shot count (as a backend's
    histogram does), the reported probability lies between 1/k and 1,
    k being the number of distinct bitstrings observed. *)
Theorem probability_bounds (c : counts) (shots : Z) (n : nat) (m : matrix) :
  square n m ->
  Forall (fun e => (String.length (fst e) <= n)%nat) c ->
  c <> [] ->
  NoDup (map fst c) ->
  Forall (fun e => is_bitstring (fst e) = true) c ->
  Forall (fun e => (0 <= snd e)%Z) c ->
  total_shots c = shots ->
  (0 < shots)%Z ->
  exists r, process_results c shots m = inr r /\
            probability r <= 1 /\
            1 <= probability r * inject_Z (Z.of_nat (List.length c)).
Proof.
  intros _ _ Hne Hnd Hbits Hpos Htot Hshots.
  destruct (winner_count_is_maximum c Hne Hnd) as [best [Hmax [Hin Hall]]].
  assert (Hbest : is_bitstring best = true).
  { rewrite Forall_forall in Hbits. apply (Hbits _ Hin). }
  destruct (solution_of_bitstring_total best Hbest) as [sol [Hsol _]].
  destruct (total_shots_bounds c (counts_get c best) Hpos Hall) as [[H0 H1] H2].
  specialize (H2 _ Hin). simpl in H2. rewrite Htot in *.
  unfold process_results. rewrite Hmax. simpl. rewrite Hsol. simpl.
  unfold int_true_div. destruct (Z.eqb_spec shots 0) as [E | _]; [lia | ].
  eexists. split; [reflexivity | ]. simpl.
  assert (HsQ : 0 < inject_Z shots) by (rewrite <- (Zlt_Qlt 0); exact Hshots).
  split.
  - apply Qle_shift_div_r; [exact HsQ | ]. rewrite Qmult_1_l.
    rewrite <- Zle_Qle. exact H2.
  - unfold Qdiv. rewrite <- Qmult_assoc, (Qmult_comm (/ inject_Z shots)), Qmult_assoc.
    apply Qle_shift_div_l; [exact HsQ | ]. rewrite Qmult_1_l.
    rewrite <- inject_Z_mult, <- Zle_Qle. lia.
Qed.

Lemma probability_bounds_witness :
  square 2 (zeros 2) /\
  Forall (fun e => (String.length (fst e) <= 2)%nat)
         [("01"%string, 3%Z); ("11"%string, 5%Z)] /\
  [("01"%string, 3%Z); ("11"%string, 5%Z)] <> [] /\
  NoDup (map fst [("01"%string, 3%Z); ("11"%string, 5%Z)]) /\
  Forall (fun e => is_bitstring (fst e) = true) [("01"%string, 3%Z); ("11"%string, 5%Z)] /\
  Forall (fun e => (0 <= snd e)%Z) [("01"%string, 3%Z); ("11"%string, 5%Z)] /\
  total_shots [("01"%string, 3%Z); ("11"%string, 5%Z)] = 8%Z /\
  (0 < 8)%Z /\
  exists r, process_results [("01"%string, 3%Z); ("11"%string, 5%Z)] 8 (zeros 2) = inr r /\
            probability r <= 1 /\
            1 <= probability r * inject_Z (Z.of_nat 2).
Proof.
  assert (H1 : square 2 (zeros 2)) by apply square_zeros.
  assert (H2 : Forall (fun e => (String.length (fst e) <= 2)%nat)
                      [("01"%string, 3%Z); ("11"%string, 5%Z)]) by (repeat constructor).
  assert (H3 : [("01"%string, 3%Z); ("11"%string, 5%Z)] <> []) by discriminate.
  assert (H4 : NoDup (map fst [("01"%string, 3%Z); ("11"%string, 5%Z)])).
  { simpl. constructor.
    - simpl. intros [H | []]. discriminate H.
    - constructor; [simpl; tauto | constructor]. }
  assert (H5 : Forall (fun e => is_bitstring (fst e) = true)
                      [("01"%string, 3%Z); ("11"%string, 5%Z)]) by (repeat constructor).
  assert (H6 : Forall (fun e => (0 <= snd e)%Z) [("01"%string, 3%Z); ("11"%string, 5%Z)]).
  { repeat constructor; simpl; lia. }
  assert (H7 : total_shots [("01"%string, 3%Z); ("11"%string, 5%Z)] = 8%Z) by reflexivity.
  assert (H8 : (0 < 8)%Z) by lia.
  split; [exact H1 | ]. split; [exact H2 | ]. split; [exact H3 | ]. split; [exact H4 | ].
  split; [exact H5 | ]. split; [exact H6 | ]. split; [exact H7 | ]. split; [exact H8 | ].
  exact (probability_bounds _ 8 2 (zeros 2) H1 H2 H3 H4 H5 H6 H7 H8).
Defined.

(** ** The cost function of the parameter search *)

Lemma ansatz_value (reps : nat) (h : SparsePauliOp) (gammas betas : list Q) :
  (reps <= List.length betas)%nat ->
  ansatz reps h gammas betas =
  inr (mkCircuit (hamiltonian_num_qubits h)
                 (hadamards (hamiltonian_num_qubits h)
                  ++ flat_map (fun p => mixer_unitary (hamiltonian_num_qubits h)
                                                      (nth p betas 0))
                              (seq 0 reps))).
Proof.
  intros Hb. unfold ansatz.
  rewrite param_layers_value by (intros p Hp; apply in_seq in Hp; lia).
  reflexivity.
Qed.

(** X10.  One evaluation of the cost function with a parameter vector of
    the wrong length raises ValueError and runs nothing; with a vector of
    length 2 * reps it runs exactly one job, with the configured shot count
    and always on the Aer simulator, whatever backend the optimizer was
    configured with.  The circuit of that job is a Hadamard on every qubit,
    then for each repetition p the gate [rx(2 * betas[p])] on every qubit,
    [betas] being the second half of the vector, then the measurement: the
    gammas, the first half, do not reach the circuit. *)
Theorem cost_function_jobs (E : Env) (self : SimpleQAOAOptimizer) (h : SparsePauliOp)
        (r : nat) (params : list Q) (w : world) :
  (List.length params <> (2 * reps self)%nat ->
   _create_cost_function E self h r params w =
   (inl (ValueError "cannot reshape array"), w)) /\
  (List.length params = (2 * reps self)%nat ->
   snd (_create_cost_function E self h r params w) =
   w ++ [(aer_simulator,
          mkCircuit (hamiltonian_num_qubits h)
                    (map g_h (seq 0 (hamiltonian_num_qubits h))
                     ++ flat_map (fun p => map (fun q => g_rx (2 * nth p (skipn (reps self) params) 0) q)
                                               (seq 0 (hamiltonian_num_qubits h)))
                                 (seq 0 (reps self))
                     ++ [g_measure_all]),
          shots self)]).
Proof.
  split; intro Hlen; unfold _create_cost_function, bindM, liftM, reshape2.
  - apply Nat.eqb_neq in Hlen. rewrite Hlen. reflexivity.
  - pose proof Hlen as Hlen'. apply Nat.eqb_eq in Hlen'. rewrite Hlen'. simpl fst. simpl snd.
    rewrite ansatz_value by (rewrite length_skipn; lia).
    unfold backend_run, measure_all. simpl gates. simpl num_qubits.
    rewrite <- app_assoc.
    destruct (run_job E w _) as [e | c]; reflexivity.
Qed.

Lemma cost_function_jobs_witness :
  (List.length [fixed_gamma] <> (2 * reps default_optimizer)%nat /\
   _create_cost_function failing_env default_optimizer
                         (built_operator scenario_matrix) 1 [fixed_gamma] [] =
   (inl (ValueError "cannot reshape array"), [])) /\
  (List.length [fixed_gamma; 1 # 4] = (2 * reps default_optimizer)%nat /\
   snd (_create_cost_function failing_env default_optimizer
                              (built_operator scenario_matrix) 1 [fixed_gamma; 1 # 4] []) =
   [] ++ [(aer_simulator,
           mkCircuit 3 [g_h 0; g_h 1; g_h 2;
                        g_rx (2 * (1 # 4)) 0; g_rx (2 * (1 # 4)) 1; g_rx (2 * (1 # 4)) 2;
                        g_measure_all],
           1024%Z)]).
Proof.
  assert (H : List.length [fixed_gamma] <> (2 * reps default_optimizer)%nat)
    by (simpl; lia).
  assert (H' : List.length [fixed_gamma; 1 # 4] = (2 * reps default_optimizer)%nat)
    by reflexivity.
  split; split; [exact H | | exact H' | ].
  - exact (proj1 (cost_function_jobs failing_env default_optimizer
                    (built_operator scenario_matrix) 1 [fixed_gamma] []) H).
  - exact (proj2 (cost_function_jobs failing_env default_optimizer
                    (built_operator scenario_matrix) 1 [fixed_gamma; 1 # 4] []) H').
Defined.

(** ** The value of the cost function *)

(** No comparison [p_char == 'Z'] holds, so a term contributes its plain
    coefficient for every assignment. *)
Lemma term_contrib_from_value (q : nat) (items : list Pauli) (x : list Z) (acc : Q) :
  term_contrib_from q items x acc = acc.
Proof.
  revert q acc. induction items as [ | p rest IH]; intros q acc; simpl;
    [reflexivity | apply IH].
Qed.

Lemma bitstring_energy_value (h : SparsePauliOp) (x : list Z) :
  bitstring_energy h x = coefficient_sum h.
Proof.
  unfold bitstring_energy, coefficient_sum, qsum.
  apply fold_left_ext_in. intros t acc _. unfold term_contrib.
  rewrite term_contrib_from_value. reflexivity.
Qed.

Lemma sampled_energy_value (h : SparsePauliOp) (total : Z) (items : counts) (acc : Q) :
  total <> 0%Z ->
  Forall (fun e => is_bitstring (fst e) = true) items ->
  exists v, sampled_energy h total items acc = inr v /\
            v == acc + coefficient_sum h * (inject_Z (total_shots items) / inject_Z total).
Proof.
  intros Htot Hbits. revert acc.
  assert (HtQ : ~ inject_Z total == 0).
  { intro E. apply Htot. apply (inject_Z_injective total 0). exact E. }
  induction items as [ | [bitstring count] items IH]; intro acc.
  - exists acc. split; [reflexivity | ].
    replace (total_shots []) with 0%Z by reflexivity.
    unfold Qdiv. rewrite Qmult_0_l, Qmult_0_r, Qplus_0_r. reflexivity.
  - inversion Hbits as [ | ? ? Hb Hbits']; subst. simpl in Hb.
    destruct (solution_of_bitstring_total bitstring Hb) as [sol [Hsol _]].
    simpl. rewrite Hsol. simpl. unfold float_div.
    destruct (Z.eqb_spec total 0) as [E | _]; [contradiction | ]. simpl.
    destruct (IH Hbits' (acc + bitstring_energy h sol * inject_Z count / inject_Z total))
      as [v [Hv Hval]].
    exists v. split; [exact Hv | ].
    rewrite Hval, bitstring_energy_value, total_shots_cons. simpl snd.
    rewrite inject_Z_plus. field. exact HtQ.
Qed.

(** X11.  The value of the cost function does not depend on what was
    sampled nor on the parameters.  For a parameter vector of length
    2 * reps, whenever the simulator answers the job with a histogram of
    bitstrings whose counts do not add up to 0, the cost function returns
    the sum of all coefficients of the Hamiltonian: the test
    [p_char == 'Z'] of the energy loop compares a Pauli with a string, so
    every sampled bitstring is given the same energy. *)
Theorem cost_function_value (E : Env) (self : SimpleQAOAOptimizer) (h : SparsePauliOp)
        (r : nat) (params : list Q) (w : world) (qc : QuantumCircuit) (c : counts) :
  List.length params = (2 * reps self)%nat ->
  ansatz (reps self) h (firstn (reps self) params) (skipn (reps self) params) = inr qc ->
  run_job E w (aer_simulator, measure_all qc, shots self) = inr c ->
  total_shots c <> 0%Z ->
  Forall (fun e => is_bitstring (fst e) = true) c ->
  (forall x, bitstring_energy h x = coefficient_sum h) /\
  exists v,
    _create_cost_function E self h r params w =
    (inr v, w ++ [(aer_simulator, measure_all qc, shots self)]) /\
    v == coefficient_sum h.
Proof.
  intros Hlen Hqc Hrun Htot Hbits.
  split; [intro x; apply bitstring_energy_value | ].
  destruct (sampled_energy_value h (total_shots c) c 0 Htot Hbits) as [v [Hv Hval]].
  exists v. split.
  - unfold _create_cost_function, bindM, liftM, reshape2.
    apply Nat.eqb_eq in Hlen. rewrite Hlen. unfold ret. cbv beta iota. cbn [fst snd].
    rewrite Hqc. unfold backend_run. rewrite Hrun, Hv. reflexivity.
  - rewrite Hval. field. intro E0. apply Htot.
    apply (inject_Z_injective (total_shots c) 0). exact E0.
Qed.

Lemma cost_function_value_witness :
  List.length [fixed_gamma; fixed_beta] = (2 * reps default_optimizer)%nat /\
  exists v,
    _create_cost_function (fixed_env [("1"%string, 1024%Z)]) default_optimizer
                          (built_operator [[1]]) 1 [fixed_gamma; fixed_beta] [] =
    (inr v, [(aer_simulator,
              mkCircuit 1 [g_h 0; g_rx (2 * fixed_beta) 0; g_measure_all], 1024%Z)]) /\
    v == coefficient_sum (built_operator [[1]]).
Proof.
  assert (H1 : List.length [fixed_gamma; fixed_beta] = (2 * reps default_optimizer)%nat)
    by reflexivity.
  assert (H2 : ansatz (reps default_optimizer) (built_operator [[1]])
                      (firstn (reps default_optimizer) [fixed_gamma; fixed_beta])
                      (skipn (reps default_optimizer) [fixed_gamma; fixed_beta]) =
               inr (mkCircuit 1 [g_h 0; g_rx (2 * fixed_beta) 0])) by reflexivity.
  assert (H3 : run_job (fixed_env [("1"%string, 1024%Z)]) []
                       (aer_simulator,
                        measure_all (mkCircuit 1 [g_h 0; g_rx (2 * fixed_beta) 0]),
                        shots default_optimizer) = inr [("1"%string, 1024%Z)])
    by reflexivity.
  assert (H4 : total_shots [("1"%string, 1024%Z)] <> 0%Z) by discriminate.
  assert (H5 : Forall (fun e => is_bitstring (fst e) = true) [("1"%string, 1024%Z)])
    by (repeat constructor).
  split; [exact H1 | ].
  exact (proj2 (cost_function_value (fixed_env [("1"%string, 1024%Z)]) default_optimizer
                  (built_operator [[1]]) 1 [fixed_gamma; fixed_beta] [] _ _
                  H1 H2 H3 H4 H5)).
Defined.

(** ** Starting point and result of the parameter search *)

Lemma initial_point_step_length (reps : nat) (l : list nat) (ip : list Q) :
  List.length
    (fold_left (fun ip i => set_item (set_item ip i (8 # 10)) (i + reps) (4 # 10)) l ip)
  = List.length ip.
Proof.
  revert ip. induction l as [ | i l IH]; intro ip; simpl; [reflexivity | ].
  rewrite IH, !set_item_length. reflexivity.
Qed.

Lemma initial_point_step_nth (reps : nat) (l : list nat) (ip : list Q) (q : nat) :
  (forall i, In i l -> (i < reps)%nat) ->
  List.length ip = (2 * reps)%nat ->
  nth q (fold_left (fun ip i => set_item (set_item ip i (8 # 10)) (i + reps) (4 # 10)) l ip) 0
  = if existsb (Nat.eqb q) l then 8 # 10
    else if existsb (fun i => Nat.eqb q (i + reps)) l then 4 # 10
    else nth q ip 0.
Proof.
  intros Hl Hlen. induction l as [ | i l IH] using rev_ind; [reflexivity | ].
  rewrite fold_left_app. simpl.
  assert (Hi : (i < reps)%nat) by (apply Hl; apply in_or_app; right; left; reflexivity).
  assert (Hl' : forall k, In k l -> (k < reps)%nat)
    by (intros k Hk; apply Hl; apply in_or_app; left; exact Hk).
  specialize (IH Hl').
  rewrite !existsb_app. simpl. rewrite !orb_false_r.
  set (ip' := fold_left _ l ip) in *.
  assert (Hlen' : List.length ip' = (2 * reps)%nat).
  { unfold ip'. rewrite initial_point_step_length. exact Hlen. }
  destruct (Nat.eqb_spec q (i + reps)) as [-> | Hq1].
  - rewrite set_item_nth_same by (rewrite set_item_length; lia).
    destruct (existsb (Nat.eqb (i + reps)) l) eqn:E.
    + apply existsb_exists in E. destruct E as [k [Hk Ek]].
      apply Nat.eqb_eq in Ek. specialize (Hl' k Hk). lia.
    + simpl. destruct (Nat.eqb_spec (i + reps) i); [lia | ].
      rewrite orb_true_r. reflexivity.
  - rewrite set_item_nth_other by auto.
    destruct (Nat.eqb_spec q i) as [-> | Hq2].
    + rewrite set_item_nth_same by lia. rewrite orb_true_r. reflexivity.
    + rewrite set_item_nth_other by auto. rewrite IH, !orb_false_r. reflexivity.
Qed.

Lemma existsb_seq_eq (q n : nat) : existsb (Nat.eqb q) (seq 0 n) = (q <? n)%nat.
Proof.
  destruct (Nat.ltb_spec q n) as [H | H].
  - apply existsb_exists. exists q. split; [apply in_seq; lia | apply Nat.eqb_refl].
  - destruct (existsb (Nat.eqb q) (seq 0 n)) eqn:E; [ | reflexivity].
    apply existsb_exists in E. destruct E as [k [Hk Ek]].
    apply in_seq in Hk. apply Nat.eqb_eq in Ek. lia.
Qed.

Lemma existsb_seq_shift (q n r : nat) :
  existsb (fun i => Nat.eqb q (i + r)) (seq 0 n) = ((r <=? q) && (q <? n + r))%nat.
Proof.
  destruct ((r <=? q) && (q <? n + r))%nat eqn:E.
  - apply andb_true_iff in E. destruct E as [E1 E2].
    apply Nat.leb_le in E1. apply Nat.ltb_lt in E2.
    apply existsb_exists. exists (q - r)%nat. split; [apply in_seq; lia | ].
    apply Nat.eqb_eq. lia.
  - destruct (existsb _ (seq 0 n)) eqn:E'; [ | reflexivity].
    apply existsb_exists in E'. destruct E' as [k [Hk Ek]].
    apply in_seq in Hk. apply Nat.eqb_eq in Ek.
    apply andb_false_iff in E. destruct E as [E | E];
      [apply Nat.leb_gt in E | apply Nat.ltb_ge in E]; lia.
Qed.

Lemma initial_point_value (reps : nat) :
  initial_point reps = repeat (8 # 10) reps ++ repeat (4 # 10) reps.
Proof.
  apply (nth_ext _ _ 0 0).
  - unfold initial_point. rewrite initial_point_step_length, length_app, !repeat_length. lia.
  - unfold initial_point at 1. rewrite initial_point_step_length, repeat_length.
    intros q Hq. unfold initial_point.
    rewrite initial_point_step_nth; [ | intros i Hi; apply in_seq in Hi; lia
                                      | apply repeat_length].
    rewrite existsb_seq_eq, existsb_seq_shift.
    destruct (Nat.ltb_spec q reps) as [H | H].
    + rewrite app_nth1 by (rewrite repeat_length; exact H).
      symmetry. apply nth_repeat_lt. exact H.
    + rewrite app_nth2 by (rewrite repeat_length; exact H). rewrite repeat_length.
      destruct (Nat.leb_spec reps q); [ | lia].
      destruct (Nat.ltb_spec q (reps + reps)); [ | lia]. simpl.
      symmetry. apply nth_repeat_lt. lia.
Qed.

(** X12.  For a supported optimizer name the parameter search starts the
    external optimizer at gamma = 0.8 in every layer followed by
    beta = 0.4 in every layer, with COBYLA(maxiter=200, tol=1e-4) or
    SPSA(maxiter=100); it returns what the optimizer answers, its vector
    split at [reps] into gammas and betas without loss, and its failure
    unchanged. *)
Theorem optimize_parameters_contract (E : Env) (self : SimpleQAOAOptimizer)
        (h : SparsePauliOp) (reps : nat) (name : string) (w : world) :
  name = "COBYLA"%string \/ name = "SPSA"%string ->
  initial_point reps = repeat (8 # 10) reps ++ repeat (4 # 10) reps /\
  exists opt,
    (opt = if String.eqb name "COBYLA" then COBYLA 200 (1 # 10000) else SPSA 100) /\
    match minimize E opt (_create_cost_function E self h reps) (initial_point reps) w with
    | (inl e, w') => _optimize_parameters E self h reps name w = (inl e, w')
    | (inr r, w') =>
        exists gammas betas,
          _optimize_parameters E self h reps name w = (inr (gammas, betas, opt_fun r), w') /\
          gammas ++ betas = opt_x r /\
          List.length gammas = Nat.min reps (List.length (opt_x r))
    end.
Proof.
  intro Hname. split; [apply initial_point_value | ].
  unfold _optimize_parameters, bindM, liftM, select_optimizer.
  destruct Hname as [-> | ->]; simpl; eexists; (split; [reflexivity | ]);
    match goal with |- context [minimize E ?o ?f ?x w] =>
      destruct (minimize E o f x w) as [[e | r] w'] end;
    try reflexivity;
    (exists (firstn reps (opt_x r)), (skipn reps (opt_x r));
     split; [reflexivity | split; [apply firstn_skipn | apply length_firstn]]).
Qed.

Lemma optimize_parameters_contract_witness :
  ("SPSA"%string = "COBYLA"%string \/ "SPSA"%string = "SPSA"%string) /\
  initial_point 2 = repeat (8 # 10) 2 ++ repeat (4 # 10) 2.
Proof.
  assert (H : "SPSA"%string = "COBYLA"%string \/ "SPSA"%string = "SPSA"%string)
    by (right; reflexivity).
  split; [exact H | ].
  exact (proj1 (optimize_parameters_contract failing_env default_optimizer
                  (built_operator scenario_matrix) 2 "SPSA" [] H)).
Defined.

(** X13.  In variational mode with a supported optimizer name, whenever the
    external optimizer answers with a vector of length 2 * reps, the final
    circuit is built from it without an IndexError: its first [reps]
    entries are the gammas and the remaining ones the betas. *)
Theorem variational_circuit_built (E : Env) (self : SimpleQAOAOptimizer)
        (h : SparsePauliOp) (name : string) (w w' : world) (r : OptimizerResult) :
  name = "COBYLA"%string \/ name = "SPSA"%string ->
  minimize E (if String.eqb name "COBYLA" then COBYLA 200 (1 # 10000) else SPSA 100)
           (_create_cost_function E self h (reps self)) (initial_point (reps self)) w
  = (inr r, w') ->
  List.length (opt_x r) = (2 * reps self)%nat ->
  exists qc,
    choose_circuit E self h name true w = (inr qc, w') /\
    _create_parameterized_circuit (reps self) h (firstn (reps self) (opt_x r))
                                  (skipn (reps self) (opt_x r)) = inr qc /\
    num_qubits qc = hamiltonian_num_qubits h.
Proof.
  intros Hname Hmin Hlen.
  destruct (proj1 (parameterized_circuit_bounds_aux (reps self) h
                     (firstn (reps self) (opt_x r)) (skipn (reps self) (opt_x r))))
    as [qc [Hqc Hn]].
  - rewrite length_skipn. lia.
  - exists qc. split; [ | split; assumption].
    unfold choose_circuit, _optimize_parameters, bindM, liftM, select_optimizer, retM.
    destruct Hname as [-> | ->]; simpl in *; rewrite Hmin; simpl; rewrite Hqc; reflexivity.
Qed.

Lemma variational_circuit_built_witness :
  ("COBYLA"%string = "COBYLA"%string \/ "COBYLA"%string = "SPSA"%string) /\
  List.length (opt_x (mkOptimizerResult (initial_point 1) 0 0)) =
    (2 * reps default_optimizer)%nat /\
  exists qc,
    choose_circuit (fixed_env [("110"%string, 1024%Z)]) default_optimizer
                   (built_operator scenario_matrix) "COBYLA" true [] = (inr qc, []) /\
    _create_parameterized_circuit
      (reps default_optimizer) (built_operator scenario_matrix)
      (firstn (reps default_optimizer) (opt_x (mkOptimizerResult (initial_point 1) 0 0)))
      (skipn (reps default_optimizer) (opt_x (mkOptimizerResult (initial_point 1) 0 0)))
    = inr qc /\
    num_qubits qc = hamiltonian_num_qubits (built_operator scenario_matrix).
Proof.
  assert (H1 : "COBYLA"%string = "COBYLA"%string \/ "COBYLA"%string = "SPSA"%string)
    by (left; reflexivity).
  assert (H2 : List.length (opt_x (mkOptimizerResult (initial_point 1) 0 0)) =
               (2 * reps default_optimizer)%nat) by reflexivity.
  split; [exact H1 | ]. split; [exact H2 | ].
  exact (variational_circuit_built (fixed_env [("110"%string, 1024%Z)]) default_optimizer
           (built_operator scenario_matrix) "COBYLA" [] []
           (mkOptimizerResult (initial_point 1) 0 0) H1 eq_refl H2).
Defined.

(** ** Sums *)

Lemma qsum_from {A} (f : A -> Q) (l : list A) (a : Q) :
  fold_left (fun acc x => acc + f x) l a == a + qsum f l.
Proof.
  unfold qsum. revert a. induction l as [ | x l IH]; intro a; cbn [fold_left].
  - ring.
  - rewrite (IH (a + f x)), (IH (0 + f x)). ring.
Qed.

Lemma qsum_cons {A} (f : A -> Q) (x : A) (l : list A) :
  qsum f (x :: l) == f x + qsum f l.
Proof. unfold qsum at 1. cbn [fold_left]. rewrite qsum_from. ring. Qed.

Lemma qsum_app {A} (f : A -> Q) (l1 l2 : list A) :
  qsum f (l1 ++ l2) == qsum f l1 + qsum f l2.
Proof.
  induction l1 as [ | x l1 IH]; simpl.
  - unfold qsum at 2. simpl. ring.
  - rewrite !qsum_cons, IH. ring.
Qed.

Lemma qsum_ext {A} (f g : A -> Q) (l : list A) :
  (forall x, In x l -> f x == g x) -> qsum f l == qsum g l.
Proof.
  induction l as [ | x l IH]; intro H; [reflexivity | ].
  rewrite !qsum_cons, (H x (or_introl eq_refl)), IH; [reflexivity | ].
  intros y Hy. apply H. right. exact Hy.
Qed.

Lemma qsum_zero {A} (f : A -> Q) (l : list A) :
  (forall x, In x l -> f x == 0) -> qsum f l == 0.
Proof.
  induction l as [ | x l IH]; intro H; [reflexivity | ].
  rewrite qsum_cons, (H x (or_introl eq_refl)), IH; [ring | ].
  intros y Hy. apply H. right. exact Hy.
Qed.

Lemma qsum_plus {A} (f g : A -> Q) (l : list A) :
  qsum (fun x => f x + g x) l == qsum f l + qsum g l.
Proof.
  induction l as [ | x l IH]; [unfold qsum; simpl; ring | ].
  rewrite !qsum_cons, IH. ring.
Qed.

Lemma qsum_map {A B} (f : B -> Q) (g : A -> B) (l : list A) :
  qsum f (map g l) == qsum (fun a => f (g a)) l.
Proof.
  induction l as [ | x l IH]; [reflexivity | ].
  simpl map. rewrite !qsum_cons, IH. reflexivity.
Qed.

Lemma qsum_flat_map {A B} (f : B -> Q) (g : A -> list B) (l : list A) :
  qsum f (flat_map g l) == qsum (fun a => qsum f (g a)) l.
Proof.
  induction l as [ | x l IH]; [reflexivity | ].
  simpl flat_map. rewrite qsum_app, qsum_cons, IH. reflexivity.
Qed.

(** Changing one summand changes the sum by the same amount. *)
Lemma qsum_update {A} (f f' : A -> Q) (l : list A) (a : A) (delta : Q) :
  NoDup l -> In a l ->
  (forall x, In x l -> x <> a -> f' x == f x) ->
  f' a == f a + delta ->
  qsum f' l == qsum f l + delta.
Proof.
  intros Hnd. induction Hnd as [ | x l Hx Hnd IH]; intros Hin Hother Ha; [destruct Hin | ].
  rewrite !qsum_cons. destruct Hin as [-> | Hin].
  - rewrite Ha. rewrite (qsum_ext f' f l); [ring | ].
    intros y Hy. apply Hother; [right; exact Hy | ]. intro E. subst y. contradiction.
  - rewrite IH; auto.
    + rewrite (Hother x (or_introl eq_refl)); [ring | ]. intro E. subst x. contradiction.
    + intros y Hy. apply Hother. right. exact Hy.
Qed.

(** A fold whose step adds a quantity is a sum, up to [==]. *)
Lemma fold_left_Qeq {A} (f g : Q -> A -> Q) (l : list A) (a b : Q) :
  a == b ->
  (forall x u v, In x l -> u == v -> f u x == g v x) ->
  fold_left f l a == fold_left g l b.
Proof.
  revert a b. induction l as [ | x l IH]; intros a b Hab H; simpl; [exact Hab | ].
  apply IH.
  - apply H; [left; reflexivity | exact Hab].
  - intros y u v Hy. apply H. right. exact Hy.
Qed.

(** ** The objective as a sum *)

Lemma objective_as_sum (x : list Z) (m : matrix) :
  _calculate_objective_value x m ==
  qsum (fun i => mget m i i * bit x i) (seq 0 (List.length x))
  + qsum (fun i => qsum (fun j => mget m i j * bit x i * bit x j)
                        (range_from i (List.length x)))
         (seq 0 (List.length x)).
Proof.
  unfold _calculate_objective_value, objective_quadratic, objective_linear.
  set (n := List.length x).
  rewrite (fold_left_Qeq _ (fun acc i => acc + qsum (fun j => mget m i j * bit x i * bit x j)
                                                    (range_from i n))
                         (seq 0 n) _
                         (0 + qsum (fun i => mget m i i * bit x i) (seq 0 n))).
  - rewrite qsum_from. ring.
  - fold (bit x). apply (qsum_from (fun i => mget m i i * bit x i)).
  - intros i u v _ Huv. fold (bit x).
    rewrite (qsum_from (fun j => mget m i j * bit x i * bit x j)). rewrite Huv. reflexivity.
Qed.

(** ** Writing one coefficient into the matrix adds one term to the objective *)

Lemma objective_fill_step (n : nat) (m : matrix) (e : (nat * nat) * Q) (x : list Z) :
  square n m -> List.length x = n ->
  (fst (fst e) < n)%nat -> (snd (fst e) < n)%nat ->
  mget m (fst (unordered (fst e))) (snd (unordered (fst e))) == 0 ->
  _calculate_objective_value x (fill_step m e) ==
  _calculate_objective_value x m + dict_term x e.
Proof.
  intros Hsq Hlen Hi Hj Hzero.
  rewrite !objective_as_sum. rewrite Hlen.
  assert (Hget : forall r s, mget (fill_step m e) r s =
                             if touches r s e then snd e else mget m r s).
  { intros r s. apply (mget_fill_step n); assumption. }
  destruct e as [[i j] c]. unfold dict_term, unordered in *. cbn [fst snd] in *.
  destruct (Nat.eqb_spec i j) as [<- | Hij].
  - (* a diagonal key *)
    rewrite Nat.min_id, Nat.max_id in Hzero.
    rewrite (qsum_update (fun k => mget m k k * bit x k)
                         (fun k => mget (fill_step m (i, i, c)) k k * bit x k)
                         (seq 0 n) i (c * bit x i)).
    + rewrite (qsum_ext
                 (fun k => qsum (fun l => mget (fill_step m (i, i, c)) k l * bit x k * bit x l)
                                (range_from k n))
                 (fun k => qsum (fun l => mget m k l * bit x k * bit x l) (range_from k n))).
      * ring.
      * intros k _. apply qsum_ext. intros l Hl. apply in_range_from in Hl.
        rewrite Hget. destruct (touches k l (i, i, c)) eqn:Et; [ | reflexivity].
        apply touches_key in Et. simpl in Et. destruct Et as [Et | Et]; inversion Et; lia.
    + apply seq_NoDup.
    + apply in_seq. lia.
    + intros k _ Hk. rewrite Hget.
      destruct (touches k k (i, i, c)) eqn:Et; [ | reflexivity].
      apply touches_key in Et. simpl in Et. destruct Et as [Et | Et]; inversion Et; lia.
    + rewrite Hget. replace (touches i i (i, i, c)) with true.
      * rewrite Hzero. ring.
      * symmetry. apply touches_key. left. reflexivity.
  - (* an off-diagonal key *)
    set (a := Nat.min i j) in *. set (b := Nat.max i j) in *.
    assert (Hab : (a < b)%nat /\ (b < n)%nat) by (unfold a, b; lia).
    assert (Hkey : (a = i /\ b = j) \/ (a = j /\ b = i)) by (unfold a, b; lia).
    clearbody a b.
    rewrite (qsum_ext (fun k => mget (fill_step m (i, j, c)) k k * bit x k)
                      (fun k => mget m k k * bit x k)).
    + rewrite (qsum_update
                 (fun k => qsum (fun l => mget m k l * bit x k * bit x l) (range_from k n))
                 (fun k => qsum (fun l => mget (fill_step m (i, j, c)) k l * bit x k * bit x l)
                                (range_from k n))
                 (seq 0 n) a (c * bit x i * bit x j)).
      * ring.
      * apply seq_NoDup.
      * apply in_seq. lia.
      * intros k _ Hk. apply qsum_ext. intros l Hl. apply in_range_from in Hl.
        rewrite Hget. destruct (touches k l (i, j, c)) eqn:Et; [ | reflexivity].
        apply touches_key in Et. simpl in Et.
        destruct Et as [Et | Et]; inversion Et; subst; lia.
      * apply (qsum_update (fun l => mget m a l * bit x a * bit x l)
                           (fun l => mget (fill_step m (i, j, c)) a l * bit x a * bit x l)
                           (range_from a n) b (c * bit x i * bit x j)).
        -- unfold range_from. apply seq_NoDup.
        -- apply in_range_from. lia.
        -- intros l Hl Hlb. apply in_range_from in Hl. rewrite Hget.
           destruct (touches a l (i, j, c)) eqn:Et; [ | reflexivity].
           apply touches_key in Et. simpl in Et.
           destruct Et as [Et | Et]; inversion Et; subst; lia.
        -- rewrite Hget. replace (touches a b (i, j, c)) with true.
           ++ rewrite Hzero. destruct Hkey as [[-> ->] | [-> ->]]; ring.
           ++ symmetry. apply touches_key. simpl.
              destruct Hkey as [[-> ->] | [-> ->]]; auto.
    + intros k _. rewrite Hget.
      destruct (touches k k (i, j, c)) eqn:Et; [ | reflexivity].
      apply touches_key in Et. simpl in Et.
      destruct Et as [Et | Et]; inversion Et; subst; lia.
Qed.

Lemma unordered_touches (e e' : (nat * nat) * Q) :
  touches (fst (unordered (fst e'))) (snd (unordered (fst e'))) e = true ->
  unordered (fst e) = unordered (fst e').
Proof.
  intro H. apply touches_key in H. destruct e as [[i j] c], e' as [[i' j'] c'].
  unfold unordered in *. simpl in *.
  destruct H as [H | H]; inversion H; subst; f_equal; lia.
Qed.

Lemma objective_fill (n : nat) (d : qubo_dict) (m : matrix) (x : list Z) :
  square n m -> List.length x = n -> in_range n d ->
  NoDup (map (fun e => unordered (fst e)) d) ->
  (forall e, In e d ->
             mget m (fst (unordered (fst e))) (snd (unordered (fst e))) == 0) ->
  _calculate_objective_value x (fill m d) ==
  _calculate_objective_value x m + dict_objective d x.
Proof.
  intros Hsq Hlen Hr. subst n. revert m Hsq.
  induction d as [ | e d IH]; intros m Hsq Hnd Hzero.
  - simpl. unfold dict_objective, qsum. simpl. ring.
  - inversion Hr as [ | ? ? [Hi Hj] Hr']; subst.
    inversion Hnd as [ | ? ? Hnotin Hnd']; subst.
    simpl fill. unfold fill in *. simpl fold_left.
    rewrite IH; auto.
    + rewrite (objective_fill_step (List.length x)); auto.
      * unfold dict_objective. rewrite qsum_cons. ring.
      * apply Hzero. left. reflexivity.
    + apply fill_step_square; assumption.
    + intros e' He'. rewrite (mget_fill_step (List.length x)) by assumption.
      destruct (touches _ _ e) eqn:Et.
      * exfalso. apply Hnotin. apply unordered_touches in Et. rewrite Et.
        apply in_map_iff. exists e'. auto.
      * apply Hzero. right. exact He'.
Qed.

Lemma mget_zeros (n r s : nat) : mget (zeros n) r s = 0.
Proof.
  unfold mget, zeros.
  destruct (Nat.lt_ge_cases r n) as [Hr | Hr].
  - rewrite nth_repeat_lt by exact Hr.
    destruct (Nat.lt_ge_cases s n) as [Hs | Hs].
    + apply nth_repeat_lt. exact Hs.
    + apply nth_overflow. rewrite repeat_length. exact Hs.
  - replace (nth r (repeat (repeat 0 n) n) []) with (@nil Q).
    + destruct s; reflexivity.
    + symmetry. apply nth_overflow. rewrite repeat_length. exact Hr.
Qed.

Lemma objective_zeros (n : nat) (x : list Z) : _calculate_objective_value x (zeros n) == 0.
Proof.
  rewrite objective_as_sum.
  rewrite (qsum_zero (fun i => mget (zeros n) i i * bit x i)).
  - rewrite qsum_zero; [ring | ]. intros i _. apply qsum_zero. intros j _.
    rewrite mget_zeros. ring.
  - intros i _. rewrite mget_zeros. ring.
Qed.

(** X14.  When no two keys of the dict name the same unordered pair, the
    exact objective computed on the matrix that [solve_problem] builds is
    the objective the dict states: for every assignment of the right
    length it equals the sum of [c * x_i] over the keys (i,i) and of
    [c * x_i * x_j] over the keys (i,j). *)
Theorem dict_objective_round_trip (d : qubo_dict) (x : list Z) :
  d <> [] ->
  NoDup (map (fun e => unordered (fst e)) d) ->
  List.length x = S (list_max (all_indices d)) ->
  exists m, matrix_of_dict d = inr m /\
            _calculate_objective_value x m == dict_objective d x.
Proof.
  intros Hne Hnd Hlen. eexists. split; [apply matrix_of_dict_value; exact Hne | ].
  rewrite (objective_fill (S (list_max (all_indices d)))); auto.
  - rewrite objective_zeros. ring.
  - apply square_zeros.
  - apply in_range_max_index.
  - intros e _. rewrite mget_zeros. reflexivity.
Qed.

Lemma dict_objective_round_trip_witness :
  scenario_dict <> [] /\
  NoDup (map (fun e => unordered (fst e)) scenario_dict) /\
  List.length [0; 1; 1]%Z = S (list_max (all_indices scenario_dict)) /\
  exists m, matrix_of_dict scenario_dict = inr m /\
            _calculate_objective_value [0; 1; 1]%Z m ==
            dict_objective scenario_dict [0; 1; 1]%Z.
Proof.
  assert (H1 : scenario_dict <> []) by discriminate.
  assert (H2 : NoDup (map (fun e => unordered (fst e)) scenario_dict)).
  { simpl. repeat constructor; simpl; intuition discriminate. }
  assert (H3 : List.length [0; 1; 1]%Z = S (list_max (all_indices scenario_dict)))
    by reflexivity.
  split; [exact H1 | ]. split; [exact H2 | ]. split; [exact H3 | ].
  exact (dict_objective_round_trip scenario_dict [0; 1; 1]%Z H1 H2 H3).
Defined.

(** ** The matrix built from a dict *)

Lemma find_ext_eq {A} (p q : A -> bool) (l : list A) :
  (forall e, p e = q e) -> find p l = find q l.
Proof.
  intro H. induction l as [ | a l IH]; simpl; [reflexivity | ].
  rewrite H, IH. reflexivity.
Qed.

Lemma find_none_all {A} (p : A -> bool) (l : list A) :
  (forall e, In e l -> p e = false) -> find p l = None.
Proof.
  induction l as [ | a l IH]; intro H; simpl; [reflexivity | ].
  rewrite (H a (or_introl eq_refl)). apply IH. intros e He. apply H. right. exact He.
Qed.

Lemma touches_sym (r s : nat) (e : (nat * nat) * Q) : touches r s e = touches s r e.
Proof. unfold touches. apply orb_comm. Qed.

Lemma fill_symmetric (n : nat) (d : qubo_dict) :
  in_range n d -> symmetric (fill (zeros n) d).
Proof.
  intros Hr r s.
  rewrite !(mget_fill n) by (try apply square_zeros; exact Hr).
  unfold last_write. rewrite (find_ext_eq (touches r s) (touches s r)) by apply touches_sym.
  rewrite !mget_zeros. reflexivity.
Qed.

Lemma fill_untouched (n : nat) (d : qubo_dict) (r s : nat) :
  in_range n d ->
  ~ In (r, s) (map fst d) -> ~ In (s, r) (map fst d) ->
  mget (fill (zeros n) d) r s = 0.
Proof.
  intros Hr H1 H2. rewrite (mget_fill n) by (try apply square_zeros; exact Hr).
  unfold last_write. rewrite find_none_all; [apply mget_zeros | ].
  intros e He. apply in_rev in He.
  destruct (touches r s e) eqn:Et; [ | reflexivity].
  apply touches_key in Et. exfalso.
  destruct Et as [Et | Et]; [apply H1 | apply H2]; rewrite <- Et;
    apply in_map; exact He.
Qed.

Lemma fill_lookup (n : nat) (d : qubo_dict) (i j : nat) (c : Q) :
  in_range n d -> NoDup (map fst d) -> In ((i, j), c) d ->
  i = j \/ ~ In (j, i) (map fst d) ->
  mget (fill (zeros n) d) i j = c /\ mget (fill (zeros n) d) j i = c.
Proof.
  intros Hr Hnd Hin Hmirror.
  assert (Hw : last_write i j d = Some c).
  { unfold last_write. apply find_constant_value.
    - intros [k v] He Ht. apply in_rev in He. apply touches_key in Ht. simpl in *.
      destruct Ht as [-> | ->].
      + eapply dict_value_unique; eauto.
      + destruct Hmirror as [-> | Hno].
        * eapply dict_value_unique; eauto.
        * exfalso. apply Hno. apply in_map_iff. exists ((j, i), v). auto.
    - exists ((i, j), c). split; [apply in_rev in Hin; exact Hin | ].
      apply touches_key. left. reflexivity. }
  split.
  - rewrite (mget_fill n) by (try apply square_zeros; exact Hr). rewrite Hw. reflexivity.
  - rewrite (fill_symmetric n d Hr j i).
    rewrite (mget_fill n) by (try apply square_zeros; exact Hr). rewrite Hw. reflexivity.
Qed.

(** X15.  [solve_problem] on the empty dict raises the ValueError of
    [max()] before anything is run.  For a non-empty dict the matrix has
    one row and column per index up to the largest one mentioned, is
    symmetric, holds 0 wherever no key points (in either orientation), and
    holds the coefficient c at (i,j) and at (j,i) for every key (i,j) of a
    dict with distinct keys that does not also hold the key (j,i). *)
Theorem matrix_of_dict_contents (d : qubo_dict) :
  (forall E self name uv w,
     solve_problem E self [] name uv w =
     (inl (ValueError "max() arg is an empty sequence"), w)) /\
  (d <> [] ->
   exists m,
     matrix_of_dict d = inr m /\
     square (S (list_max (all_indices d))) m /\
     symmetric m /\
     (forall r s, ~ In (r, s) (map fst d) -> ~ In (s, r) (map fst d) -> mget m r s = 0) /\
     (NoDup (map fst d) ->
      forall i j c, In ((i, j), c) d -> i = j \/ ~ In (j, i) (map fst d) ->
                    mget m i j = c /\ mget m j i = c)).
Proof.
  split; [reflexivity | ].
  intro Hne. eexists. split; [apply matrix_of_dict_value; exact Hne | ].
  pose proof (in_range_max_index d) as Hr.
  split; [apply fill_square; [apply square_zeros | exact Hr] | ].
  split; [apply fill_symmetric; exact Hr | ].
  split.
  - intros r s H1 H2. apply fill_untouched; assumption.
  - intros Hnd i j c Hin Hm. apply fill_lookup; assumption.
Qed.

Lemma matrix_of_dict_contents_witness :
  scenario_dict <> [] /\
  exists m,
    matrix_of_dict scenario_dict = inr m /\
    square (S (list_max (all_indices scenario_dict))) m /\
    symmetric m.
Proof.
  assert (H : scenario_dict <> []) by discriminate.
  split; [exact H | ].
  destruct (proj2 (matrix_of_dict_contents scenario_dict) H) as [m [H1 [H2 [H3 _]]]].
  exists m. split; [exact H1 | ]. split; [exact H2 | exact H3].
Defined.

(** ** The matrix built from a QuadraticProgram *)

Lemma fill_linear_value (n : nat) (l : list (nat * Q)) (m : matrix) :
  Forall (fun e => (fst e < n)%nat) l ->
  fill_linear n m l = inr (fill m (map diagonal_key l)).
Proof.
  intro H. revert m. induction H as [ | [i c] l Hi _ IH]; intro m; simpl; [reflexivity | ].
  simpl in Hi. unfold mset_checked. apply Nat.ltb_lt in Hi. rewrite Hi. simpl.
  rewrite IH. unfold fill. simpl. rewrite Nat.eqb_refl. reflexivity.
Qed.

Lemma fill_quadratic_value (n : nat) (q : qubo_dict) (m : matrix) :
  in_range n q ->
  Forall (fun e => fst (fst e) <> snd (fst e)) q ->
  fill_quadratic n m q = inr (fill m q).
Proof.
  intros Hr Hne. revert m.
  induction q as [ | [[i j] c] q IH]; intro m; simpl; [reflexivity | ].
  inversion Hr as [ | ? ? [Hi Hj] Hr']; subst.
  inversion Hne as [ | ? ? Hij Hne']; subst. simpl in *.
  unfold mset_checked. apply Nat.ltb_lt in Hi. apply Nat.ltb_lt in Hj.
  rewrite ?Hi, ?Hj. simpl. rewrite ?Hj, ?Hi. simpl.
  rewrite IH by assumption. unfold fill. simpl.
  apply Nat.eqb_neq in Hij. rewrite Hij. reflexivity.
Qed.

Lemma fill_linear_result (n : nat) (l : list (nat * Q)) (m : matrix) :
  (forall m', fill_linear n m l = inr m' -> Forall (fun e => (fst e < n)%nat) l) /\
  (forall e, fill_linear n m l = inl e -> e = IndexError "index is out of bounds").
Proof.
  revert m. induction l as [ | [i c] l IH]; intro m; simpl.
  - split; [constructor | discriminate].
  - unfold mset_checked. destruct (i <? n)%nat eqn:Hi; simpl.
    + destruct (IH (mset m i i c)) as [H1 H2]. split.
      * intros m' H. constructor; [apply Nat.ltb_lt; exact Hi | eapply H1; exact H].
      * exact H2.
    + split; [discriminate | ]. intros e H. inversion H. reflexivity.
Qed.

Lemma fill_quadratic_result (n : nat) (q : qubo_dict) (m : matrix) :
  (forall m', fill_quadratic n m q = inr m' -> in_range n q) /\
  (forall e, fill_quadratic n m q = inl e -> e = IndexError "index is out of bounds").
Proof.
  revert m. induction q as [ | [[i j] c] q IH]; intro m; simpl.
  - split; [constructor | discriminate].
  - unfold mset_checked.
    destruct (i <? n)%nat eqn:Hi; destruct (j <? n)%nat eqn:Hj; simpl;
      try (split; [discriminate | intros e H; inversion H; reflexivity]).
    rewrite ?Hj, ?Hi. simpl.
    destruct (IH (mset (mset m i j c) j i c)) as [H1 H2]. split.
    + intros m' H. constructor; [ | eapply H1; exact H].
      simpl. split; apply Nat.ltb_lt; assumption.
    + exact H2.
Qed.

Lemma mset_symmetric_diag (n : nat) (m : matrix) (i : nat) (c : Q) :
  square n m -> (i < n)%nat -> symmetric m -> symmetric (mset m i i c).
Proof.
  intros Hsq Hi Hs r s. rewrite !(mget_mset n) by assumption.
  rewrite (andb_comm (Nat.eqb s i)). rewrite (Hs r s). reflexivity.
Qed.

Lemma mset_symmetric_pair (n : nat) (m : matrix) (i j : nat) (c : Q) :
  square n m -> (i < n)%nat -> (j < n)%nat -> symmetric m ->
  symmetric (mset (mset m i j c) j i c).
Proof.
  intros Hsq Hi Hj Hs r s.
  rewrite !(mget_mset n); try assumption; try (apply mset_square; assumption).
  rewrite (Hs r s).
  destruct (Nat.eqb r j), (Nat.eqb s i), (Nat.eqb s j), (Nat.eqb r i); reflexivity.
Qed.

Lemma fill_linear_shape (n : nat) (l : list (nat * Q)) (m m' : matrix) :
  square n m -> symmetric m -> fill_linear n m l = inr m' ->
  square n m' /\ symmetric m'.
Proof.
  revert m. induction l as [ | [i c] l IH]; intros m Hsq Hs; simpl.
  - intro H. inversion H; subst. auto.
  - unfold mset_checked. destruct (i <? n)%nat eqn:Hi; simpl; [ | discriminate].
    apply Nat.ltb_lt in Hi. apply IH.
    + apply mset_square; assumption.
    + apply (mset_symmetric_diag n); assumption.
Qed.

Lemma fill_quadratic_shape (n : nat) (q : qubo_dict) (m m' : matrix) :
  square n m -> symmetric m -> fill_quadratic n m q = inr m' ->
  square n m' /\ symmetric m'.
Proof.
  revert m. induction q as [ | [[i j] c] q IH]; intros m Hsq Hs; simpl.
  - intro H. inversion H; subst. auto.
  - unfold mset_checked.
    destruct (i <? n)%nat eqn:Hi; destruct (j <? n)%nat eqn:Hj; simpl; try discriminate.
    rewrite ?Hj, ?Hi. simpl.
    apply Nat.ltb_lt in Hi. apply Nat.ltb_lt in Hj. apply IH.
    + repeat apply mset_square; assumption.
    + apply (mset_symmetric_pair n); assumption.
Qed.

Lemma zeros_symmetric (n : nat) : symmetric (zeros n).
Proof. intros r s. rewrite !mget_zeros. reflexivity. Qed.

(** X16.  [solve] builds the matrix of a QuadraticProgram only when every
    index of its linear and quadratic coefficients lies below the number
    of variables; otherwise the assignment into the matrix raises
    IndexError.  A matrix that is built is square with one row per
    variable and symmetric. *)
Theorem matrix_of_program_result (p : QuadraticProgram) :
  (forall m, matrix_of_program p = inr m ->
             program_in_range p /\ square (get_num_vars p) m /\ symmetric m) /\
  (forall e, matrix_of_program p = inl e -> e = IndexError "index is out of bounds") /\
  (program_in_range p -> exists m, matrix_of_program p = inr m).
Proof.
  unfold matrix_of_program, program_in_range. set (n := get_num_vars p).
  split; [ | split].
  - intros m H.
    destruct (fill_linear n (zeros n) (linear p)) as [e | m1] eqn:E1; simpl in H;
      [discriminate | ].
    destruct (fill_linear_shape n _ _ _ (square_zeros n) (zeros_symmetric n) E1)
      as [Hsq1 Hs1].
    split; [split | ].
    + apply (proj1 (fill_linear_result n (linear p) (zeros n)) m1 E1).
    + apply (proj1 (fill_quadratic_result n (quadratic p) m1) m H).
    + apply (fill_quadratic_shape n (quadratic p) m1 m Hsq1 Hs1 H).
  - intros e H.
    destruct (fill_linear n (zeros n) (linear p)) as [e1 | m1] eqn:E1; simpl in H.
    + inversion H; subst. apply (proj2 (fill_linear_result n (linear p) (zeros n)) e E1).
    + apply (proj2 (fill_quadratic_result n (quadratic p) m1) e H).
  - intros [Hl Hq].
    rewrite (fill_linear_value n _ _ Hl). simpl.
    destruct (fill_quadratic n (fill (zeros n) (map diagonal_key (linear p))) (quadratic p))
      as [e | m] eqn:E.
    + exfalso. revert E. generalize (fill (zeros n) (map diagonal_key (linear p))).
      clear Hl. induction Hq as [ | [[i j] c] q [Hi Hj] _ IH]; intros m0 E; simpl in E.
      * discriminate E.
      * simpl in Hi, Hj. unfold mset_checked in E.
        apply Nat.ltb_lt in Hi. apply Nat.ltb_lt in Hj.
        rewrite ?Hi, ?Hj in E. simpl in E. rewrite ?Hj, ?Hi in E. simpl in E.
        eapply IH. exact E.
    + exists m. reflexivity.
Qed.

Lemma matrix_of_program_result_witness :
  program_in_range scenario_program /\
  exists m, matrix_of_program scenario_program = inr m.
Proof.
  assert (H : program_in_range scenario_program).
  { split; repeat constructor. }
  split; [exact H | ].
  exact (proj2 (proj2 (matrix_of_program_result scenario_program)) H).
Defined.

(** ** The objective of a QuadraticProgram *)

Lemma NoDup_map_injective {A B} (f : A -> B) (l : list A) :
  (forall a b, f a = f b -> a = b) -> NoDup l -> NoDup (map f l).
Proof.
  intros Hinj Hnd. induction Hnd as [ | a l Ha Hnd IH]; simpl; constructor; auto.
  intro Hin. apply in_map_iff in Hin. destruct Hin as [b [Hb Hin]].
  apply Hinj in Hb. subst b. contradiction.
Qed.

Lemma matrix_of_program_value (p : QuadraticProgram) :
  program_in_range p ->
  Forall (fun e => fst (fst e) <> snd (fst e)) (quadratic p) ->
  matrix_of_program p =
  inr (fill (zeros (get_num_vars p)) (map diagonal_key (linear p) ++ quadratic p)).
Proof.
  intros [Hl Hq] Hne. unfold matrix_of_program.
  rewrite (fill_linear_value _ _ _ Hl). simpl.
  rewrite (fill_quadratic_value _ _ _ Hq Hne).
  unfold fill. rewrite fold_left_app. reflexivity.
Qed.

(** X17.  For a QuadraticProgram whose linear indices are distinct and
    whose quadratic keys name distinct pairs of two different variables,
    the value [solve] reports for an assignment, computed on the matrix,
    is the objective of the program: the sum of the linear coefficients
    times x_i plus the sum of the quadratic coefficients times x_i x_j. *)
Theorem program_objective_round_trip (p : QuadraticProgram) (x : list Z) :
  program_in_range p ->
  NoDup (map fst (linear p)) ->
  Forall (fun e => fst (fst e) <> snd (fst e)) (quadratic p) ->
  NoDup (map (fun e => unordered (fst e)) (quadratic p)) ->
  List.length x = get_num_vars p ->
  exists m, matrix_of_program p = inr m /\
            _calculate_objective_value x m == program_objective p x.
Proof.
  intros Hrange Hlin Hne Hquad Hlen.
  eexists. split; [apply matrix_of_program_value; assumption | ].
  destruct Hrange as [Hl Hq]. set (n := get_num_vars p) in *.
  rewrite (objective_fill n).
  - rewrite objective_zeros. unfold dict_objective, program_objective.
    rewrite qsum_app, qsum_map.
    rewrite (qsum_ext (fun a => dict_term x (diagonal_key a))
                      (fun e => snd e * bit x (fst e))).
    + rewrite (qsum_ext (dict_term x)
                        (fun e => snd e * bit x (fst (fst e)) * bit x (snd (fst e)))
                        (quadratic p)).
      * ring.
      * intros e He. rewrite Forall_forall in Hne. specialize (Hne e He).
        unfold dict_term. apply Nat.eqb_neq in Hne. rewrite Hne. reflexivity.
    + intros [i c] _. unfold dict_term, diagonal_key. simpl.
      rewrite Nat.eqb_refl. reflexivity.
  - apply square_zeros.
  - exact Hlen.
  - apply Forall_app. split; [ | exact Hq].
    apply Forall_forall. intros e He. apply in_map_iff in He.
    destruct He as [[i c] [<- Hin]]. rewrite Forall_forall in Hl.
    specialize (Hl _ Hin). simpl in *. auto.
  - rewrite map_app. apply NoDup_app.
    + rewrite map_map.
      replace (map (fun e => unordered (fst (diagonal_key e))) (linear p))
        with (map (fun i => (i, i)) (map fst (linear p))).
      * apply NoDup_map_injective; [ | exact Hlin]. intros a b H. inversion H. reflexivity.
      * rewrite map_map. apply map_ext. intros [i c]. unfold unordered, diagonal_key. simpl.
        rewrite Nat.min_id, Nat.max_id. reflexivity.
    + exact Hquad.
    + intros k Hk1 Hk2. rewrite map_map in Hk1.
      apply in_map_iff in Hk1. destruct Hk1 as [[i c] [Hk1 _]].
      apply in_map_iff in Hk2. destruct Hk2 as [[[a b] c'] [Hk2 Hin]].
      rewrite Forall_forall in Hne. specialize (Hne _ Hin).
      unfold unordered, diagonal_key in *. simpl in *. subst k.
      inversion Hk2. lia.
  - intros e _. rewrite mget_zeros. reflexivity.
Qed.

Lemma program_objective_round_trip_witness :
  program_in_range scenario_program /\
  NoDup (map fst (linear scenario_program)) /\
  Forall (fun e => fst (fst e) <> snd (fst e)) (quadratic scenario_program) /\
  NoDup (map (fun e => unordered (fst e)) (quadratic scenario_program)) /\
  List.length [0; 1; 1]%Z = get_num_vars scenario_program /\
  exists m, matrix_of_program scenario_program = inr m /\
            _calculate_objective_value [0; 1; 1]%Z m ==
            program_objective scenario_program [0; 1; 1]%Z.
Proof.
  assert (H1 : program_in_range scenario_program) by (split; repeat constructor).
  assert (H2 : NoDup (map fst (linear scenario_program))).
  { simpl. repeat constructor; simpl; intuition discriminate. }
  assert (H3 : Forall (fun e => fst (fst e) <> snd (fst e)) (quadratic scenario_program)).
  { repeat constructor; simpl; discriminate. }
  assert (H4 : NoDup (map (fun e => unordered (fst e)) (quadratic scenario_program))).
  { simpl. repeat constructor; simpl; intuition discriminate. }
  assert (H5 : List.length [0; 1; 1]%Z = get_num_vars scenario_program) by reflexivity.
  split; [exact H1 | ]. split; [exact H2 | ]. split; [exact H3 | ]. split; [exact H4 | ].
  split; [exact H5 | ].
  exact (program_objective_round_trip scenario_program [0; 1; 1]%Z H1 H2 H3 H4 H5).
Defined.

(** ** The energy of the Hamiltonian under Z = 1 - 2x *)

Lemma no_Z_contrib (p : pauli_string) (q : nat) (x : list Z) (acc : Q) :
  count_Z p = 0%nat -> ising_term_from q p x acc = acc.
Proof.
  unfold count_Z. revert q acc. induction p as [ | c p IH]; intros q acc H; simpl;
    [reflexivity | ].
  simpl in H. destruct (is_Z c); simpl in *; [discriminate H | ]. apply IH. exact H.
Qed.

Lemma ising_term_all_I (n q : nat) (x : list Z) (acc : Q) :
  ising_term_from q (all_I n) x acc = acc.
Proof. apply no_Z_contrib. apply count_Z_all_I. Qed.

Lemma ising_term_z_at (n i q : nat) (x : list Z) (acc : Q) :
  (i < n)%nat ->
  ising_term_from q (z_at n i) x acc = acc * zq x (q + i).
Proof.
  revert i q acc. induction n as [ | n IH]; intros i q acc Hi; [lia | ].
  destruct i as [ | i].
  - unfold z_at. simpl. rewrite ising_term_all_I, Nat.add_0_r. reflexivity.
  - unfold z_at in *. simpl. fold (all_I n). rewrite IH by lia.
    replace (S q + i)%nat with (q + S i)%nat by lia. reflexivity.
Qed.

Lemma ising_term_zz_at (n i j q : nat) (x : list Z) (acc : Q) :
  (i < j)%nat -> (j < n)%nat ->
  ising_term_from q (zz_at n i j) x acc = acc * zq x (q + i) * zq x (q + j).
Proof.
  revert i j q acc. induction n as [ | n IH]; intros i j q acc Hij Hj; [lia | ].
  destruct j as [ | j]; [lia | ]. destruct i as [ | i].
  - unfold zz_at. simpl. fold (all_I n). fold (z_at n j).
    rewrite ising_term_z_at by lia. rewrite Nat.add_0_r.
    replace (S q + j)%nat with (q + S j)%nat by lia. reflexivity.
  - unfold zz_at in *. simpl. fold (all_I n). rewrite IH by lia.
    replace (S q + i)%nat with (q + S i)%nat by lia.
    replace (S q + j)%nat with (q + S j)%nat by lia. reflexivity.
Qed.

Lemma zq_value (x : list Z) (q : nat) : zq x q == 1 - 2 * bit x q.
Proof.
  unfold zq, bit. unfold Z.sub.
  rewrite inject_Z_plus, inject_Z_opp, inject_Z_mult. ring.
Qed.

Lemma bit_complement (x : list Z) (i : nat) :
  (i < List.length x)%nat -> bit (complement x) i == 1 - bit x i.
Proof.
  intro Hi. unfold bit, complement.
  rewrite (nth_indep _ 0%Z ((fun b => (1 - b)%Z) 0%Z)) by (rewrite length_map; exact Hi).
  rewrite map_nth. unfold Z.sub. rewrite inject_Z_plus, inject_Z_opp. ring.
Qed.

Lemma energy_as_sum (h : SparsePauliOp) (x : list Z) :
  ising_energy h x = qsum (fun t => ising_term (fst t) (snd t) x) (terms h).
Proof. reflexivity. Qed.

Lemma diagonal_energy (m : matrix) (n : nat) (x : list Z) :
  no_small_entry n m ->
  qsum (fun t => ising_term (fst t) (snd t) x) (diagonal_terms m n)
  == qsum (fun i => mget m i i / 2 * zq x i) (seq 0 n).
Proof.
  intro Hs. unfold diagonal_terms. rewrite qsum_flat_map. apply qsum_ext.
  intros i Hi. apply in_seq in Hi. unfold diagonal_entry.
  destruct (above_eps (mget m i i)) eqn:E.
  - rewrite qsum_cons. unfold qsum at 1. simpl fold_left. simpl fst. simpl snd.
    unfold ising_term. rewrite ising_term_z_at by lia. simpl. ring.
  - destruct (Hs i i) as [H | H]; try lia; [congruence | ].
    unfold qsum. simpl. rewrite H. unfold Qdiv. ring.
Qed.

Lemma offdiagonal_energy (m : matrix) (n : nat) (x : list Z) :
  no_small_entry n m ->
  qsum (fun t => ising_term (fst t) (snd t) x) (offdiagonal_terms m n)
  == qsum (fun i => qsum (fun j => mget m i j / 4
                                   * (zq x i * zq x j + zq x i + zq x j))
                         (range_from i n))
          (seq 0 n).
Proof.
  intro Hs. unfold offdiagonal_terms. rewrite qsum_flat_map. apply qsum_ext.
  intros i Hi. apply in_seq in Hi. rewrite qsum_flat_map. apply qsum_ext.
  intros j Hj. apply in_range_from in Hj. unfold pair_entry.
  destruct (above_eps (mget m i j)) eqn:E.
  - rewrite !qsum_cons. unfold qsum at 1. simpl fold_left. simpl fst. simpl snd.
    unfold ising_term. rewrite ising_term_zz_at by lia.
    rewrite !ising_term_z_at by lia. simpl. ring.
  - destruct (Hs i j) as [H | H]; try lia; [congruence | ].
    unfold qsum at 1. simpl. rewrite H. unfold Qdiv. ring.
Qed.

Lemma constant_energy (m : matrix) (n : nat) (x : list Z) :
  qsum (fun t => ising_term (fst t) (snd t) x) (constant_term m n)
  + (if above_eps (accumulated_constant m n) then 0 else accumulated_constant m n)
  == accumulated_constant m n.
Proof.
  unfold constant_term. destruct (above_eps (accumulated_constant m n)).
  - unfold qsum. simpl. unfold ising_term. rewrite ising_term_all_I. ring.
  - unfold qsum. simpl. ring.
Qed.

Lemma accumulated_constant_as_sum (m : matrix) (n : nat) :
  no_small_entry n m ->
  accumulated_constant m n ==
  qsum (fun i => mget m i i / 2) (seq 0 n)
  + qsum (fun i => qsum (fun j => mget m i j / 4) (range_from i n)) (seq 0 n).
Proof.
  intro Hs. unfold accumulated_constant.
  rewrite (fold_left_Qeq _ (fun k i => k + qsum (fun j => mget m i j / 4) (range_from i n))
                         (seq 0 n) _ (0 + qsum (fun i => mget m i i / 2) (seq 0 n))).
  - rewrite qsum_from. ring.
  - rewrite <- (qsum_from (fun i => mget m i i / 2)).
    apply fold_left_Qeq; [reflexivity | ].
    intros i u v Hi Huv. apply in_seq in Hi.
    destruct (above_eps (mget m i i)) eqn:E.
    + rewrite Huv. reflexivity.
    + destruct (Hs i i) as [H | H]; try lia; [congruence | ].
      rewrite Huv, H. unfold Qdiv. ring.
  - intros i u v Hi Huv. apply in_seq in Hi.
    rewrite <- (qsum_from (fun j => mget m i j / 4)).
    apply fold_left_Qeq; [exact Huv | ].
    intros j u' v' Hj Huv'. apply in_range_from in Hj.
    destruct (above_eps (mget m i j)) eqn:E.
    + rewrite Huv'. reflexivity.
    + destruct (Hs i j) as [H | H]; try lia; [congruence | ].
      rewrite Huv', H. unfold Qdiv. ring.
Qed.

Lemma energy_complement (m : matrix) (x : list Z) :
  List.length x = shape0 m ->
  no_small_entry (shape0 m) m ->
  ising_energy (built_operator m) x
  + (if above_eps (accumulated_constant m (shape0 m)) then 0
     else accumulated_constant m (shape0 m))
  == _calculate_objective_value (complement x) m.
Proof.
  intros Hlen Hs. set (n := shape0 m) in *.
  rewrite energy_as_sum, hamiltonian_terms. fold n.
  rewrite !qsum_app, <- !Qplus_assoc, constant_energy.
  rewrite (diagonal_energy m n x Hs), (offdiagonal_energy m n x Hs).
  rewrite (accumulated_constant_as_sum m n Hs).
  assert (Hlc : List.length (complement x) = n)
    by (unfold complement; rewrite length_map; exact Hlen).
  rewrite objective_as_sum, !Hlc.
  transitivity
    (qsum (fun i => mget m i i / 2 * zq x i + mget m i i / 2) (seq 0 n)
     + qsum (fun i => qsum (fun j => mget m i j / 4 * (zq x i * zq x j + zq x i + zq x j)
                                     + mget m i j / 4) (range_from i n)) (seq 0 n)).
  - rewrite qsum_plus.
    rewrite (qsum_ext
               (fun i => qsum (fun j => mget m i j / 4 * (zq x i * zq x j + zq x i + zq x j)
                                        + mget m i j / 4) (range_from i n))
               (fun i => qsum (fun j => mget m i j / 4 * (zq x i * zq x j + zq x i + zq x j))
                              (range_from i n)
                         + qsum (fun j => mget m i j / 4) (range_from i n))).
    + rewrite qsum_plus. ring.
    + intros i _. apply qsum_plus.
  - apply Qplus_comp.
    + apply qsum_ext. intros i Hi. apply in_seq in Hi. cbv beta.
      rewrite zq_value, bit_complement by lia. field.
    + apply qsum_ext. intros i Hi. apply in_seq in Hi.
      apply qsum_ext. intros j Hj. apply in_range_from in Hj. cbv beta.
      rewrite !zq_value, !bit_complement by lia. field.
Qed.

(** X18.  For a square matrix whose entries on and above the diagonal are
    each either above the threshold or exactly 0, the terms of the
    Hamiltonian that [_qubo_to_hamiltonian] returns, evaluated on an
    assignment x with Z_i = 1 - 2 x_i (every coefficient times the product
    of 1 - 2 x_q over the ['Z'] positions of its label, the constant
    included, plus the accumulated constant when the builder dropped it as
    negligible), give the exact objective of the bitwise complement of x,
    not of x: the builder substitutes x = (1 + Z)/2. *)
Theorem energy_is_objective_of_complement (m : matrix) (h : SparsePauliOp) (x : list Z) :
  square (shape0 m) m ->
  List.length x = shape0 m ->
  no_small_entry (shape0 m) m ->
  _qubo_to_hamiltonian m = inr h ->
  ising_energy h x
  + (if above_eps (accumulated_constant m (shape0 m)) then 0
     else accumulated_constant m (shape0 m))
  == _calculate_objective_value (complement x) m.
Proof.
  intros _ Hlen Hs Hh. rewrite (qubo_to_hamiltonian_built m h Hh).
  apply energy_complement; assumption.
Qed.

Lemma energy_is_objective_of_complement_witness :
  square (shape0 scenario_matrix) scenario_matrix /\
  List.length [1; 0; 0]%Z = shape0 scenario_matrix /\
  no_small_entry (shape0 scenario_matrix) scenario_matrix /\
  _qubo_to_hamiltonian scenario_matrix = inr (built_operator scenario_matrix) /\
  ising_energy (built_operator scenario_matrix) [1; 0; 0]%Z
  + (if above_eps (accumulated_constant scenario_matrix (shape0 scenario_matrix)) then 0
     else accumulated_constant scenario_matrix (shape0 scenario_matrix))
  == _calculate_objective_value (complement [1; 0; 0]%Z) scenario_matrix.
Proof.
  assert (H1 : square (shape0 scenario_matrix) scenario_matrix).
  { split; [reflexivity | repeat constructor]. }
  assert (H2 : List.length [1; 0; 0]%Z = shape0 scenario_matrix) by reflexivity.
  assert (H3 : no_small_entry (shape0 scenario_matrix) scenario_matrix).
  { intros i j Hij Hj. simpl in Hj.
    destruct i as [ | [ | [ | i]]]; destruct j as [ | [ | [ | j]]]; try lia;
      try (left; reflexivity); right; reflexivity. }
  assert (H4 : _qubo_to_hamiltonian scenario_matrix = inr (built_operator scenario_matrix))
    by reflexivity.
  split; [exact H1 | ]. split; [exact H2 | ]. split; [exact H3 | ]. split; [exact H4 | ].
  exact (energy_is_objective_of_complement scenario_matrix _ [1; 0; 0]%Z H1 H2 H3 H4).
Defined.

(** ** Outcomes of the solvers *)

Lemma solve_problem_body_result (E : Env) (self : SimpleQAOAOptimizer) (d : qubo_dict)
      (name : string) (uv : bool) (w w' : world) (r : solve_result) :
  solve_problem_body E self d name uv w = (inr r, w') ->
  exists m h qc w1 c,
    matrix_of_dict d = inr m /\
    _qubo_to_hamiltonian m = inr h /\
    choose_circuit E self h name uv w = (inr qc, w1) /\
    w' = w1 ++ [(chosen_backend E self w, qc, shots self)] /\
    run_job E w1 (chosen_backend E self w, qc, shots self) = inr c /\
    process_results c (shots self) m = inr r.
Proof.
  unfold solve_problem_body, select_backend, bindM, liftM.
  destruct (matrix_of_dict d) as [e | m]; [discriminate | ].
  destruct (_qubo_to_hamiltonian m) as [e | h] eqn:Eh; [discriminate | ].
  destruct (choose_circuit E self _ name uv w) as [[e | qc] w1] eqn:Ec; [discriminate | ].
  unfold backend_run.
  destruct (run_job E w1 _) as [e | c] eqn:Er; [discriminate | ].
  intro H. inversion H as [[Hr Hw]].
  exists m, h, qc, w1, c. repeat split; auto.
Qed.

Lemma process_results_objective (c : counts) (shots : Z) (m : matrix) (r : solve_result) :
  process_results c shots m = inr r ->
  objective_value r = _calculate_objective_value (solution r) m /\
  result_counts r = c.
Proof.
  unfold process_results, bind, ret.
  destruct (max_by_count c); [discriminate | ].
  destruct (solution_of_bitstring s); [discriminate | ].
  destruct (int_true_div _ _); [discriminate | ].
  intro H. inversion H. simpl. auto.
Qed.

(** X19.  Whenever [solve_problem] returns a record, in fixed or in
    variational mode, the record is extracted from the histogram of the
    last job executed, that job ran on the selected backend with the
    configured shot count, and the reported objective value is the exact
    objective of the reported solution on the matrix of the dict. *)
Theorem solve_problem_result (E : Env) (self : SimpleQAOAOptimizer) (d : qubo_dict)
        (name : string) (uv : bool) (w w' : world) (r : solve_result) :
  solve_problem E self d name uv w = (inr r, w') ->
  exists m qc w1,
    matrix_of_dict d = inr m /\
    w' = w1 ++ [(chosen_backend E self w, qc, shots self)] /\
    run_job E w1 (chosen_backend E self w, qc, shots self) = inr (result_counts r) /\
    process_results (result_counts r) (shots self) m = inr r /\
    objective_value r = _calculate_objective_value (solution r) m.
Proof.
  intro H. apply reraise_success in H.
  destruct (solve_problem_body_result E self d name uv w w' r H)
    as [m [h [qc [w1 [c [Hm [_ [_ [Hw [Hrun Hres]]]]]]]]]].
  destruct (process_results_objective c (shots self) m r Hres) as [Hobj Hc].
  exists m, qc, w1. rewrite Hc. repeat split; auto.
Qed.

Lemma solve_problem_result_witness :
  solve_problem (fixed_env [("110"%string, 1024%Z)]) default_optimizer scenario_dict
                "COBYLA" false [] =
  (inr (mkResult [0; 1; 1]%Z
                 (_calculate_objective_value [0; 1; 1]%Z scenario_matrix)
                 (inject_Z 1024 / inject_Z 1024)
                 [("110"%string, 1024%Z)] true),
   [fixed_job (fixed_env [("110"%string, 1024%Z)]) default_optimizer scenario_matrix []]) /\
  exists m qc w1,
    matrix_of_dict scenario_dict = inr m /\
    [fixed_job (fixed_env [("110"%string, 1024%Z)]) default_optimizer scenario_matrix []]
    = w1 ++ [(chosen_backend (fixed_env [("110"%string, 1024%Z)]) default_optimizer [], qc,
              shots default_optimizer)].
Proof.
  assert (H : solve_problem (fixed_env [("110"%string, 1024%Z)]) default_optimizer
                            scenario_dict "COBYLA" false [] =
              (inr (mkResult [0; 1; 1]%Z
                             (_calculate_objective_value [0; 1; 1]%Z scenario_matrix)
                             (inject_Z 1024 / inject_Z 1024)
                             [("110"%string, 1024%Z)] true),
               [fixed_job (fixed_env [("110"%string, 1024%Z)]) default_optimizer
                          scenario_matrix []])) by reflexivity.
  split; [exact H | ].
  destruct (solve_problem_result _ _ _ _ _ _ _ _ H) as [m [qc [w1 [H1 [H2 _]]]]].
  exists m, qc, w1. split; [exact H1 | exact H2].
Defined.

(** X20.  A backend name that is empty, or that the runtime service cannot
    resolve, changes nothing: [solve_problem] then behaves exactly as if no
    backend had been configured, running on the Aer simulator. *)
Theorem unreachable_backend_is_ignored (E : Env) (r : nat) (s : Z) (backend_name : string)
        (d : qubo_dict) (name : string) (uv : bool) (w : world) :
  backend_name = EmptyString \/ (exists e, service_backend E w backend_name = inl e) ->
  solve_problem E (mkSimple r s (Some backend_name)) d name uv w =
  solve_problem E (mkSimple r s None) d name uv w.
Proof.
  intro H.
  assert (Hsel : chosen_backend E (mkSimple r s (Some backend_name)) w = aer_simulator).
  { unfold chosen_backend. simpl. destruct H as [-> | [e He]]; [reflexivity | ].
    rewrite He. destruct (String.eqb backend_name EmptyString); reflexivity. }
  unfold solve_problem, solve_problem_body, select_backend, try_except, bindM, liftM.
  destruct (matrix_of_dict d) as [e | m]; [reflexivity | ].
  destruct (_qubo_to_hamiltonian m) as [e | h]; [reflexivity | ].
  rewrite Hsel. reflexivity.
Qed.

Lemma unreachable_backend_is_ignored_witness :
  ("ibm_kyoto"%string = EmptyString \/
   exists e, service_backend failing_env [] "ibm_kyoto" = inl e) /\
  solve_problem failing_env (mkSimple 1 1024 (Some "ibm_kyoto"%string)) scenario_dict
                "COBYLA" false [] =
  solve_problem failing_env (mkSimple 1 1024 None) scenario_dict "COBYLA" false [].
Proof.
  assert (H : "ibm_kyoto"%string = EmptyString \/
              exists e, service_backend failing_env [] "ibm_kyoto" = inl e).
  { right. eexists. reflexivity. }
  split; [exact H | ].
  exact (unreachable_backend_is_ignored failing_env 1 1024 "ibm_kyoto" scenario_dict
           "COBYLA" false [] H).
Defined.

(** X21.  A QUBO without any coefficient of magnitude above 1e-10 on or
    above the diagonal of its matrix (all coefficients 0, for instance)
    cannot be solved: [solve_problem] and [solve] raise the QiskitError of
    the [SparsePauliOp] constructor, in fixed and in variational mode and
    for every optimizer name, before a backend is selected and without
    running any job. *)
Theorem negligible_problem_raises (E : Env) (self : SimpleQAOAOptimizer) (d : qubo_dict)
        (p : QuadraticProgram) (m : matrix) (name : string) (uv : bool) (w : world) :
  below_threshold (shape0 m) m ->
  (matrix_of_dict d = inr m ->
   solve_problem E self d name uv w =
   (inl (QiskitError "Input Pauli list is empty."), w)) /\
  (matrix_of_program p = inr m ->
   solve E self p name uv w =
   (inl (QiskitError "Input Pauli list is empty."), w)).
Proof.
  intro Hb. pose proof (negligible_matrix_raises m Hb) as Hq.
  split; intro Hm; unfold_pipeline; rewrite Hm, Hq; reflexivity.
Qed.

Lemma negligible_problem_raises_witness :
  below_threshold (shape0 [[0]]) [[0]] /\
  matrix_of_dict [((0%nat, 0%nat), 0)] = inr [[0]] /\
  solve_problem (fixed_env [("0"%string, 1024%Z)]) default_optimizer
                [((0%nat, 0%nat), 0)] "COBYLA" false [] =
  (inl (QiskitError "Input Pauli list is empty."), []).
Proof.
  assert (Hb : below_threshold (shape0 [[0]]) [[0]]).
  { intros i j Hij Hj. simpl in Hj.
    destruct i as [ | i]; destruct j as [ | j]; try reflexivity; lia. }
  assert (Hm : matrix_of_dict [((0%nat, 0%nat), 0)] = inr [[0]]) by reflexivity.
  split; [exact Hb | ]. split; [exact Hm | ].
  exact (proj1 (negligible_problem_raises (fixed_env [("0"%string, 1024%Z)])
                  default_optimizer [((0%nat, 0%nat), 0)] (mkProgram 1 [] []) [[0]]
                  "COBYLA" false [] Hb) Hm).
Defined.

(** X22.  [QAOAPortfolioOptimizer.solve] raises only what the classical
    fallback raises.  A dictionary it returns comes from its own pipeline,
    has success = true and carries the exact objective of its solution; a
    classical result is returned exactly when the pipeline failed and the
    classical optimizer answered. *)
Theorem portfolio_solve_outcomes (E : Env) (self : QAOAPortfolioOptimizer)
        (p : QuadraticProgram) (w : world) :
  (forall e w', portfolio_solve E self p w = (inl e, w') ->
                classical_solve E p = inl e /\
                exists e0, portfolio_solve_body E self p w = (inl e0, w')) /\
  (forall x f c s w', portfolio_solve E self p w = (inr (portfolio_dict x f c s), w') ->
                      s = true /\
                      exists m, matrix_of_program p = inr m /\
                                f = _calculate_objective_value x m) /\
  (forall r w', portfolio_solve E self p w = (inr (classical_result r), w') ->
                classical_solve E p = inr r /\
                exists e0, portfolio_solve_body E self p w = (inl e0, w')).
Proof.
  unfold portfolio_solve, try_except.
  destruct (portfolio_solve_body E self p w) as [[e0 | out] w1] eqn:Ebody.
  - unfold portfolio_fallback, try_except, bindM, liftM, retM, raiseM.
    destruct (classical_solve E p) as [e1 | r1]; repeat split;
      try (intros; discriminate).
    + inversion H; subst. reflexivity.
    + inversion H. subst. exists e0. reflexivity.
    + inversion H. reflexivity.
    + inversion H. subst. exists e0. reflexivity.
  - split; [intros; discriminate | ].
    split; [ | intros r w' H; inversion H; subst; exfalso].
    + intros x f c s w' H. inversion H; subst. clear H.
      unfold portfolio_solve_body, bindM, liftM, retM, backend_run in Ebody.
      destruct (matrix_of_program p) as [e | m]; [discriminate | ].
      destruct (_qubo_to_ising m) as [e | h]; [discriminate | ].
      destruct (qaoa_ansatz E _ _ _) as [e | qc]; [discriminate | ].
      destruct (run_job E w _) as [e | c0]; [discriminate | ].
      destruct (max_by_count c0) as [e | best]; [discriminate | ].
      destruct (solution_of_bitstring best) as [e | sol]; [discriminate | ].
      inversion Ebody; subst. split; [reflexivity | ]. exists m. auto.
    + unfold portfolio_solve_body, bindM, liftM, retM, backend_run in Ebody.
      destruct (matrix_of_program p) as [e | m]; [discriminate | ].
      destruct (_qubo_to_ising m) as [e | h]; [discriminate | ].
      destruct (qaoa_ansatz E _ _ _) as [e | qc]; [discriminate | ].
      destruct (run_job E w _) as [e | c0]; [discriminate | ].
      destruct (max_by_count c0) as [e | best]; [discriminate | ].
      destruct (solution_of_bitstring best) as [e | sol]; discriminate.
Qed.

Lemma portfolio_solve_outcomes_witness :
  portfolio_solve failing_env (mkPortfolio 1 1024) scenario_program [] =
  (inl (ImportError "No module named qiskit.algorithms"),
   [(aer_simulator,
     mkCircuit (hamiltonian_num_qubits (built_operator scenario_matrix)) [g_measure_all],
     1024%Z)]) /\
  classical_solve failing_env scenario_program =
  inl (ImportError "No module named qiskit.algorithms").
Proof.
  assert (H : portfolio_solve failing_env (mkPortfolio 1 1024) scenario_program [] =
              (inl (ImportError "No module named qiskit.algorithms"),
               [(aer_simulator,
                 mkCircuit (hamiltonian_num_qubits (built_operator scenario_matrix))
                           [g_measure_all],
                 1024%Z)])) by reflexivity.
  split; [exact H | ].
  exact (proj1 (proj1 (portfolio_solve_outcomes failing_env (mkPortfolio 1 1024)
                         scenario_program []) _ _ H)).
Defined.

(** ** A quadratic key (i,i) of a QuadraticProgram *)

Lemma mset_twice (n : nat) (m : matrix) (i : nat) (c : Q) :
  square n m -> (i < n)%nat -> mset (mset m i i c) i i c = mset m i i c.
Proof.
  intros Hsq Hi. apply (matrix_ext n).
  - repeat apply mset_square; assumption.
  - apply mset_square; assumption.
  - intros r s _ _.
    rewrite (mget_mset n); try assumption; [ | apply mset_square; assumption].
    destruct (Nat.eqb r i && Nat.eqb s i) eqn:E; [ | reflexivity].
    rewrite (mget_mset n) by assumption. rewrite E. reflexivity.
Qed.

Lemma fill_quadratic_general (n : nat) (q : qubo_dict) (m : matrix) :
  square n m -> in_range n q -> fill_quadratic n m q = inr (fill m q).
Proof.
  intros Hsq Hr. revert m Hsq.
  induction q as [ | [[i j] c] q IH]; intros m Hsq; simpl; [reflexivity | ].
  inversion Hr as [ | ? ? [Hi Hj] Hr']; subst. simpl in Hi, Hj.
  unfold mset_checked.
  pose proof Hi as Hi'. pose proof Hj as Hj'.
  apply Nat.ltb_lt in Hi'. apply Nat.ltb_lt in Hj'.
  rewrite ?Hi', ?Hj'. simpl. rewrite ?Hj', ?Hi'. simpl.
  rewrite IH; [ | exact Hr' | repeat apply mset_square; assumption].
  unfold fill. simpl. destruct (Nat.eqb_spec i j) as [<- | Hij]; [ | reflexivity].
  rewrite (mset_twice n) by assumption. reflexivity.
Qed.

(** X23.  In [solve], the quadratic coefficients are written after the
    linear ones: a quadratic key (i,i) of the program overwrites the
    diagonal entry of variable i, so the matrix holds the quadratic
    coefficient there and the linear coefficient of that variable is
    lost. *)
Theorem quadratic_diagonal_overwrites_linear (p : QuadraticProgram) (i : nat) (c : Q) :
  program_in_range p ->
  NoDup (map fst (quadratic p)) ->
  In ((i, i), c) (quadratic p) ->
  exists m, matrix_of_program p = inr m /\ mget m i i = c.
Proof.
  intros [Hl Hq] Hnd Hin. set (n := get_num_vars p) in *.
  assert (Hsq1 : square n (fill (zeros n) (map diagonal_key (linear p)))).
  { apply fill_square; [apply square_zeros | ].
    apply Forall_forall. intros e He. apply in_map_iff in He.
    destruct He as [[k v] [<- Hk]]. rewrite Forall_forall in Hl.
    specialize (Hl _ Hk). simpl in *. auto. }
  exists (fill (fill (zeros n) (map diagonal_key (linear p))) (quadratic p)). split.
  - unfold matrix_of_program. fold n. rewrite (fill_linear_value n _ _ Hl). simpl.
    apply fill_quadratic_general; assumption.
  - rewrite (mget_fill n) by assumption.
    assert (Hw : last_write i i (quadratic p) = Some c).
    { unfold last_write. apply find_constant_value.
      - intros [k v] He Ht. apply in_rev in He. apply touches_key in Ht. simpl in *.
        assert (k = (i, i)) by (destruct Ht; assumption). subst k.
        eapply dict_value_unique; eauto.
      - exists ((i, i), c). split; [apply in_rev in Hin; exact Hin | ].
        apply touches_key. left. reflexivity. }
    rewrite Hw. reflexivity.
Qed.

Lemma quadratic_diagonal_overwrites_linear_witness :
  program_in_range (mkProgram 1 [(0%nat, -5)] [((0%nat, 0%nat), 2)]) /\
  NoDup (map fst (quadratic (mkProgram 1 [(0%nat, -5)] [((0%nat, 0%nat), 2)]))) /\
  In ((0%nat, 0%nat), 2) (quadratic (mkProgram 1 [(0%nat, -5)] [((0%nat, 0%nat), 2)])) /\
  exists m, matrix_of_program (mkProgram 1 [(0%nat, -5)] [((0%nat, 0%nat), 2)]) = inr m /\
            mget m 0 0 = 2.
Proof.
  assert (H1 : program_in_range (mkProgram 1 [(0%nat, -5)] [((0%nat, 0%nat), 2)])).
  { split; repeat constructor. }
  assert (H2 : NoDup (map fst (quadratic (mkProgram 1 [(0%nat, -5)]
                                                    [((0%nat, 0%nat), 2)])))).
  { simpl. repeat constructor. simpl. tauto. }
  assert (H3 : In ((0%nat, 0%nat), 2)
                  (quadratic (mkProgram 1 [(0%nat, -5)] [((0%nat, 0%nat), 2)])))
    by (left; reflexivity).
  split; [exact H1 | ]. split; [exact H2 | ]. split; [exact H3 | ].
  exact (quadratic_diagonal_overwrites_linear _ 0 2 H1 H2 H3).
Defined.
